(** * parse_ci_monitor_json: known-issue classification and report aggregation

    A shallow embedding of [src/parse_ci_monitor_json.py] and the properties
    of its log fetcher, its classifier of known issues and its aggregation of
    failed test records into the owner / script / case report.

    Conventions of the embedding.
    - A Python [str] is a [string]; a character is a code point below 256.
    - A Python exception is a constructor of [exn]; code that may raise
      returns a [result].
    - The outside world (HTTP, the shell, the environment, the test-run
      service) is a record of oracles [env]; the part of the world the
      program changes (the requests it has sent, the report it builds) is
      the [state] threaded through the monad [M].
    - [print] calls write to standard output only and are left out. *)

From Stdlib Require Import Ascii.
From stdpp Require Import gmap strings list sorting.

(** ** Python strings *)

Module Str.

Local Open Scope char_scope.

Abbreviation to_list := String.list_ascii_of_string.
Abbreviation of_list := String.string_of_list_ascii.

Definition LF : ascii := "010".
Definition CR : ascii := "013".

(** The line boundaries of [str.splitlines] among the code points below
    256: LF, VT, FF, CR, FS, GS, RS and NEL. *)
Definition is_linebreak (c : ascii) : bool :=
  match c with
  | "010" | "011" | "012" | "013" | "028" | "029" | "030" | "133" => true
  | _ => false
  end.

(** [str.isspace] on one code point below 256. *)
Definition is_space (c : ascii) : bool :=
  match c with
  | "009" | "010" | "011" | "012" | "013"
  | "028" | "029" | "030" | "031" | " " | "133" | "160" => true
  | _ => false
  end.

(** [str.splitlines()]: [cur] is the line being read, last character
    first.  A line is emitted at every boundary (CR LF counts once) and at
    the end of the text when characters are pending. *)
Fixpoint splitlines_go (cur : list ascii) (s : list ascii) : list (list ascii) :=
  match s with
  | [] => match cur with [] => [] | _ => [rev cur] end
  | c :: s' =>
      if is_linebreak c then
        rev cur ::
          (if Ascii.eqb c CR then
             match s' with
             | c' :: s'' => if Ascii.eqb c' LF then splitlines_go [] s''
                            else splitlines_go [] s'
             | [] => splitlines_go [] s'
             end
           else splitlines_go [] s')
      else splitlines_go (c :: cur) s'
  end.

Definition splitlines (s : string) : list string :=
  of_list <$> splitlines_go [] (to_list s).

Fixpoint drop_spaces (s : list ascii) : list ascii :=
  match s with
  | c :: s' => if is_space c then drop_spaces s' else s
  | [] => []
  end.

(** [str.rstrip()] *)
Definition rstrip (s : string) : string :=
  of_list (rev (drop_spaces (rev (to_list s)))).

(** [str.startswith(p)] *)
Definition startswith (p s : string) : bool := String.prefix p s.

(** [s[b:e]] on a list of characters *)
Definition slice (b e : nat) (s : list ascii) : list ascii :=
  take (e - b) (drop b s).

End Str.

(** ** Python exceptions and results *)

Inductive exn : Type :=
| IncompleteRead
| UnboundLocalError (name : string)
| AttributeError (msg : string)
| IndexError
| CalledProcessError
| ReError
| ExternalError (what : string).

Inductive result (A : Type) : Type :=
| Ok (a : A)
| Raise (e : exn).
Arguments Ok {A} a.
Arguments Raise {A} e.

(** ** The fragment of [re] the program's patterns use

    [re_compile] reads a pattern written with literal characters, [.],
    the escapes [\s], [\n] and backslash-punctuation, a star on one
    character, capturing groups and [$].  Anything else is outside the
    fragment and gives [None]. *)

Module Re.

Local Open Scope char_scope.

Inductive atom : Type :=
| Lit (c : ascii)
| Dot
| Space.

Inductive node : Type :=
| One (a : atom)
| Star (a : atom)
| Open (g : nat)
| Close (g : nat)
| Eos.

Definition regex : Type := list node.

Definition atom_matches (a : atom) (c : ascii) : bool :=
  match a with
  | Lit c' => Ascii.eqb c' c
  | Dot => negb (Ascii.eqb c Str.LF)
  | Space => Str.is_space c
  end.

Definition is_alnum (c : ascii) : bool :=
  let n := nat_of_ascii c in
  (Nat.leb 48 n && Nat.leb n 57) || (Nat.leb 65 n && Nat.leb n 90)
  || (Nat.leb 97 n && Nat.leb n 122) || Nat.eqb n 95 || Nat.leb 128 n.

Definition is_meta (c : ascii) : bool :=
  match c with
  | "^" | "[" | "]" | "{" | "}" | "|" | "+" | "?" => true
  | _ => false
  end.

(** [acc] holds the nodes read so far, last one first; [next] is the
    number of the next group; [opened] the groups not closed yet. *)
Fixpoint parse (p : list ascii) (acc : list node) (next : nat)
    (opened : list nat) : option regex :=
  match p with
  | [] => match opened with [] => Some (rev acc) | _ => None end
  | "\" :: c :: p' =>
      if Ascii.eqb c "s" then parse p' (One Space :: acc) next opened
      else if Ascii.eqb c "n" then parse p' (One (Lit Str.LF) :: acc) next opened
      else if is_alnum c then None
      else parse p' (One (Lit c) :: acc) next opened
  | "\" :: [] => None
  | "." :: p' => parse p' (One Dot :: acc) next opened
  | "*" :: p' =>
      match acc with
      | One a :: acc' => parse p' (Star a :: acc') next opened
      | _ => None
      end
  | "(" :: p' => parse p' (Open next :: acc) (S next) (next :: opened)
  | ")" :: p' =>
      match opened with
      | g :: opened' => parse p' (Close g :: acc) next opened'
      | [] => None
      end
  | "$" :: p' => parse p' (Eos :: acc) next opened
  | c :: p' =>
      if is_meta c then None else parse p' (One (Lit c) :: acc) next opened
  end.

Definition re_compile (pattern : string) : option regex :=
  parse (Str.to_list pattern) [] 1 [].

(** Spans of the groups: where each was opened and where it was closed. *)
Record caps : Type := mkCaps {
  starts : gmap nat nat;
  ends : gmap nat nat
}.

Definition no_caps : caps := mkCaps ∅ ∅.

(** [$] without MULTILINE: the end of the text, or just before a line feed
    that ends it. *)
Definition at_eos (s : list ascii) : bool :=
  match s with
  | [] => true
  | [c] => Ascii.eqb c Str.LF
  | _ => false
  end.

(** The backtracking matcher: [s] is what is left of the text, [pos] the
    offset of [s] in it.  A star is greedy: it takes a character when it
    can and gives it back when the rest of the pattern fails. *)
Fixpoint match_here (r : regex) : list ascii → nat → caps → option caps :=
  match r with
  | [] => fun _ _ cs => Some cs
  | One a :: r' => fun s pos cs =>
      match s with
      | c :: s' => if atom_matches a c then match_here r' s' (S pos) cs else None
      | [] => None
      end
  | Star a :: r' =>
      fix star (s : list ascii) (pos : nat) (cs : caps) : option caps :=
        match s with
        | c :: s' =>
            if atom_matches a c then
              match star s' (S pos) cs with
              | Some m => Some m
              | None => match_here r' s pos cs
              end
            else match_here r' s pos cs
        | [] => match_here r' s pos cs
        end
  | Open g :: r' => fun s pos cs =>
      match_here r' s pos (mkCaps (<[g:=pos]> (starts cs)) (ends cs))
  | Close g :: r' => fun s pos cs =>
      match_here r' s pos (mkCaps (starts cs) (<[g:=pos]> (ends cs)))
  | Eos :: r' => fun s pos cs =>
      if at_eos s then match_here r' s pos cs else None
  end.

(** [re.search] scans the start offsets from left to right. *)
Fixpoint search_from (r : regex) (s : list ascii) (pos : nat) : option caps :=
  match match_here r s pos no_caps with
  | Some m => Some m
  | None =>
      match s with
      | [] => None
      | _ :: s' => search_from r s' (S pos)
      end
  end.

Fixpoint count_groups (r : regex) : nat :=
  match r with
  | Open _ :: r' => S (count_groups r')
  | _ :: r' => count_groups r'
  | [] => 0
  end.

(** [m.groups()]: the text of group 1, 2, ... *)
Definition groups_of (r : regex) (text : list ascii) (m : caps) : list string :=
  (λ g, match starts m !! g, ends m !! g with
        | Some b, Some e => Str.of_list (Str.slice b e text)
        | _, _ => EmptyString
        end) <$> seq 1 (count_groups r).

Definition search_regex (r : regex) (text : string) : option (list string) :=
  groups_of r (Str.to_list text) <$> search_from r (Str.to_list text) 0.

(** [re.search(pattern, text)]: [Ok None] when nothing matches,
    [Ok (Some gs)] with the groups of the first match.  A pattern that
    does not compile raises; a pattern outside the fragment is treated the
    same way, and no property below is about such a pattern. *)
Definition re_search (pattern text : string) : result (option (list string)) :=
  match re_compile pattern with
  | Some r => Ok (search_regex r text)
  | None => Raise ReError
  end.

End Re.

(** ** The outside world and the state of the program *)

(** Run data as the test-run service returns it (section 6 of the spec);
    the fields are those [main] reads. *)
Record custom_field : Type := {
  key : string;
  value_content : string
}.

Record test_record : Type := {
  result_status : string;
  comment_content : string;
  test_case_id : string;
  customFields_Custom : list custom_field
}.

Record testrun : Type := {
  title : string;
  records_TestRecord : list test_record
}.

(** The oracles.  [urlopen_read hist url] is what
    [urllib.request.urlopen(url).read().decode("utf8")] does once the
    requests [hist] have been sent: the text, or the exception raised.
    [check_output cmd] is [subprocess.check_output(cmd, shell=True)] with
    its output decoded; [get_testrun_json run_id] is the function of that
    name: the polarshift call and the reading of the JSON file it writes. *)
Record env : Type := {
  urlopen_read : list string → string → result string;
  check_output : string → result string;
  BUSHSLICER_HOME : option string;
  get_testrun_json : string → result testrun
}.

(** A list object of the interpreter is a location of the store. *)
Definition loc : Type := nat.

(** The dictionary [failed_test_attrs]; [known_issues] refers to the list
    object the classifier returned. *)
Record attrs : Type := {
  case : string;
  logs : option string;
  profile : string;
  known_issues : option loc
}.

(** [report_struct]: the key [version] holds a string, every other key the
    scripts of one owner, each with its cases. *)
Inductive entry : Type :=
| Version (v : string)
| Scripts (by_script : gmap string (gmap string attrs)).

Abbreviation report := (gmap string entry).

Record state : Type := {
  requests : list string;
  store : gmap loc (list string);
  report_struct : report
}.

Definition M (A : Type) : Type := state → result A * state.

Definition ret {A} (a : A) : M A := λ st, (Ok a, st).
Definition raise {A} (e : exn) : M A := λ st, (Raise e, st).
Definition bind {A B} (m : M A) (k : A → M B) : M B :=
  λ st, match m st with
        | (Ok a, st') => k a st'
        | (Raise e, st') => (Raise e, st')
        end.
Definition lift {A} (r : result A) : M A := λ st, (r, st).

Notation "x <- m ;; k" := (bind m (λ x, k))
  (at level 100, m at next level, right associativity).
Notation "m ;;; k" := (bind m (λ _, k))
  (at level 100, right associativity).

(** Allocation, reading and appending for list objects. *)
Definition fresh_loc (h : gmap loc (list string)) : loc :=
  fresh (dom h).

Definition new_list : M loc :=
  λ st, let l := fresh_loc (store st) in
        (Ok l, {| requests := requests st;
                  store := <[l := []]> (store st);
                  report_struct := report_struct st |}).

Definition read_list (l : loc) : M (list string) :=
  λ st, (Ok (default [] (store st !! l)), st).

Definition list_append (l : loc) (x : string) : M unit :=
  λ st, (Ok tt, {| requests := requests st;
                   store := <[l := default [] (store st !! l) ++ [x]]> (store st);
                   report_struct := report_struct st |}).

Definition get_report : M report := λ st, (Ok (report_struct st), st).

Definition set_report (r : report) : M unit :=
  λ st, (Ok tt, {| requests := requests st;
                   store := store st;
                   report_struct := r |}).

(** ** class IssuesFinder *)

(** A rule is a method taking the log text and returning a description or
    [None]. *)
Definition detector : Type := string → result (option string).

(** What a name of the object is bound to: a rule, or anything else. *)
Inductive attribute : Type :=
| Rule (d : detector)
| Other.

(** The [def]s of a class body, in the order they are written. *)
Definition class_body : Type := list (string * attribute).

(** The names an instance answers to: a later [def] of a name replaces an
    earlier one, and [__init__] binds [issues_found] on the instance.  The
    names inherited from [object] all start with two underscores and are
    left out. *)
Definition namespace (body : class_body) : gmap string attribute :=
  <["issues_found" := Other]> (list_to_map (reverse body)).

(** [dir(self)]: the names, sorted. *)
Definition dir (body : class_body) : list string :=
  merge_sort String.le (map_to_list (namespace body)).*1.

Definition getattr (body : class_body) (name : string) : attribute :=
  default Other (namespace body !! name).

Definition issue_names (body : class_body) : list string :=
  filter (λ name, Str.startswith "issue_" name = true) (dir body).

Definition get_issue_methods (body : class_body) : list attribute :=
  getattr body <$> issue_names body.

Definition call (m : attribute) (log_text : string) : result (option string) :=
  match m with
  | Rule d => d log_text
  | Other => Raise (ExternalError "TypeError")
  end.

(** The inner loop of [match_ordered_strings]: is [target] found on some
    line? *)
Fixpoint find_target (target : string) (lines : list string) : result bool :=
  match lines with
  | [] => Ok false
  | line :: rest =>
      match Re.re_search target line with
      | Ok (Some _) => Ok true
      | Ok None => find_target target rest
      | Raise e => Raise e
      end
  end.

(** The outer loop: [found_all] is the set of the flags seen so far. *)
Fixpoint targets_loop (lines : list string) (targets : list string)
    (found_all : gset bool) : result (gset bool) :=
  match targets with
  | [] => Ok found_all
  | target :: rest =>
      match find_target target lines with
      | Ok found => targets_loop lines rest ({[found]} ∪ found_all)
      | Raise e => Raise e
      end
  end.

(** [all(s)] on a set of booleans *)
Definition all (s : gset bool) : bool := bool_decide (false ∉ s).

Definition match_ordered_strings (log : string) (targets : list string) : result bool :=
  match targets_loop (Str.splitlines log) targets ∅ with
  | Ok found_all => Ok (all found_all)
  | Raise e => Raise e
  end.

Definition re_strings : list string :=
  [ "=== After Scenario:";
    "the server is currently unable to handle the request \(get projects.project.openshift.io\)";
    "RuntimeError: error getting projects by user" ].

Definition cleanup_description : string :=
  "After scenario RuntimeError raised while getting project during cleanup.".

Definition issue_fail_to_get_project_during_cleanup : detector :=
  λ log_text,
    match match_ordered_strings log_text re_strings with
    | Ok true => Ok (Some cleanup_description)
    | Ok false => Ok None
    | Raise e => Raise e
    end.

(** The class as the source writes it. *)
Definition IssuesFinder_body : class_body :=
  [ ("__init__", Other);
    ("get_issue_methods", Other);
    ("find_issues", Other);
    ("get_file_from_url", Other);
    ("match_ordered_strings", Other);
    ("issue_fail_to_get_project_during_cleanup",
     Rule issue_fail_to_get_project_during_cleanup) ].

(** An instance: its attribute [issues_found] refers to a list object. *)
Record IssuesFinder : Type := {
  issues_found : loc
}.

(** [IssuesFinder()] *)
Definition new_IssuesFinder : M IssuesFinder :=
  l <- new_list ;; ret {| issues_found := l |}.

Section Program.

Context (E : env).

(** One pass of [for i in range(3)]: [content] is the variable of that
    name, unbound as long as it is [None]. *)
Fixpoint fetch_attempts (url : string) (range : list nat)
    (content : option string) : M (option string) :=
  match range with
  | [] => ret content
  | i :: rest => λ st,
      let st' := {| requests := requests st ++ [url];
                    store := store st;
                    report_struct := report_struct st |} in
      match urlopen_read E (requests st) url with
      | Ok text => (Ok (Some text), st')
      | Raise IncompleteRead => fetch_attempts url rest content st'
      | Raise e => (Raise e, st')
      end
  end.

Definition get_file_from_url (url : string) : M string :=
  content <- fetch_attempts url (seq 0 3) None ;;
  match content with
  | Some text => ret text
  | None => raise (UnboundLocalError "content")
  end.

Fixpoint run_issue_methods (self : IssuesFinder) (log_text : string)
    (methods : list attribute) : M unit :=
  match methods with
  | [] => ret tt
  | issue_method :: rest =>
      known_issue <- lift (call issue_method log_text) ;;
      match known_issue with
      | Some k => list_append (issues_found self) k
      | None => ret tt
      end ;;;
      run_issue_methods self log_text rest
  end.

(** The result is the list object [self.issues_found] itself. *)
Definition find_issues (body : class_body) (self : IssuesFinder)
    (test_info : attrs) : M loc :=
  match logs test_info with
  | Some url =>
      log_text <- get_file_from_url url ;;
      run_issue_methods self log_text (get_issue_methods body)
  | None => ret tt
  end ;;;
  ret (issues_found self).

End Program.

(** ** The functions of the module *)

(** [m.groups()[0]] for the result [m] of a search *)
Definition first_group (m : option (list string)) : result string :=
  match m with
  | None => Raise (AttributeError "'NoneType' object has no attribute 'groups'")
  | Some [] => Raise IndexError
  | Some (g :: _) => Ok g
  end.

Definition get_link_to_log (content : string) : result (option string) :=
  match Re.re_search "(http.*)" content with
  | Ok (Some gs) =>
      match first_group (Some gs) with
      | Ok g => Ok (Some g)
      | Raise e => Raise e
      end
  | Ok None => Ok None
  | Raise e => Raise e
  end.

(** The loop stops at the first field whose key is [automation_script];
    the variable [automation_script] stays unbound when there is none. *)
Fixpoint get_automation_script (cfields : list custom_field) : result string :=
  match cfields with
  | [] => Raise (UnboundLocalError "automation_script")
  | cf :: rest =>
      if decide (key cf = "automation_script") then
        match Re.re_search "file: (features.*feature)\n" (value_content cf) with
        | Ok m => first_group m
        | Raise e => Raise e
        end
      else get_automation_script rest
  end.

(** Lines 169 to 171 of [main]: the profile of a run, from its title. *)
Definition run_profile (output : testrun) : result string :=
  match Re.re_search ".* - (.*)$" (title output) with
  | Ok m => first_group m
  | Raise e => Raise e
  end.

(** Is a dictionary true in a condition?  Only the empty one is not. *)
Definition truthy {V} (d : gmap string V) : bool := bool_decide (d ≠ ∅).

(** Lines 194 to 209 of [main].  [failed_test_attrs] always has the keys
    [case], [logs] and [profile], so a case that is present is true; a
    version string has no method [get]. *)
Definition report_insert (owner automation_script id : string)
    (failed_test_attrs : attrs) (r : report) : result report :=
  let fresh_owner :=
    <[owner := Scripts {[automation_script := {[id := failed_test_attrs]}]}]> r in
  match r !! owner with
  | Some (Scripts by_script) =>
      if truthy by_script then
        match by_script !! automation_script with
        | Some by_case =>
            if truthy by_case then
              match by_case !! id with
              | Some _ =>
                  Ok (<[owner := Scripts (<[automation_script :=
                                              <[id := failed_test_attrs]> by_case]> by_script)]> r)
              | None =>
                  Ok (<[owner := Scripts (<[automation_script :=
                                              <[id := failed_test_attrs]> by_case]> by_script)]> r)
              end
            else
              Ok (<[owner := Scripts (<[automation_script :=
                                          {[id := failed_test_attrs]}]> by_script)]> r)
        | None =>
            Ok (<[owner := Scripts (<[automation_script :=
                                        {[id := failed_test_attrs]}]> by_script)]> r)
        end
      else Ok fresh_owner
  | Some (Version v) =>
      if decide (v = EmptyString) then Ok fresh_owner
      else Raise (AttributeError "'str' object has no attribute 'get'")
  | None => Ok fresh_owner
  end.

(** [report_struct[owner][automation_script][id]], when all three keys are
    there. *)
Definition report_lookup (r : report) (owner automation_script id : string) : option attrs :=
  match r !! owner with
  | Some (Scripts by_script) => by_script !! automation_script ≫= (.!! id)
  | _ => None
  end.

Record args : Type := {
  runs : option (list string);
  output : string;
  version : string
}.

Section Main.

Context (E : env).

Definition get_owner (ascript testid : string) : result string :=
  let home := default "None" (BUSHSLICER_HOME E) in
  let dir := home +:+ "/" +:+ ascript in
  match check_output E ("egrep -B 1 " +:+ testid +:+ " " +:+ dir +:+ " | grep author") with
  | Ok owner =>
      match Re.re_search "author\s*(.*)@redhat.com" (Str.rstrip owner) with
      | Ok m => first_group m
      | Raise e => Raise e
      end
  | Raise CalledProcessError => Ok "Not found"
  | Raise e => Raise e
  end.

(** The body of the loop over the records of a run. *)
Definition process_record (profile : string) (record : test_record) : M unit :=
  if decide (result_status record = "Failed") then
    linkto_logs <- lift (get_link_to_log (comment_content record)) ;;
    automation_script <- lift (get_automation_script (customFields_Custom record)) ;;
    let id := test_case_id record in
    owner <- lift (get_owner automation_script id) ;;
    let failed_test_attrs :=
      {| case := id; logs := linkto_logs; profile := profile; known_issues := None |} in
    issue_finder <- new_IssuesFinder ;;
    issues <- find_issues E IssuesFinder_body issue_finder failed_test_attrs ;;
    found <- read_list issues ;;
    let failed_test_attrs :=
      match found with
      | [] => failed_test_attrs
      | _ => {| case := id; logs := linkto_logs; profile := profile;
                known_issues := Some issues |}
      end in
    r <- get_report ;;
    r' <- lift (report_insert owner automation_script id failed_test_attrs r) ;;
    set_report r'
  else ret tt.

Fixpoint process_records (profile : string) (records : list test_record) : M unit :=
  match records with
  | [] => ret tt
  | record :: rest => process_record profile record ;;; process_records profile rest
  end.

(** The body of the loop over the runs. *)
Definition process_run (run : string) : M unit :=
  output <- lift (get_testrun_json E run) ;;
  profile <- lift (run_profile output) ;;
  process_records profile (records_TestRecord output).

Fixpoint process_runs (runs : list string) : M unit :=
  match runs with
  | [] => ret tt
  | run :: rest => process_run run ;;; process_runs rest
  end.

(** [main]: the result is what [write_output] is called with. *)
Definition main (a : args) : M (report * string) :=
  set_report {[ "version" := Version (version a) ]} ;;;
  match runs a with
  | Some rs => process_runs rs
  | None => raise (ExternalError "TypeError")
  end ;;;
  r <- get_report ;;
  ret (r, output a).

End Main.

(** * Vocabulary of the properties *)

(** The elements of the list object [l] in [st]. *)
Definition contents (st : state) (l : loc) : list string :=
  default [] (store st !! l).

(** The descriptions among the results of the rules, in their order. *)
Definition matched (results : list (option string)) : list string :=
  omap id results.

(** [target] matches [line]: the search returns a match object. *)
Definition line_matches (target line : string) : Prop :=
  ∃ gs, Re.re_search target line = Ok (Some gs).

(** [target] is found on some line of [log]. *)
Definition found_in (target log : string) : Prop :=
  Exists (line_matches target) (Str.splitlines log).

#[global] Instance line_matches_dec target line : Decision (line_matches target line).
Proof.
  unfold line_matches.
  destruct (Re.re_search target line) as [[gs|]|e];
    [left; eauto | right; intros [? ?]; discriminate..].
Defined.

#[global] Instance found_in_dec target log : Decision (found_in target log).
Proof. unfold found_in. apply _. Defined.

(** The state once [n] more requests for [url] have been sent. *)
Definition sent (n : nat) (url : string) (st : state) : state :=
  {| requests := requests st ++ replicate n url;
     store := store st;
     report_struct := report_struct st |}.

(** What the [k]-th attempt (from 0) of a call started in [st] gets. *)
Definition attempt (E : env) (url : string) (st : state) (k : nat) : result string :=
  urlopen_read E (requests st ++ replicate k url) url.


(** [sep] occurs in [t]. *)
Definition occurs (sep t : list ascii) : Prop :=
  ∃ a b, t = a ++ sep ++ b.

(** The separator of a run title, as characters. *)
Definition separator : list ascii := Str.to_list " - ".

(** The pattern of [run_profile], compiled. *)
Definition profile_regex : Re.regex :=
  [Re.Star Re.Dot; Re.One (Re.Lit " "); Re.One (Re.Lit "-"); Re.One (Re.Lit " ");
   Re.Open 1; Re.Star Re.Dot; Re.Close 1; Re.Eos].

(** The pattern of [get_automation_script] without its final line feed, as
    the spec writes it, compiled. *)
Definition script_path_regex : Re.regex :=
  Eval vm_compute in default [] (Re.re_compile "file: (features.*feature)").

(** The command line [get_owner] runs. *)
Definition owner_command (E : env) (ascript testid : string) : string :=
  "egrep -B 1 " +:+ testid +:+ " "
  +:+ (default "None" (BUSHSLICER_HOME E) +:+ "/" +:+ ascript)
  +:+ " | grep author".

(** No entry of the report other than [version] is a version string. *)
Definition well_formed (r : report) : Prop :=
  ∀ k v, r !! k = Some (Version v) → k = "version".

(** The text after the last occurrence of [sep] in [s], in the words of
    the spec; [None] when [sep] does not occur. *)
Fixpoint text_after_last (sep s : list ascii) : option (list ascii) :=
  match s with
  | [] => None
  | c :: s' =>
      match text_after_last sep s' with
      | Some t => Some t
      | None =>
          if decide (sep `prefix_of` s) then Some (drop (length sep) s) else None
      end
  end.

(** Lines 189 and 190 of [main]: a finder of its own classifies one
    record; the result is read as soon as it is returned. *)
Definition classify (E : env) (body : class_body) (test_info : attrs) : M (list string) :=
  issue_finder <- new_IssuesFinder ;;
  issues <- find_issues E body issue_finder test_info ;;
  read_list issues.

(** Two classifications, each with a finder of its own. *)
Definition classify_twice (E : env) (body : class_body) (test_info : attrs)
    : M (list string * list string) :=
  first <- classify E body test_info ;;
  second <- classify E body test_info ;;
  ret (first, second).

(** Two calls of [find_issues] on one finder.  Each result is read when it
    is returned, and the first one once more at the end. *)
Definition find_issues_twice (E : env) (body : class_body) (test_info : attrs)
    : M (list string * list string * list string) :=
  issue_finder <- new_IssuesFinder ;;
  issues1 <- find_issues E body issue_finder test_info ;;
  first <- read_list issues1 ;;
  issues2 <- find_issues E body issue_finder test_info ;;
  second <- read_list issues2 ;;
  first_again <- read_list issues1 ;;
  ret (first, second, first_again).

(** The descriptions of the rules that match, in the order the rules are
    written in the class body: the registration order of the spec. *)
Definition matched_in_definition_order (body : class_body) (log : string) : list string :=
  omap (λ '(name, m),
          if Str.startswith "issue_" name then
            match call m log with
            | Ok (Some d) => Some d
            | _ => None
            end
          else None) body.

(** ** Sample inputs *)

Definition nl : string := String Str.LF EmptyString.

(** A log with the three lines of the registered rule, out of order. *)
Definition log_hit : string :=
  "RuntimeError: error getting projects by user (RuntimeError)" +:+ nl
  +:+ "the server is currently unable to handle the request (get projects.project.openshift.io)"
  +:+ nl +:+ "      === After Scenario: cleanup ===" +:+ nl.

(** The same log without its last line. *)
Definition log_miss : string :=
  "RuntimeError: error getting projects by user (RuntimeError)" +:+ nl
  +:+ "the server is currently unable to handle the request (get projects.project.openshift.io)"
  +:+ nl.

Definition sample_record : test_record :=
  {| result_status := "Failed";
     comment_content := "console log: http://logs.example/T1";
     test_case_id := "T1";
     customFields_Custom :=
       [ {| key := "caseautomation"; value_content := "automated" |};
         {| key := "automation_script";
            value_content := "file: features/cli/a.feature" +:+ nl |} ] |}.

(** The same record without the field [automation_script]. *)
Definition record_without_script : test_record :=
  {| result_status := "Failed";
     comment_content := "console log: http://logs.example/T1";
     test_case_id := "T1";
     customFields_Custom :=
       [ {| key := "caseautomation"; value_content := "automated" |} ] |}.

Definition sample_run : testrun :=
  {| title := "Nightly 4.14 - aws-ipi"; records_TestRecord := [sample_record] |}.

(** A world where every log is [log_hit] and no owner is found. *)
Definition E_hit : env :=
  {| urlopen_read := λ _ _, Ok log_hit;
     check_output := λ _, Raise CalledProcessError;
     BUSHSLICER_HOME := Some "/opt/bushslicer";
     get_testrun_json := λ _, Ok sample_run |}.

(** A world where every transfer is cut short. *)
Definition E_truncated : env :=
  {| urlopen_read := λ _ _, Raise IncompleteRead;
     check_output := λ _, Raise CalledProcessError;
     BUSHSLICER_HOME := Some "/opt/bushslicer";
     get_testrun_json := λ _, Ok sample_run |}.

(** A world where the author of every script is [version@redhat.com]. *)
Definition E_version : env :=
  {| urlopen_read := λ _ _, Ok log_miss;
     check_output := λ _, Ok ("  # @author version@redhat.com" +:+ nl);
     BUSHSLICER_HOME := Some "/opt/bushslicer";
     get_testrun_json := λ _, Ok sample_run |}.

Definition st0 : state :=
  {| requests := []; store := ∅; report_struct := ∅ |}.

Definition sample_attrs : attrs :=
  {| case := "T1"; logs := Some "http://logs.example/T1";
     profile := "aws-ipi"; known_issues := None |}.

Definition other_attrs : attrs :=
  {| case := "T1"; logs := Some "http://logs.example/T1-rerun";
     profile := "gcp-upi"; known_issues := None |}.

Definition sample_args : args :=
  {| runs := Some ["20210909-0851"]; output := "./20210909.json"; version := "4.14" |}.

(** A class whose second rule comes first in the alphabet. *)
Definition two_rules : class_body :=
  [ ("issue_b", Rule (λ _, Ok (Some "B")));
    ("issue_a", Rule (λ _, Ok (Some "A"))) ].

(** ** Vocabulary of the further properties *)

(** [sub] is found in [s], both strings. *)
Definition contains (sub s : string) : Prop :=
  ∃ a b, s = a +:+ sub +:+ b.

(** What a match of [r] on [s] from offset [pos] is, without regard to
    which match the search prefers: the characters each node takes and the
    spans the groups get. *)
Fixpoint accepts (r : Re.regex) (s : list ascii) (pos : nat) (cs cs' : Re.caps) : Prop :=
  match r with
  | [] => cs' = cs
  | Re.One a :: r' =>
      ∃ c s', s = c :: s' ∧ Re.atom_matches a c = true
              ∧ accepts r' s' (S pos) cs cs'
  | Re.Star a :: r' =>
      ∃ w s', s = w ++ s' ∧ Forall (λ c, Re.atom_matches a c = true) w
              ∧ accepts r' s' (pos + length w) cs cs'
  | Re.Open g :: r' =>
      accepts r' s pos (Re.mkCaps (<[g := pos]> (Re.starts cs)) (Re.ends cs)) cs'
  | Re.Close g :: r' =>
      accepts r' s pos (Re.mkCaps (Re.starts cs) (<[g := pos]> (Re.ends cs))) cs'
  | Re.Eos :: r' => Re.at_eos s = true ∧ accepts r' s pos cs cs'
  end.

(** The characters of [s] up to the end of its first line. *)
Fixpoint line_prefix (s : list ascii) : list ascii :=
  match s with
  | c :: s' => if Ascii.eqb c Str.LF then [] else c :: line_prefix s'
  | [] => []
  end.

(** The first place where [http] stands in [s], with the rest of its
    line. *)
Fixpoint first_link (s : list ascii) : option (list ascii) :=
  match s with
  | [] => None
  | c :: s' =>
      if decide (Str.to_list "http" `prefix_of` s) then Some (line_prefix s)
      else first_link s'
  end.

(** Do the atoms match the first characters of [s], one for one? *)
Fixpoint atoms_match (atoms : list Re.atom) (s : list ascii) : bool :=
  match atoms, s with
  | [], _ => true
  | a :: atoms', c :: s' => Re.atom_matches a c && atoms_match atoms' s'
  | _ :: _, [] => false
  end.

(** The entry of [owner] as a dictionary of scripts, empty when there is
    none, and the cases of one script in it. *)
Definition scripts_of (r : report) (owner : string) : gmap string (gmap string attrs) :=
  match r !! owner with
  | Some (Scripts by_script) => by_script
  | _ => ∅
  end.

Definition cases_of (r : report) (owner automation_script : string) : gmap string attrs :=
  default ∅ (scripts_of r owner !! automation_script).

(** The insert of the spec: the three levels are made when they are not
    there and the record is put at its path. *)
Definition nested_insert (owner automation_script id : string) (a : attrs)
    (r : report) : report :=
  <[owner := Scripts (<[automation_script :=
                          <[id := a]> (cases_of r owner automation_script)]>
                        (scripts_of r owner))]> r.

(** The entry of [owner] is a version string that is not empty. *)
Definition holds_version (r : report) (owner : string) : Prop :=
  ∃ v, r !! owner = Some (Version v) ∧ v ≠ EmptyString.

#[global] Instance holds_version_dec r owner : Decision (holds_version r owner).
Proof.
  unfold holds_version. destruct (r !! owner) as [[v|bs]|].
  - destruct (decide (v = EmptyString)) as [->|Hv].
    + right. intros (v' & [= <-] & Hne). done.
    + left. eauto.
  - right. intros (v' & [=] & _).
  - right. intros (v' & [=] & _).
Defined.

(** The records of a run that [main] looks at. *)
Definition failed (record : test_record) : Prop :=
  result_status record = "Failed".

#[global] Instance failed_dec record : Decision (failed record).
Proof. unfold failed. apply _. Defined.

(** Every record of the report is filed under its own case. *)
Definition filed_by_case (r : report) : Prop :=
  ∀ owner script id a, report_lookup r owner script id = Some a → case a = id.

(** The pattern of [get_link_to_log], compiled. *)
Definition link_regex : Re.regex :=
  Eval vm_compute in default [] (Re.re_compile "(http.*)").

Definition http : list ascii := Str.to_list "http".

(** The pattern of [get_owner], compiled. *)
Definition owner_regex : Re.regex :=
  Eval vm_compute in default [] (Re.re_compile "author\s*(.*)@redhat.com").

(** A character that stands for itself in a pattern. *)
Definition plain (c : ascii) : bool :=
  match c with
  | "\" | "." | "*" | "(" | ")" | "$" | "^" | "[" | "]" | "{" | "}" | "|"
  | "+" | "?" => false
  | _ => true
  end%char.

(** The second pattern of the registered rule, compiled, as atoms. *)
Definition server_atoms : list Re.atom :=
  Eval vm_compute in
    omap (λ n, match n with Re.One a => Some a | _ => None end)
      (default [] (Re.re_compile
         "the server is currently unable to handle the request \(get projects.project.openshift.io\)")).

(** The texts the second pattern of the registered rule matches: its three
    dots stand for [c1], [c2] and [c3]. *)
Definition server_chars (c1 c2 c3 : ascii) : list ascii :=
  Str.to_list "the server is currently unable to handle the request (get projects"
  ++ c1 :: Str.to_list "project" ++ c2 :: Str.to_list "openshift"
  ++ c3 :: Str.to_list "io)".

Definition server_text (c1 c2 c3 : ascii) : string :=
  Str.of_list (server_chars c1 c2 c3).

(** ** More sample inputs *)

(** A world where the log is not there: the first transfer is cut short,
    the second is refused. *)
Definition E_refused : env :=
  {| urlopen_read := λ hist _,
       match hist with
       | [] => Raise IncompleteRead
       | _ => Raise (ExternalError "HTTPError")
       end;
     check_output := λ _, Raise CalledProcessError;
     BUSHSLICER_HOME := Some "/opt/bushslicer";
     get_testrun_json := λ _, Ok sample_run |}.

(** A class whose second rule, by name, raises. *)
Definition three_rules : class_body :=
  [ ("issue_a", Rule (λ _, Ok (Some "A")));
    ("issue_b", Rule (λ _, Raise (ExternalError "ValueError")));
    ("issue_c", Rule (λ _, Ok (Some "C"))) ].

(** A record that passed. *)
Definition passed_record : test_record :=
  {| result_status := "Passed";
     comment_content := "console log: http://logs.example/T2";
     test_case_id := "T2";
     customFields_Custom := [] |}.

(** ** The loops of [match_ordered_strings], whatever [re.search] does

    Lines 53 to 63 once more, with [re.search] a parameter: [search target
    line] is what the call [re.search(target, line)] does, in any pattern
    language.  At [Re.re_search] these are [find_target], [targets_loop]
    and [match_ordered_strings] above. *)

Section AnySearch.

Context (search : string → string → result (option (list string))).

Fixpoint find_target_with (target : string) (lines : list string) : result bool :=
  match lines with
  | [] => Ok false
  | line :: rest =>
      match search target line with
      | Ok (Some _) => Ok true
      | Ok None => find_target_with target rest
      | Raise e => Raise e
      end
  end.

Fixpoint targets_loop_with (lines : list string) (targets : list string)
    (found_all : gset bool) : result (gset bool) :=
  match targets with
  | [] => Ok found_all
  | target :: rest =>
      match find_target_with target lines with
      | Ok found => targets_loop_with lines rest ({[found]} ∪ found_all)
      | Raise e => Raise e
      end
  end.

Definition match_ordered_strings_with (log : string) (targets : list string)
    : result bool :=
  match targets_loop_with (Str.splitlines log) targets ∅ with
  | Ok found_all => Ok (all found_all)
  | Raise e => Raise e
  end.

(** [target] matches [line]: the search returns a match object. *)
Definition line_matches_with (target line : string) : Prop :=
  ∃ gs, search target line = Ok (Some gs).

(** [target] is found on some line of [log]. *)
Definition found_with (target log : string) : Prop :=
  Exists (line_matches_with target) (Str.splitlines log).

#[global] Instance line_matches_with_dec target line :
  Decision (line_matches_with target line).
Proof.
  unfold line_matches_with.
  destruct (search target line) as [[gs|]|e];
    [left; eauto | right; intros [? ?]; discriminate..].
Defined.

End AnySearch.

(** The call returns: it does not raise. *)
Definition returns {A} (r : result A) : Prop :=
  match r with
  | Ok _ => True
  | Raise _ => False
  end.

#[global] Instance returns_dec {A} (r : result A) : Decision (returns r).
Proof. destruct r; simpl; apply _. Defined.

(** A world where the author of every script has an address of another
    domain, and every log is [log_miss]. *)
Definition E_other_domain : env :=
  {| urlopen_read := λ _ _, Ok log_miss;
     check_output := λ _, Ok ("  # @author alice@example.com" +:+ nl);
     BUSHSLICER_HOME := Some "/opt/bushslicer";
     get_testrun_json := λ _, Ok sample_run |}.

(** A run whose title has a line feed before its last separator. *)
Definition two_line_run : testrun :=
  {| title := "release" +:+ nl +:+ "4.14 - aws-ipi";
     records_TestRecord := [sample_record] |}.
(** * Properties *)

(** ** Matching the targets of a rule *)


Lemma re_search_compiled target r text :
  Re.re_compile target = Some r →
  Re.re_search target text = Ok (Re.search_regex r text).
Proof. intros Hc. unfold Re.re_search. by rewrite Hc. Qed.

Lemma find_target_spec target lines :
  is_Some (Re.re_compile target) →
  ∃ found, find_target target lines = Ok found
           ∧ (found = true ↔ Exists (line_matches target) lines).
Proof.
  intros [r Hr]. induction lines as [|line rest IH]; simpl.
  - exists false. split; [done|]. split; [done|]. by intros ?%Exists_nil.
  - rewrite (re_search_compiled _ _ _ Hr).
    destruct (Re.search_regex r line) as [gs|] eqn:Hs.
    + exists true. split; [done|]. split; [|done]. intros _.
      apply Exists_cons_hd. exists gs.
      by rewrite (re_search_compiled _ _ _ Hr), Hs.
    + destruct IH as (found & -> & Hfound). exists found. split; [done|].
      rewrite Hfound. split; [by apply Exists_cons_tl|].
      intros [[gs Hgs]|?]%Exists_cons; [|done].
      rewrite (re_search_compiled _ _ _ Hr), Hs in Hgs. discriminate.
Qed.

Lemma targets_loop_spec lines targets found_all :
  Forall (λ t, is_Some (Re.re_compile t)) targets →
  ∃ flags, targets_loop lines targets found_all = Ok flags
           ∧ (false ∈ flags ↔
              false ∈ found_all
              ∨ Exists (λ t, ¬ Exists (line_matches t) lines) targets).
Proof.
  intros Hall. revert found_all.
  induction Hall as [|t rest Ht _ IH]; intros found_all; simpl.
  - exists found_all. split; [done|]. rewrite Exists_nil. tauto.
  - destruct (find_target_spec t lines Ht) as (found & -> & Hfound).
    destruct (IH ({[found]} ∪ found_all)) as (flags & -> & Hflags).
    exists flags. split; [done|]. rewrite Hflags, Exists_cons.
    rewrite elem_of_union, elem_of_singleton.
    destruct found.
    + assert (Exists (line_matches t) lines) by by apply Hfound.
      split; [intros [[?|?]|?]|intros [?|[?|?]]]; try done; auto.
    + assert (¬ Exists (line_matches t) lines).
      { intros ?%Hfound. discriminate. }
      split; [intros [[?|?]|?]|intros [?|[?|?]]]; auto.
Qed.

Lemma match_ordered_strings_spec log targets :
  Forall (λ t, is_Some (Re.re_compile t)) targets →
  ∃ b, match_ordered_strings log targets = Ok b
       ∧ (b = true ↔ Forall (λ t, found_in t log) targets).
Proof.
  intros Hall. unfold match_ordered_strings.
  destruct (targets_loop_spec (Str.splitlines log) targets ∅ Hall)
    as (flags & -> & Hflags).
  eexists. split; [done|]. unfold all. rewrite bool_decide_eq_true, Hflags.
  rewrite elem_of_empty. unfold found_in. split.
  - intros Hno. apply Forall_forall. intros t Ht.
    destruct (decide (Exists (line_matches t) (Str.splitlines log))) as [|Hn];
      [done|].
    + exfalso. apply Hno. right. apply Exists_exists. eauto.
  - intros Hyes [[]|(t & Ht & Hn)%Exists_exists].
    rewrite Forall_forall in Hyes. auto.
Qed.

(** ** The log fetcher *)


Lemma sent_0 url st : sent 0 url st = st.
Proof. destruct st. unfold sent. simpl. by rewrite app_nil_r. Qed.

Lemma sent_S n url st :
  sent n url {| requests := requests st ++ [url];
                store := store st;
                report_struct := report_struct st |} = sent (S n) url st.
Proof. unfold sent. simpl. by rewrite <- app_assoc. Qed.

Lemma attempt_S E url st k :
  attempt E url {| requests := requests st ++ [url];
                   store := store st;
                   report_struct := report_struct st |} k
  = attempt E url st (S k).
Proof. unfold attempt. simpl. by rewrite <- app_assoc. Qed.

Lemma attempt_0 E url st : attempt E url st 0 = urlopen_read E (requests st) url.
Proof. unfold attempt. simpl. by rewrite app_nil_r. Qed.

Lemma fetch_attempts_sent E url range content st :
  ∃ n, n ≤ length range
       ∧ snd (fetch_attempts E url range content st) = sent n url st.
Proof.
  revert st. induction range as [|i rest IH]; intros st; simpl.
  - exists 0. by rewrite sent_0.
  - destruct (urlopen_read E (requests st) url) as [text|e].
    + exists 1. split; [lia|]. simpl. by rewrite <- sent_S, sent_0.
    + destruct e;
        try (exists 1; split; [lia|]; simpl; by rewrite <- sent_S, sent_0).
      destruct (IH {| requests := requests st ++ [url];
                      store := store st;
                      report_struct := report_struct st |}) as (n & Hn & ->).
      exists (S n). split; [lia|]. apply sent_S.
Qed.

Lemma fetch_attempts_truncated E url range content st :
  (∀ k, k < length range → attempt E url st k = Raise IncompleteRead) →
  fetch_attempts E url range content st
  = (Ok content, sent (length range) url st).
Proof.
  revert st. induction range as [|i rest IH]; intros st Hall; simpl.
  - by rewrite sent_0.
  - rewrite <- attempt_0, (Hall 0) by (simpl; lia).
    rewrite IH; [by rewrite sent_S|].
    intros k Hk. rewrite attempt_S. apply Hall. simpl. lia.
Qed.

Lemma fetch_attempts_settled E url range content st k r :
  k < length range →
  (∀ j, j < k → attempt E url st j = Raise IncompleteRead) →
  attempt E url st k = r →
  r ≠ Raise IncompleteRead →
  fetch_attempts E url range content st
  = (match r with Ok text => Ok (Some text) | Raise e => Raise e end,
     sent (S k) url st).
Proof.
  revert st k. induction range as [|i rest IH]; intros st k Hk Hbefore Hr Hne;
    simpl in *; [lia|].
  destruct k as [|k].
  - rewrite attempt_0 in Hr. rewrite Hr, <- sent_S, sent_0.
    destruct r as [text|e]; [done|]. by destruct e.
  - rewrite <- attempt_0, (Hbefore 0) by lia.
    rewrite (IH _ k); [by rewrite sent_S|lia| |by rewrite attempt_S|done].
    intros j Hj. rewrite attempt_S. apply Hbefore. lia.
Qed.

Lemma get_file_from_url_truncated E url st :
  (∀ k, k < 3 → attempt E url st k = Raise IncompleteRead) →
  get_file_from_url E url st
  = (Raise (UnboundLocalError "content"), sent 3 url st).
Proof.
  intros Hall. unfold get_file_from_url, bind.
  by rewrite fetch_attempts_truncated.
Qed.

Lemma get_file_from_url_settled E url st k r :
  k < 3 →
  (∀ j, j < k → attempt E url st j = Raise IncompleteRead) →
  attempt E url st k = r →
  r ≠ Raise IncompleteRead →
  get_file_from_url E url st = (r, sent (S k) url st).
Proof.
  intros Hk Hbefore Hr Hne. unfold get_file_from_url, bind.
  rewrite (fetch_attempts_settled _ _ _ _ _ k r) by done.
  by destruct r.
Qed.

Lemma get_file_from_url_sent E url st :
  ∃ n, n ≤ 3 ∧ snd (get_file_from_url E url st) = sent n url st.
Proof.
  destruct (fetch_attempts_sent E url (seq 0 3) None st) as (n & Hn & Hs).
  exists n. split; [done|]. unfold get_file_from_url, bind.
  destruct (fetch_attempts E url (seq 0 3) None st) as [[[text|]|e] st'];
    simpl in *; done.
Qed.

(** ** The classifier *)

Lemma contents_list_append st l x :
  contents (snd (list_append l x st)) l = contents st l ++ [x].
Proof. unfold contents. simpl. by rewrite lookup_insert_eq. Qed.

Lemma run_issue_methods_spec self log methods results st :
  (λ m, call m log) <$> methods = Ok <$> results →
  ∃ st', run_issue_methods self log methods st = (Ok tt, st')
         ∧ contents st' (issues_found self)
           = contents st (issues_found self) ++ matched results
         ∧ (∀ l, l ≠ issues_found self → store st' !! l = store st !! l)
         ∧ requests st' = requests st
         ∧ report_struct st' = report_struct st.
Proof.
  revert results st.
  induction methods as [|m rest IH]; intros results st Hres.
  - destruct results; [|done]. exists st. simpl.
    unfold matched. simpl. by rewrite app_nil_r.
  - destruct results as [|res results]; [done|].
    simpl in Hres. injection Hres as Hm Hrest.
    cbn [run_issue_methods]. unfold bind at 1, lift. rewrite Hm.
    unfold bind at 1.
    destruct res as [k|].
    + cbn [list_append].
      destruct (IH results (snd (list_append (issues_found self) k st)) Hrest)
        as (st' & Hrun & Hc & Hother & Hreq & Hrep).
      exists st'. split; [exact Hrun|]. split; [|split; [|done]].
      * rewrite Hc, contents_list_append. unfold matched. simpl.
        by rewrite <- app_assoc.
      * intros l Hl. rewrite Hother by done. simpl.
        by rewrite lookup_insert_ne.
    + destruct (IH results st Hrest) as (st' & Hrun & Hc & Hother & Hreq & Hrep).
      exists st'. done.
Qed.

Lemma find_issues_spec E body self test_info url log st st1 results :
  logs test_info = Some url →
  get_file_from_url E url st = (Ok log, st1) →
  (λ m, call m log) <$> get_issue_methods body = Ok <$> results →
  ∃ st2, find_issues E body self test_info st = (Ok (issues_found self), st2)
         ∧ contents st2 (issues_found self)
           = contents st (issues_found self) ++ matched results
         ∧ (∀ l, l ≠ issues_found self → store st2 !! l = store st !! l)
         ∧ requests st2 = requests st1
         ∧ report_struct st2 = report_struct st.
Proof.
  intros Hlogs Hfetch Hres. unfold find_issues. rewrite Hlogs.
  unfold bind at 1. unfold bind at 1. rewrite Hfetch.
  destruct (run_issue_methods_spec self log _ results st1 Hres)
    as (st2 & -> & Hc & Hother & Hreq & Hrep).
  destruct (get_file_from_url_sent E url st) as (n & _ & Hsent).
  rewrite Hfetch in Hsent. simpl in Hsent. subst st1.
  exists st2. split; [done|]. done.
Qed.

Lemma find_issues_no_logs E body self test_info st :
  logs test_info = None →
  find_issues E body self test_info st = (Ok (issues_found self), st).
Proof. intros Hlogs. unfold find_issues. by rewrite Hlogs. Qed.

(** The names of the rules: in ascending order, each once. *)

Lemma StronglySorted_filter {A} (R : relation A) (P : A → Prop)
    `{∀ x, Decision (P x)} (l : list A) :
  StronglySorted R l → StronglySorted R (filter P l).
Proof.
  induction 1 as [|x l Hl IH Hx]; [constructor|].
  rewrite filter_cons. destruct (decide (P x)); [|done].
  constructor; [done|].
  apply Forall_forall. intros y [_ Hy]%list_elem_of_filter.
  by eapply Forall_forall in Hx.
Qed.

Lemma dir_sorted body : StronglySorted String.le (dir body).
Proof. apply StronglySorted_merge_sort; apply _. Qed.

Lemma dir_NoDup body : NoDup (dir body).
Proof.
  unfold dir. rewrite merge_sort_Permutation. apply NoDup_fst_map_to_list.
Qed.

Lemma elem_of_dir body name :
  name ∈ dir body ↔ name = "issues_found" ∨ name ∈ body.*1.
Proof.
  unfold dir. rewrite merge_sort_Permutation, list_elem_of_fmap.
  split.
  - intros ([n a] & -> & Hin%elem_of_map_to_list). simpl.
    unfold namespace in Hin.
    destruct (decide (n = "issues_found")) as [|Hne]; [by left|right].
    rewrite lookup_insert_ne in Hin by done.
    apply elem_of_list_to_map_2 in Hin. rewrite elem_of_reverse in Hin.
    apply list_elem_of_fmap. exists (n, a). by split.
  - intros Hname.
    assert (is_Some (namespace body !! name)) as [a Ha].
    { unfold namespace.
      destruct (decide (name = "issues_found")) as [->|Hne].
      - rewrite lookup_insert_eq. eauto.
      - rewrite lookup_insert_ne by done.
        destruct Hname as [|Hin]; [done|].
        destruct (list_to_map (reverse body) !! name) as [a|] eqn:Hl; [eauto|].
        apply not_elem_of_list_to_map in Hl. rewrite fmap_reverse in Hl.
        by rewrite elem_of_reverse in Hl. }
    exists (name, a). split; [done|]. by apply elem_of_map_to_list.
Qed.

Lemma issue_names_sorted body : StronglySorted String.le (issue_names body).
Proof. apply StronglySorted_filter, dir_sorted. Qed.

Lemma issue_names_NoDup body : NoDup (issue_names body).
Proof. apply NoDup_filter, dir_NoDup. Qed.

Lemma elem_of_issue_names body name :
  name ∈ issue_names body
  ↔ Str.startswith "issue_" name = true ∧ name ∈ body.*1.
Proof.
  unfold issue_names. rewrite list_elem_of_filter, elem_of_dir.
  split; [|by intros [? ?]; auto].
  intros [Hp [->|Hin]]; [|done]. by vm_compute in Hp.
Qed.

(** ** The aggregation *)

Lemma truthy_false {V} (d : gmap string V) : truthy d = false → d = ∅.
Proof.
  unfold truthy. intros Hd%bool_decide_eq_false.
  destruct (decide (d = ∅)); [done|]. by destruct Hd.
Qed.

(** An insert that finds no version string under [owner] succeeds, puts
    the record at its path and leaves every other path as it was. *)
Lemma report_insert_spec owner script id a r :
  (∀ v, r !! owner = Some (Version v) → v = EmptyString) →
  ∃ r', report_insert owner script id a r = Ok r'
        ∧ report_lookup r' owner script id = Some a
        ∧ (∀ o s i, (o, s, i) ≠ (owner, script, id) →
             report_lookup r' o s i = report_lookup r o s i)
        ∧ (∀ k, k ≠ owner → r' !! k = r !! k)
        ∧ (∃ by_script, r' !! owner = Some (Scripts by_script)).
Proof.
  intros Hversion. unfold report_insert.
  destruct (r !! owner) as [[v|by_script]|] eqn:Hr.
  - rewrite (Hversion v eq_refl). simpl.
    eexists. split; [done|]. unfold report_lookup.
    rewrite lookup_insert_eq, lookup_singleton_eq. simpl.
    rewrite lookup_singleton_eq.
    split; [done|]. split; [|split; [intros; by rewrite lookup_insert_ne|eauto]].
    intros o s i Hne. destruct (decide (o = owner)) as [->|Ho].
    + rewrite lookup_insert_eq, Hr.
      destruct (decide (s = script)) as [->|Hs].
      * rewrite lookup_singleton_eq. simpl. rewrite lookup_singleton_ne; [done|].
        congruence.
      * by rewrite lookup_singleton_ne.
    + by rewrite lookup_insert_ne.
  - destruct (truthy by_script) eqn:Hts.
    + destruct (by_script !! script) as [by_case|] eqn:Hbs.
      * assert (∃ by_case', (if truthy by_case
                 then match by_case !! id with
                      | Some _ | None =>
                          Ok (<[owner := Scripts (<[script := <[id := a]> by_case]> by_script)]> r)
                      end
                 else Ok (<[owner := Scripts (<[script := {[id := a]}]> by_script)]> r))
                = Ok (<[owner := Scripts (<[script := by_case']> by_script)]> r)
                ∧ by_case' !! id = Some a
                ∧ ∀ i, i ≠ id → by_case' !! i = by_case !! i)
          as (by_case' & -> & Hid & Hi).
        { destruct (truthy by_case) eqn:Htc.
          - exists (<[id := a]> by_case). split; [by destruct (by_case !! id)|].
            split; [by rewrite lookup_insert_eq|].
            intros i Hi. by rewrite lookup_insert_ne.
          - exists {[id := a]}. split; [done|].
            split; [by rewrite lookup_singleton_eq|].
            intros i Hi. rewrite (truthy_false _ Htc).
            by rewrite lookup_singleton_ne. }
        eexists. split; [done|]. unfold report_lookup.
        rewrite lookup_insert_eq, lookup_insert_eq. simpl.
        split; [done|]. split; [|split; [intros; by rewrite lookup_insert_ne|eauto]].
        intros o s i Hne. destruct (decide (o = owner)) as [->|Ho].
        -- rewrite lookup_insert_eq, Hr.
           destruct (decide (s = script)) as [->|Hs].
           ++ rewrite lookup_insert_eq, Hbs. simpl. apply Hi. congruence.
           ++ by rewrite lookup_insert_ne.
        -- by rewrite lookup_insert_ne.
      * eexists. split; [done|]. unfold report_lookup.
        rewrite lookup_insert_eq, lookup_insert_eq. simpl.
        rewrite lookup_singleton_eq.
        split; [done|]. split; [|split; [intros; by rewrite lookup_insert_ne|eauto]].
        intros o s i Hne. destruct (decide (o = owner)) as [->|Ho].
        -- rewrite lookup_insert_eq, Hr.
           destruct (decide (s = script)) as [->|Hs].
           ++ rewrite lookup_insert_eq, Hbs. simpl.
              rewrite lookup_singleton_ne; [done|]. congruence.
           ++ by rewrite lookup_insert_ne.
        -- by rewrite lookup_insert_ne.
    + apply truthy_false in Hts. subst by_script.
      eexists. split; [done|]. unfold report_lookup.
      rewrite lookup_insert_eq, lookup_singleton_eq. simpl.
      rewrite lookup_singleton_eq.
      split; [done|]. split; [|split; [intros; by rewrite lookup_insert_ne|eauto]].
      intros o s i Hne. destruct (decide (o = owner)) as [->|Ho].
      * rewrite lookup_insert_eq, Hr, lookup_empty. simpl.
        destruct (decide (s = script)) as [->|Hs].
        -- rewrite lookup_singleton_eq. simpl. rewrite lookup_singleton_ne; [done|].
           congruence.
        -- by rewrite lookup_singleton_ne.
      * by rewrite lookup_insert_ne.
  - eexists. split; [done|]. unfold report_lookup.
    rewrite lookup_insert_eq, lookup_singleton_eq. simpl.
    rewrite lookup_singleton_eq.
    split; [done|]. split; [|split; [intros; by rewrite lookup_insert_ne|eauto]].
    intros o s i Hne. destruct (decide (o = owner)) as [->|Ho].
    + rewrite lookup_insert_eq, Hr.
      destruct (decide (s = script)) as [->|Hs].
      * rewrite lookup_singleton_eq. simpl. rewrite lookup_singleton_ne; [done|].
        congruence.
      * by rewrite lookup_singleton_ne.
    + by rewrite lookup_insert_ne.
Qed.

(** ** The patterns of the program *)

Ltac solve_length :=
  repeat (progress (rewrite ?length_app; simpl)); lia.

Lemma to_list_app a b : Str.to_list (a +:+ b) = Str.to_list a ++ Str.to_list b.
Proof.
  induction a as [|c a IH]; [done|].
  change (String c a +:+ b) with (String c (a +:+ b)). simpl. by rewrite IH.
Qed.

Lemma length_to_list a : length (Str.to_list a) = String.length a.
Proof. induction a as [|c a IH]; simpl; [done|]. by rewrite IH. Qed.

Lemma match_here_star_cons a r c s pos cs :
  Re.match_here (Re.Star a :: r) (c :: s) pos cs
  = if Re.atom_matches a c then
      match Re.match_here (Re.Star a :: r) s (S pos) cs with
      | Some m => Some m
      | None => Re.match_here r (c :: s) pos cs
      end
    else Re.match_here r (c :: s) pos cs.
Proof. reflexivity. Qed.

Lemma match_here_star_nil a r pos cs :
  Re.match_here (Re.Star a :: r) [] pos cs = Re.match_here r [] pos cs.
Proof. reflexivity. Qed.

Lemma dot_matches c : c ≠ Str.LF → Re.atom_matches Re.Dot c = true.
Proof. intros Hc. simpl. by apply negb_true_iff, Ascii.eqb_neq. Qed.

(** A greedy [.*] before the end of the pattern takes a whole line. *)
Lemma star_dot_to_end g s pos cs :
  Str.LF ∉ s →
  Re.match_here [Re.Star Re.Dot; Re.Close g; Re.Eos] s pos cs
  = Some (Re.mkCaps (Re.starts cs) (<[g := pos + length s]> (Re.ends cs))).
Proof.
  revert pos. induction s as [|c s IH]; intros pos Hlf.
  - simpl. by rewrite Nat.add_0_r.
  - apply not_elem_of_cons in Hlf as [Hc Hlf].
    rewrite match_here_star_cons, dot_matches, IH by done.
    simpl. do 3 f_equal. lia.
Qed.

Lemma profile_regex_cons c t pos cs :
  Re.match_here profile_regex (c :: t) pos cs
  = if Re.atom_matches Re.Dot c then
      match Re.match_here profile_regex t (S pos) cs with
      | Some m => Some m
      | None => Re.match_here (tail profile_regex) (c :: t) pos cs
      end
    else Re.match_here (tail profile_regex) (c :: t) pos cs.
Proof. reflexivity. Qed.

(** Without the separator at its head, the rest of the pattern fails. *)
Lemma separator_not_here t pos cs :
  (∀ b, t ≠ separator ++ b) →
  Re.match_here (tail profile_regex) t pos cs = None.
Proof.
  intros Hno. unfold profile_regex.
  destruct t as [|c1 [|c2 [|c3 b]]];
    cbn [Re.match_here Re.atom_matches tail]; try done.
  - by destruct (Ascii.eqb " " c1).
  - destruct (Ascii.eqb " " c1); [|done]. by destruct (Ascii.eqb "-" c2).
  - destruct (Ascii.eqb_spec " " c1) as [<-|]; [|done].
    destruct (Ascii.eqb_spec "-" c2) as [<-|]; [|done].
    destruct (Ascii.eqb_spec " " c3) as [<-|]; [|done].
    by destruct (Hno b).
Qed.

Lemma occurs_cons sep c t : occurs sep t → occurs sep (c :: t).
Proof. intros (a & b & ->). by exists (c :: a), b. Qed.

Lemma occurs_here sep b : occurs sep (sep ++ b).
Proof. by exists [], b. Qed.

(** Without the separator anywhere, the pattern fails where it stands. *)
Lemma profile_regex_no_separator t pos cs :
  ¬ occurs separator t → Re.match_here profile_regex t pos cs = None.
Proof.
  revert pos. induction t as [|c t IH]; intros pos Hno.
  - done.
  - rewrite profile_regex_cons.
    rewrite IH by (intros ?; by apply Hno, occurs_cons).
    rewrite separator_not_here; [by destruct (Re.atom_matches _ _)|].
    intros b Hb. apply Hno. rewrite Hb. apply occurs_here.
Qed.

Lemma search_from_eq r s pos :
  Re.search_from r s pos
  = match Re.match_here r s pos Re.no_caps with
    | Some m => Some m
    | None => match s with
              | [] => None
              | _ :: s' => Re.search_from r s' (S pos)
              end
    end.
Proof. by destruct s. Qed.

Lemma search_from_no_separator t pos :
  ¬ occurs separator t → Re.search_from profile_regex t pos = None.
Proof.
  revert pos. induction t as [|c t IH]; intros pos Hno; rewrite search_from_eq.
  - by rewrite profile_regex_no_separator.
  - rewrite profile_regex_no_separator by done.
    apply IH. intros ?. by apply Hno, occurs_cons.
Qed.

Lemma separator_here suf pos cs :
  Re.match_here (tail profile_regex) (separator ++ suf) pos cs
  = Re.match_here [Re.Star Re.Dot; Re.Close 1; Re.Eos] suf (S (S (S pos)))
      (Re.mkCaps (<[1 := S (S (S pos))]> (Re.starts cs)) (Re.ends cs)).
Proof. reflexivity. Qed.

(** On a line, the pattern matches up to the last separator and the group
    is what follows it. *)
Lemma profile_regex_last_separator pre suf pos cs :
  Str.LF ∉ pre ++ separator ++ suf →
  ¬ occurs separator (tail (separator ++ suf)) →
  Re.match_here profile_regex (pre ++ separator ++ suf) pos cs
  = Some (Re.mkCaps (<[1 := pos + length pre + 3]> (Re.starts cs))
                    (<[1 := pos + length (pre ++ separator ++ suf)]> (Re.ends cs))).
Proof.
  intros Hlf Hlast. revert pos Hlf.
  induction pre as [|c pre IH]; intros pos Hlf.
  - change ([] ++ separator ++ suf) with (" "%char :: tail (separator ++ suf)).
    rewrite profile_regex_cons, profile_regex_no_separator by done.
    change (" "%char :: tail (separator ++ suf)) with (separator ++ suf).
    change (Re.atom_matches Re.Dot " ") with true. cbv iota.
    simpl in Hlf. repeat apply not_elem_of_cons in Hlf as [? Hlf].
    rewrite separator_here, star_dot_to_end by done.
    cbn [Re.starts Re.ends].
    f_equal; f_equal; (f_equal; solve_length).
  - change ((c :: pre) ++ separator ++ suf) with (c :: (pre ++ separator ++ suf)) in *.
    apply not_elem_of_cons in Hlf as [Hc Hlf].
    rewrite profile_regex_cons, dot_matches, IH by done.
    f_equal; f_equal; (f_equal; solve_length).
Qed.

Lemma of_list_app x y : Str.of_list (x ++ y) = Str.of_list x +:+ Str.of_list y.
Proof.
  induction x as [|c x IH]; [done|].
  change (Str.of_list (c :: x) +:+ Str.of_list y)
    with (String c (Str.of_list x +:+ Str.of_list y)).
  simpl. by rewrite IH.
Qed.

Lemma occurs_string sep t :
  occurs (Str.to_list sep) (Str.to_list t) ↔ ∃ a b, t = a +:+ sep +:+ b.
Proof.
  split.
  - intros (a & b & Ht). exists (Str.of_list a), (Str.of_list b).
    rewrite <- (String.string_of_list_ascii_of_string t), Ht.
    by rewrite !of_list_app, String.string_of_list_ascii_of_string.
  - intros (a & b & ->). exists (Str.to_list a), (Str.to_list b).
    by rewrite !to_list_app.
Qed.

Lemma profile_regex_compiled : Re.re_compile ".* - (.*)$" = Some profile_regex.
Proof. reflexivity. Qed.

Lemma slice_suffix (pre mid suf : list ascii) :
  Str.slice (length pre + length mid) (length (pre ++ mid ++ suf)) (pre ++ mid ++ suf)
  = suf.
Proof.
  unfold Str.slice. rewrite (app_assoc pre mid suf).
  rewrite drop_app_length' by (by rewrite length_app).
  apply take_ge. rewrite !length_app. lia.
Qed.

(** The profile of a one-line title is what follows its last separator. *)
Lemma run_profile_last_separator pre suf rs :
  Str.LF ∉ Str.to_list (pre +:+ " - " +:+ suf) →
  (∀ pre' suf', pre +:+ " - " +:+ suf = pre' +:+ " - " +:+ suf' →
                String.length pre' ≤ String.length pre) →
  run_profile {| title := pre +:+ " - " +:+ suf; records_TestRecord := rs |}
  = Ok suf.
Proof.
  intros Hlf Hlast. unfold run_profile. cbn [title].
  rewrite (re_search_compiled _ _ _ profile_regex_compiled).
  unfold Re.search_regex. rewrite !to_list_app in *.
  change (Str.to_list " - ") with separator in *.
  rewrite search_from_eq, profile_regex_last_separator; [|done|].
  - cbn [fmap option_fmap option_map first_group Re.groups_of Re.count_groups
         profile_regex seq list_fmap Re.starts Re.ends Re.no_caps].
    rewrite !lookup_insert_eq.
    change (0 + length (Str.to_list pre) + 3)
      with (length (Str.to_list pre) + length separator).
    rewrite Nat.add_0_l, slice_suffix. by rewrite String.string_of_list_ascii_of_string.
  - intros (a & b & Hab).
    assert (pre +:+ " - " +:+ suf
            = Str.of_list (Str.to_list pre ++ " "%char :: a) +:+ " - "
              +:+ Str.of_list b) as Heq.
    { rewrite <- (String.string_of_list_ascii_of_string (pre +:+ " - " +:+ suf)).
      rewrite !to_list_app.
      change (Str.to_list " - " ++ Str.to_list suf)
        with (" "%char :: tail (separator ++ Str.to_list suf)).
      rewrite Hab.
      change (" - ") with (Str.of_list separator).
      rewrite <- !of_list_app. f_equal. by rewrite <- app_assoc. }
    apply Hlast in Heq. rewrite <- !length_to_list in Heq.
    rewrite String.list_ascii_of_string_of_list_ascii, length_app in Heq.
    simpl in Heq. lia.
Qed.

(** A title without the separator has no profile. *)
Lemma run_profile_no_separator t rs :
  (∀ a b, t ≠ a +:+ " - " +:+ b) →
  run_profile {| title := t; records_TestRecord := rs |}
  = Raise (AttributeError "'NoneType' object has no attribute 'groups'").
Proof.
  intros Hno. unfold run_profile. cbn [title].
  rewrite (re_search_compiled _ _ _ profile_regex_compiled).
  unfold Re.search_regex. rewrite search_from_no_separator; [done|].
  change separator with (Str.to_list " - ").
  intros (a & b & Hab)%occurs_string. by destruct (Hno a b).
Qed.

(** A pattern that matches still matches when its end is cut off. *)
Lemma match_here_prefix r r2 s pos cs :
  is_Some (Re.match_here (r ++ r2) s pos cs) → is_Some (Re.match_here r s pos cs).
Proof.
  revert s pos cs. induction r as [|n r IH]; intros s pos cs; [by eauto|].
  destruct n as [a|a|g|g|]; cbn [app].
  - destruct s as [|c s]; cbn [Re.match_here]; [done|].
    destruct (Re.atom_matches a c); [apply IH|done].
  - revert pos. induction s as [|c s IHs]; intros pos.
    + rewrite !match_here_star_nil. apply IH.
    + rewrite !match_here_star_cons.
      destruct (Re.atom_matches a c); [|apply IH].
      destruct (Re.match_here (Re.Star a :: r ++ r2) s (S pos) cs) eqn:Hlong.
      * intros _. destruct (IHs (S pos)) as [m ->]; [by rewrite Hlong|]. eauto.
      * intros Hm%IH.
        by destruct (Re.match_here (Re.Star a :: r) s (S pos) cs).
  - apply IH.
  - apply IH.
  - cbn [Re.match_here]. destruct (Re.at_eos s); [apply IH|done].
Qed.

Lemma search_from_prefix r r2 s pos :
  Re.search_from r s pos = None → Re.search_from (r ++ r2) s pos = None.
Proof.
  revert pos. induction s as [|c s IH]; intros pos;
    rewrite (search_from_eq r), (search_from_eq (r ++ r2)).
  - destruct (Re.match_here r [] pos Re.no_caps) eqn:Hr; [done|]. intros _.
    destruct (Re.match_here (r ++ r2) [] pos Re.no_caps) eqn:Hl; [|done].
    assert (is_Some (Re.match_here r [] pos Re.no_caps)) as [? Hsome]
      by (apply (match_here_prefix r r2); by rewrite Hl).
    congruence.
  - destruct (Re.match_here r (c :: s) pos Re.no_caps) eqn:Hr; [done|].
    intros Hrest%IH.
    destruct (Re.match_here (r ++ r2) (c :: s) pos Re.no_caps) eqn:Hl; [|done].
    assert (is_Some (Re.match_here r (c :: s) pos Re.no_caps)) as [? Hsome]
      by (apply (match_here_prefix r r2); by rewrite Hl).
    congruence.
Qed.

Lemma script_pattern_compiled :
  Re.re_compile "file: (features.*feature)" = Some script_path_regex
  ∧ Re.re_compile "file: (features.*feature)\n"
    = Some (script_path_regex ++ [Re.One (Re.Lit Str.LF)]).
Proof. split; reflexivity. Qed.

(** Content without the path has no match for the pattern of the source,
    which asks for a line feed after the path as well. *)
Lemma script_pattern_needs_path content :
  Re.re_search "file: (features.*feature)" content = Ok None →
  Re.re_search "file: (features.*feature)\n" content = Ok None.
Proof.
  destruct script_pattern_compiled as [H1 H2].
  rewrite (re_search_compiled _ _ _ H1), (re_search_compiled _ _ _ H2).
  unfold Re.search_regex. intros Hnone.
  destruct (Re.search_from script_path_regex _ 0) eqn:Hs; [done|].
  by rewrite (search_from_prefix _ _ _ _ Hs).
Qed.

Lemma get_automation_script_no_field cfields :
  (∀ cf, cf ∈ cfields → key cf ≠ "automation_script") →
  get_automation_script cfields = Raise (UnboundLocalError "automation_script").
Proof.
  induction cfields as [|cf rest IH]; intros Hno; simpl; [done|].
  destruct (decide (key cf = "automation_script")) as [Hk|_].
  - destruct (Hno cf); [by left|done].
  - apply IH. intros c Hc. apply Hno. by right.
Qed.

Lemma get_automation_script_first before cf after :
  (∀ c, c ∈ before → key c ≠ "automation_script") →
  key cf = "automation_script" →
  get_automation_script (before ++ cf :: after)
  = match Re.re_search "file: (features.*feature)\n" (value_content cf) with
    | Ok m => first_group m
    | Raise e => Raise e
    end.
Proof.
  intros Hno Hk. induction before as [|c before IH]; simpl.
  - by destruct (decide (key cf = "automation_script")).
  - destruct (decide (key c = "automation_script")) as [Hc|_].
    + destruct (Hno c); [by left|done].
    + apply IH. intros c' Hc'. apply Hno. by right.
Qed.

Lemma get_link_to_log_ok content : ∃ link, get_link_to_log content = Ok link.
Proof.
  unfold get_link_to_log, Re.re_search, Re.search_regex.
  change (Re.re_compile "(http.*)")
    with (Some [Re.Open 1; Re.One (Re.Lit "h"); Re.One (Re.Lit "t");
                Re.One (Re.Lit "t"); Re.One (Re.Lit "p"); Re.Star Re.Dot;
                Re.Close 1]).
  cbv iota.
  destruct (Re.search_from _ _ 0) as [m|]; simpl; eauto.
Qed.

(** ** The registered rule *)

Lemma re_strings_compile : Forall (λ t, is_Some (Re.re_compile t)) re_strings.
Proof.
  unfold re_strings.
  repeat (apply List.Forall_cons; [eexists; vm_compute; reflexivity|]).
  apply List.Forall_nil.
Qed.

Lemma issue_fail_spec log :
  issue_fail_to_get_project_during_cleanup log
  = Ok (if decide (Forall (λ t, found_in t log) re_strings)
        then Some cleanup_description else None).
Proof.
  unfold issue_fail_to_get_project_during_cleanup.
  destruct (match_ordered_strings_spec log re_strings re_strings_compile)
    as (b & -> & Hb).
  destruct b, (decide (Forall (λ t, found_in t log) re_strings)) as [Hy|Hn];
    try done.
  - destruct Hn. by apply Hb.
  - apply Hb in Hy. discriminate.
Qed.

Lemma issue_methods_registered :
  get_issue_methods IssuesFinder_body
  = [Rule issue_fail_to_get_project_during_cleanup].
Proof.
  unfold get_issue_methods.
  replace (issue_names IssuesFinder_body)
    with ["issue_fail_to_get_project_during_cleanup"] by (by vm_compute).
  unfold IssuesFinder_body.
  generalize issue_fail_to_get_project_during_cleanup. intros d.
  by vm_compute.
Qed.

Lemma registered_results log :
  (λ m, call m log) <$> get_issue_methods IssuesFinder_body
  = Ok <$> [if decide (Forall (λ t, found_in t log) re_strings)
            then Some cleanup_description else None].
Proof. rewrite issue_methods_registered. simpl. by rewrite issue_fail_spec. Qed.

(** ** The loops of [main] *)

Lemma bind_ok {A B} (m : M A) (k : A → M B) st a st' :
  m st = (Ok a, st') → bind m k st = k a st'.
Proof. intros Hm. unfold bind. by rewrite Hm. Qed.

Lemma bind_raise {A B} (m : M A) (k : A → M B) st e st' :
  m st = (Raise e, st') → bind m k st = (Raise e, st').
Proof. intros Hm. unfold bind. by rewrite Hm. Qed.

(** What a fetch returns depends on the requests sent before it only. *)
Lemma fetch_attempts_requests E url range content st1 st2 :
  requests st1 = requests st2 →
  fst (fetch_attempts E url range content st1)
  = fst (fetch_attempts E url range content st2).
Proof.
  revert st1 st2. induction range as [|i rest IH]; intros st1 st2 Hreq; simpl;
    [done|].
  rewrite Hreq. destruct (urlopen_read E (requests st2) url) as [text|e]; [done|].
  destruct e; try done. by apply IH.
Qed.

Lemma get_file_from_url_requests E url st1 st2 :
  requests st1 = requests st2 →
  fst (get_file_from_url E url st1) = fst (get_file_from_url E url st2).
Proof.
  intros Hreq. unfold get_file_from_url, bind.
  pose proof (fetch_attempts_requests E url (seq 0 3) None st1 st2 Hreq) as Hf.
  destruct (fetch_attempts E url (seq 0 3) None st1) as [[[?|]|?] ?],
           (fetch_attempts E url (seq 0 3) None st2) as [[[?|]|?] ?];
    simpl in *; congruence.
Qed.

Lemma get_owner_not_found E ascript testid :
  check_output E (owner_command E ascript testid) = Raise CalledProcessError →
  get_owner E ascript testid = Ok "Not found".
Proof. intros Hfail. unfold get_owner. unfold owner_command in Hfail. by rewrite Hfail. Qed.

Lemma process_record_passed E profile record st :
  result_status record ≠ "Failed" →
  process_record E profile record st = (Ok tt, st).
Proof. intros Hr. unfold process_record. by rewrite decide_False. Qed.

(** A record whose script or owner cannot be found leaves the state as it
    was. *)
Lemma process_record_no_script E profile record st e :
  result_status record = "Failed" →
  get_automation_script (customFields_Custom record) = Raise e →
  process_record E profile record st = (Raise e, st).
Proof.
  intros Hr Hs. unfold process_record. rewrite decide_True by done.
  destruct (get_link_to_log_ok (comment_content record)) as [link Hl].
  unfold bind, lift. by rewrite Hl, Hs.
Qed.

Lemma process_records_app profile E before after st st1 :
  process_records E profile before st = (Ok tt, st1) →
  process_records E profile (before ++ after) st
  = process_records E profile after st1.
Proof.
  revert st. induction before as [|r before IH]; intros st Hb; simpl in *.
  - by injection Hb as ->.
  - unfold bind in *.
    destruct (process_record E profile r st) as [[[]|e] st']; [|done].
    by apply IH.
Qed.

Lemma process_records_raise E profile record after st e st' :
  process_record E profile record st = (Raise e, st') →
  process_records E profile (record :: after) st = (Raise e, st').
Proof. intros Hr. simpl. by apply bind_raise. Qed.

(** Once the log is fetched, the registered rule cannot fail. *)
Lemma find_issues_registered E self test_info st :
  (∀ url, logs test_info = Some url →
          ∃ log, fst (get_file_from_url E url st) = Ok log) →
  ∃ st2, find_issues E IssuesFinder_body self test_info st
         = (Ok (issues_found self), st2)
         ∧ report_struct st2 = report_struct st.
Proof.
  intros Hfetch. destruct (logs test_info) as [url|] eqn:Hlogs.
  - destruct (Hfetch url eq_refl) as [log Hlog].
    destruct (get_file_from_url E url st) as [r st1] eqn:Hf.
    simpl in Hlog. subst r.
    destruct (find_issues_spec E IssuesFinder_body self test_info url log st st1
                _ Hlogs Hf (registered_results log))
      as (st2 & Hfi & _ & _ & _ & Hrep).
    by exists st2.
  - exists st. by rewrite find_issues_no_logs.
Qed.

Lemma process_record_aggregates E prof record st link script owner :
  result_status record = "Failed" →
  get_link_to_log (comment_content record) = Ok link →
  get_automation_script (customFields_Custom record) = Ok script →
  get_owner E script (test_case_id record) = Ok owner →
  (∀ url, link = Some url → ∃ log, fst (get_file_from_url E url st) = Ok log) →
  (∀ v, report_struct st !! owner = Some (Version v) → v = EmptyString) →
  ∃ st' a,
    process_record E prof record st = (Ok tt, st')
    ∧ report_lookup (report_struct st') owner script (test_case_id record) = Some a
    ∧ case a = test_case_id record ∧ logs a = link ∧ profile a = prof
    ∧ (∀ o s i, (o, s, i) ≠ (owner, script, test_case_id record) →
         report_lookup (report_struct st') o s i
         = report_lookup (report_struct st) o s i).
Proof.
  intros Hr Hl Hs Ho Hfetch Hversion.
  unfold process_record. rewrite decide_True by done.
  unfold bind at 1, lift. rewrite Hl.
  unfold bind at 1. rewrite Hs.
  unfold bind at 1. rewrite Ho.
  unfold bind at 1, new_IssuesFinder, new_list, ret. unfold bind at 1.
  set (st1 := {| requests := requests st;
                 store := <[fresh_loc (store st) := []]> (store st);
                 report_struct := report_struct st |}).
  set (finder := {| issues_found := fresh_loc (store st) |}).
  set (ti := {| case := test_case_id record; logs := link; profile := prof;
                known_issues := None |}).
  destruct (find_issues_registered E finder ti st1) as (st2 & Hfi & Hrep).
  { intros url Hurl. destruct (Hfetch url Hurl) as [log Hlog]. exists log.
    by rewrite (get_file_from_url_requests E url st1 st). }
  change (report_struct st1) with (report_struct st) in Hrep.
  unfold bind at 1. rewrite Hfi.
  unfold bind at 1, read_list.
  set (a := match default [] (store st2 !! issues_found finder) with
            | [] => ti
            | _ :: _ => {| case := test_case_id record; logs := link;
                           profile := prof;
                           known_issues := Some (issues_found finder) |}
            end).
  unfold bind at 1, get_report. unfold bind at 1, lift.
  destruct (report_insert_spec owner script (test_case_id record) a
              (report_struct st2))
    as (r' & -> & Hat & Hother & _).
  { by rewrite Hrep. }
  eexists _, a. split; [done|]. cbn [report_struct set_report snd].
  split; [done|]. rewrite <- Hrep.
  split; [|split; [|split]]; try done;
    subst a ti; by destruct (default [] _).
Qed.

(** ** The text after the last separator *)

Lemma text_after_last_None sep s :
  sep ≠ [] → text_after_last sep s = None → ¬ occurs sep s.
Proof.
  intros Hsep. induction s as [|c s IH]; simpl.
  - intros _ (a & b & Hab). symmetry in Hab.
    apply app_eq_nil in Hab as [_ Hab]. by apply app_eq_nil in Hab as [? _].
  - destruct (text_after_last sep s); [done|].
    destruct (decide (sep `prefix_of` c :: s)) as [|Hnp]; [done|].
    intros _ (a & b & Hab). destruct a as [|c' a].
    + apply Hnp. exists b. by rewrite Hab.
    + simpl in Hab. injection Hab as -> Hs. apply IH; [done|]. by exists a, b.
Qed.

Lemma text_after_last_Some sep s t :
  sep ≠ [] → text_after_last sep s = Some t →
  ∃ pre, s = pre ++ sep ++ t ∧ ¬ occurs sep (tail (sep ++ t)).
Proof.
  intros Hsep. induction s as [|c s IH]; simpl; [done|].
  destruct (text_after_last sep s) as [t'|] eqn:Hrest.
  - intros [= ->]. destruct IH as (pre & -> & Hlast); [done|].
    by exists (c :: pre).
  - destruct (decide (sep `prefix_of` c :: s)) as [[k Hk]|]; [|done].
    intros [= <-]. exists []. rewrite Hk, drop_app_length. split; [done|].
    replace (tail (sep ++ k)) with s by (by rewrite <- Hk).
    by apply text_after_last_None.
Qed.

Lemma separator_nonempty : separator ≠ [].
Proof. done. Qed.

(** The profile of a one-line title, by the words of the spec. *)
Lemma run_profile_spec t rs :
  Str.LF ∉ Str.to_list t →
  run_profile {| title := t; records_TestRecord := rs |}
  = match text_after_last separator (Str.to_list t) with
    | Some suf => Ok (Str.of_list suf)
    | None => Raise (AttributeError "'NoneType' object has no attribute 'groups'")
    end.
Proof.
  intros Hlf. destruct (text_after_last separator (Str.to_list t)) as [suf|] eqn:Ht.
  - apply text_after_last_Some in Ht as (pre & Hpre & Hlast); [|done].
    unfold run_profile. cbn [title].
    rewrite (re_search_compiled _ _ _ profile_regex_compiled).
    unfold Re.search_regex. rewrite Hpre in *.
    rewrite search_from_eq, profile_regex_last_separator by done.
    cbn [fmap option_fmap option_map first_group Re.groups_of Re.count_groups
         profile_regex seq list_fmap Re.starts Re.ends Re.no_caps].
    rewrite !lookup_insert_eq.
    change (0 + length pre + 3) with (length pre + length separator).
    by rewrite Nat.add_0_l, slice_suffix.
  - apply text_after_last_None in Ht; [|done].
    apply run_profile_no_separator. intros a b ->. apply Ht.
    rewrite !to_list_app. by exists (Str.to_list a), (Str.to_list b).
Qed.

Lemma run_profile_unmatched output :
  Re.re_search ".* - (.*)$" (title output) = Ok None →
  run_profile output
  = Raise (AttributeError "'NoneType' object has no attribute 'groups'").
Proof. intros Hs. unfold run_profile. by rewrite Hs. Qed.

Lemma process_run_no_profile E run output st e :
  get_testrun_json E run = Ok output →
  run_profile output = Raise e →
  process_run E run st = (Raise e, st).
Proof.
  intros Hrun Hp. unfold process_run, bind, lift. by rewrite Hrun, Hp.
Qed.

(** ** More on the fetcher, the classifier and the report *)

Lemma sent_inj n m url st : sent n url st = sent m url st → n = m.
Proof.
  intros Heq. apply (f_equal (λ s, length (requests s))) in Heq.
  simpl in Heq. rewrite !length_app, !length_replicate in Heq. lia.
Qed.

Lemma match_ordered_strings_lines log log' targets :
  Forall (λ t, is_Some (Re.re_compile t)) targets →
  Str.splitlines log' ≡ₚ Str.splitlines log →
  match_ordered_strings log' targets = match_ordered_strings log targets.
Proof.
  intros Hc Hperm.
  destruct (match_ordered_strings_spec log targets Hc) as (b & -> & Hb).
  destruct (match_ordered_strings_spec log' targets Hc) as (b' & -> & Hb').
  f_equal. apply eq_true_iff_eq. rewrite Hb, Hb'.
  apply Forall_iff. intros t. unfold found_in. rewrite !Exists_exists.
  by setoid_rewrite Hperm.
Qed.

Lemma classify_spec E body test_info log results st :
  (∀ url, logs test_info = Some url →
          fst (get_file_from_url E url st) = Ok log) →
  (λ m, call m log) <$> get_issue_methods body = Ok <$> results →
  ∃ st', classify E body test_info st
         = (Ok (match logs test_info with
                | Some _ => matched results
                | None => []
                end), st').
Proof.
  intros Hfetch Hres. unfold classify.
  unfold bind at 1, new_IssuesFinder, new_list, ret. unfold bind at 1.
  set (st1 := {| requests := requests st;
                 store := <[fresh_loc (store st) := []]> (store st);
                 report_struct := report_struct st |}).
  set (finder := {| issues_found := fresh_loc (store st) |}).
  assert (contents st1 (issues_found finder) = []) as Hempty.
  { unfold contents. simpl. by rewrite lookup_insert_eq. }
  destruct (logs test_info) as [url|] eqn:Hlogs.
  - specialize (Hfetch url eq_refl).
    rewrite <- (get_file_from_url_requests E url st1 st) in Hfetch by done.
    destruct (get_file_from_url E url st1) as [r st1'] eqn:Hf.
    simpl in Hfetch. subst r.
    destruct (find_issues_spec E body finder test_info url log st1 st1' results
                Hlogs Hf Hres) as (st2 & Hfi & Hc & _).
    unfold bind, read_list. rewrite Hfi. exists st2.
    fold (contents st2 (issues_found finder)). by rewrite Hc, Hempty.
  - unfold bind, read_list. rewrite find_issues_no_logs by done.
    exists st1. by fold (contents st1 (issues_found finder)); rewrite Hempty.
Qed.

Lemma well_formed_initial v : well_formed {[ "version" := Version v ]}.
Proof.
  intros k v' Hk. destruct (decide (k = "version")) as [|Hne]; [done|].
  by rewrite lookup_singleton_ne in Hk.
Qed.

Lemma report_insert_well_formed owner script id a r r' :
  well_formed r → report_insert owner script id a r = Ok r' → well_formed r'.
Proof.
  intros Hwf Hins k v Hk. destruct (decide (k = owner)) as [->|Hne].
  - destruct (decide (owner = "version")) as [|Hov]; [done|].
    destruct (report_insert_spec owner script id a r) as (r2 & Hr2 & _ & _ & _ & [bs Hbs]).
    { intros v' Hv'. by destruct (Hov (Hwf _ _ Hv')). }
    rewrite Hins in Hr2. injection Hr2 as <-. congruence.
  - unfold report_insert in Hins.
    destruct (r !! owner) as [[v'|bs]|] eqn:Hr.
    + destruct (decide (v' = EmptyString)); [|done]. injection Hins as <-.
      rewrite lookup_insert_ne in Hk by done. by apply (Hwf k v).
    + destruct (truthy bs);
        [destruct (bs !! script) as [bc|];
         [destruct (truthy bc); [destruct (bc !! id)|]|]|];
        injection Hins as <-; rewrite lookup_insert_ne in Hk by done;
        by apply (Hwf k v).
    + injection Hins as <-. rewrite lookup_insert_ne in Hk by done.
      by apply (Hwf k v).
Qed.

(** Two inserts at one path: the later record is the one in the report,
    and every other path is as before. *)
Lemma report_insert_last_write_wins owner script id a1 a2 r :
  (∀ v, r !! owner = Some (Version v) → v = EmptyString) →
  ∃ r1 r2,
    report_insert owner script id a1 r = Ok r1
    ∧ report_insert owner script id a2 r1 = Ok r2
    ∧ report_lookup r2 owner script id = Some a2
    ∧ (∀ o s i, (o, s, i) ≠ (owner, script, id) →
         report_lookup r2 o s i = report_lookup r o s i)
    ∧ (∀ k, k ≠ owner → r2 !! k = r !! k).
Proof.
  intros Hversion.
  destruct (report_insert_spec owner script id a1 r Hversion)
    as (r1 & Hr1 & _ & Hother1 & Hkeys1 & [bs Hbs]).
  destruct (report_insert_spec owner script id a2 r1)
    as (r2 & Hr2 & Hat2 & Hother2 & Hkeys2 & _).
  { intros v Hv. congruence. }
  exists r1, r2. split; [done|]. split; [done|]. split; [done|]. split.
  - intros o s i Hne. by rewrite Hother2, Hother1.
  - intros k Hk. by rewrite Hkeys2, Hkeys1.
Qed.

(** * Further lemmas *)

(** ** The insert as a nested insert *)

Lemma scripts_of_insert owner by_script r :
  scripts_of (<[owner := Scripts by_script]> r) owner = by_script.
Proof. unfold scripts_of. by rewrite lookup_insert_eq. Qed.

Lemma scripts_of_insert_ne owner o e r :
  o ≠ owner → scripts_of (<[owner := e]> r) o = scripts_of r o.
Proof. intros Hne. unfold scripts_of. by rewrite lookup_insert_ne. Qed.

Lemma report_insert_nested owner script id a r :
  ¬ holds_version r owner →
  report_insert owner script id a r = Ok (nested_insert owner script id a r).
Proof.
  intros Hnv. unfold report_insert, nested_insert, cases_of, scripts_of.
  destruct (r !! owner) as [[v|by_script]|] eqn:Hr.
  - destruct (decide (v = EmptyString)) as [->|Hv].
    + by rewrite lookup_empty.
    + destruct Hnv. by exists v.
  - destruct (truthy by_script) eqn:Hts.
    + destruct (by_script !! script) as [by_case|] eqn:Hbs; [|done].
      simpl. destruct (truthy by_case) eqn:Htc.
      * by destruct (by_case !! id).
      * by rewrite (truthy_false _ Htc).
    + rewrite (truthy_false _ Hts). by rewrite lookup_empty.
  - by rewrite lookup_empty.
Qed.

Lemma report_insert_version owner script id a r :
  holds_version r owner →
  report_insert owner script id a r
  = Raise (AttributeError "'str' object has no attribute 'get'").
Proof.
  intros (v & Hr & Hv). unfold report_insert. rewrite Hr.
  by destruct (decide (v = EmptyString)).
Qed.

Lemma holds_version_nested owner script id a r o :
  holds_version (nested_insert owner script id a r) o
  ↔ o ≠ owner ∧ holds_version r o.
Proof.
  unfold holds_version, nested_insert. split.
  - intros (v & Hv & Hne). destruct (decide (o = owner)) as [->|Ho].
    + by rewrite lookup_insert_eq in Hv.
    + rewrite lookup_insert_ne in Hv by done. eauto.
  - intros (Ho & v & Hv & Hne). exists v. by rewrite lookup_insert_ne.
Qed.

Lemma report_lookup_nested owner script id a r :
  report_lookup (nested_insert owner script id a r) owner script id = Some a.
Proof.
  unfold report_lookup, nested_insert.
  rewrite lookup_insert_eq, lookup_insert_eq. simpl. by rewrite lookup_insert_eq.
Qed.

Lemma nested_insert_eq owner script id a r :
  nested_insert owner script id a r
  = <[owner := Scripts (<[script := <[id := a]> (cases_of r owner script)]>
                          (scripts_of r owner))]> r.
Proof. reflexivity. Qed.

Lemma scripts_of_nested owner script id a r :
  scripts_of (nested_insert owner script id a r) owner
  = <[script := <[id := a]> (cases_of r owner script)]> (scripts_of r owner).
Proof. apply scripts_of_insert. Qed.

Lemma scripts_of_nested_ne owner script id a r o :
  o ≠ owner → scripts_of (nested_insert owner script id a r) o = scripts_of r o.
Proof. apply scripts_of_insert_ne. Qed.

Lemma cases_of_nested owner script id a r :
  cases_of (nested_insert owner script id a r) owner script
  = <[id := a]> (cases_of r owner script).
Proof. unfold cases_of at 1. by rewrite scripts_of_nested, lookup_insert_eq. Qed.

Lemma cases_of_nested_ne_script owner script id a r s :
  s ≠ script →
  cases_of (nested_insert owner script id a r) owner s = cases_of r owner s.
Proof.
  intros Hs. unfold cases_of at 1.
  by rewrite scripts_of_nested, lookup_insert_ne.
Qed.

Lemma cases_of_nested_ne_owner owner script id a r o s :
  o ≠ owner →
  cases_of (nested_insert owner script id a r) o s = cases_of r o s.
Proof. intros Ho. unfold cases_of. by rewrite scripts_of_nested_ne. Qed.

Lemma nested_insert_twice owner script id a1 a2 r :
  nested_insert owner script id a2 (nested_insert owner script id a1 r)
  = nested_insert owner script id a2 r.
Proof.
  rewrite (nested_insert_eq _ _ _ a2 (nested_insert _ _ _ _ _)).
  rewrite cases_of_nested, scripts_of_nested, !insert_insert_eq.
  rewrite (nested_insert_eq _ _ _ a1). by rewrite insert_insert_eq.
Qed.

Lemma nested_insert_commute o1 s1 i1 a1 o2 s2 i2 a2 r :
  (o1, s1, i1) ≠ (o2, s2, i2) →
  nested_insert o1 s1 i1 a1 (nested_insert o2 s2 i2 a2 r)
  = nested_insert o2 s2 i2 a2 (nested_insert o1 s1 i1 a1 r).
Proof.
  intros Hne.
  rewrite (nested_insert_eq _ _ _ a1 (nested_insert _ _ _ _ _)).
  rewrite (nested_insert_eq _ _ _ a2 (nested_insert _ _ _ _ _)).
  destruct (decide (o1 = o2)) as [->|Ho].
  - rewrite !scripts_of_nested.
    destruct (decide (s1 = s2)) as [->|Hs].
    + assert (i1 ≠ i2) as Hi by congruence.
      rewrite !cases_of_nested.
      rewrite (nested_insert_eq _ _ _ a1 r), (nested_insert_eq _ _ _ a2 r).
      rewrite !insert_insert_eq. do 3 f_equal.
      by apply insert_insert_ne.
    + rewrite !cases_of_nested_ne_script by done.
      rewrite (nested_insert_eq _ _ _ a1 r), (nested_insert_eq _ _ _ a2 r).
      rewrite !insert_insert_eq. do 2 f_equal.
      by apply insert_insert_ne.
  - rewrite !cases_of_nested_ne_owner, !scripts_of_nested_ne by done.
    rewrite (nested_insert_eq _ _ _ a1 r), (nested_insert_eq _ _ _ a2 r).
    by apply insert_insert_ne.
Qed.

(** ** What the steps of a record leave alone *)

Lemma run_issue_methods_cons self log m rest st :
  run_issue_methods self log (m :: rest) st
  = match call m log with
    | Ok (Some k) =>
        run_issue_methods self log rest (snd (list_append (issues_found self) k st))
    | Ok None => run_issue_methods self log rest st
    | Raise e => (Raise e, st)
    end.
Proof.
  cbn [run_issue_methods]. unfold bind, lift.
  by destruct (call m log) as [[k|]|e].
Qed.

Lemma run_issue_methods_frame self log methods st :
  requests (snd (run_issue_methods self log methods st)) = requests st
  ∧ report_struct (snd (run_issue_methods self log methods st)) = report_struct st
  ∧ (∀ l, l ≠ issues_found self →
       store (snd (run_issue_methods self log methods st)) !! l = store st !! l)
  ∧ ∃ added,
      contents (snd (run_issue_methods self log methods st)) (issues_found self)
      = contents st (issues_found self) ++ added.
Proof.
  revert st. induction methods as [|m rest IH]; intros st.
  - simpl. repeat split; try done. exists []. by rewrite app_nil_r.
  - rewrite run_issue_methods_cons.
    destruct (call m log) as [[k|]|e].
    + destruct (IH (snd (list_append (issues_found self) k st)))
        as (Hreq & Hrep & Hother & added & Hadded).
      rewrite Hreq, Hrep. repeat split; try done.
      * intros l Hl. rewrite Hother by done. simpl. by rewrite lookup_insert_ne.
      * exists (k :: added). rewrite Hadded, contents_list_append.
        by rewrite <- app_assoc.
    + apply IH.
    + simpl. repeat split; try done. exists []. by rewrite app_nil_r.
Qed.

Lemma run_issue_methods_app self log before rest st st1 :
  run_issue_methods self log before st = (Ok tt, st1) →
  run_issue_methods self log (before ++ rest) st
  = run_issue_methods self log rest st1.
Proof.
  revert st. induction before as [|m before IH]; intros st Hb.
  - simpl in Hb. by injection Hb as ->.
  - cbn [app]. rewrite run_issue_methods_cons in *.
    destruct (call m log) as [[k|]|e]; [by apply IH..|done].
Qed.

Lemma find_issues_eq E body self test_info st :
  find_issues E body self test_info st
  = match logs test_info with
    | Some url =>
        match get_file_from_url E url st with
        | (Ok log, st1) =>
            match run_issue_methods self log (get_issue_methods body) st1 with
            | (Ok _, st2) => (Ok (issues_found self), st2)
            | (Raise e, st2) => (Raise e, st2)
            end
        | (Raise e, st1) => (Raise e, st1)
        end
    | None => (Ok (issues_found self), st)
    end.
Proof.
  unfold find_issues, bind. destruct (logs test_info) as [url|]; [|done].
  destruct (get_file_from_url E url st) as [[log|e] st1]; [|done].
  by destruct (run_issue_methods self log (get_issue_methods body) st1)
    as [[[]|e] st2].
Qed.

Lemma find_issues_frame E body self test_info st :
  report_struct (snd (find_issues E body self test_info st)) = report_struct st
  ∧ (∀ l, l ≠ issues_found self →
       store (snd (find_issues E body self test_info st)) !! l = store st !! l)
  ∧ (∃ added,
       contents (snd (find_issues E body self test_info st)) (issues_found self)
       = contents st (issues_found self) ++ added)
  ∧ ∃ n, n ≤ 3
         ∧ requests (snd (find_issues E body self test_info st))
           = requests st ++ replicate n (default EmptyString (logs test_info))
         ∧ (logs test_info = None → n = 0).
Proof.
  rewrite find_issues_eq. destruct (logs test_info) as [url|] eqn:Hlogs.
  - destruct (get_file_from_url_sent E url st) as (n & Hn & Hsent).
    destruct (get_file_from_url E url st) as [[log|e] st1]; simpl in Hsent;
      subst st1.
    + destruct (run_issue_methods_frame self log (get_issue_methods body)
                  (sent n url st)) as (Hreq & Hrep & Hother & Hadded).
      assert (snd (match run_issue_methods self log (get_issue_methods body)
                           (sent n url st) with
                   | (Ok _, st2) => (Ok (issues_found self), st2)
                   | (Raise e, st2) => (Raise e, st2)
                   end)
              = snd (run_issue_methods self log (get_issue_methods body)
                       (sent n url st))) as ->.
      { by destruct (run_issue_methods _ _ _ _) as [[[]|e] st2]. }
      split; [done|]. split; [done|]. split; [done|].
      exists n. split; [done|]. split; [done|done].
    + unfold contents. simpl. split; [done|]. split; [done|].
      split; [exists []; by rewrite app_nil_r|].
      exists n. done.
  - simpl. split; [done|]. split; [done|].
    split; [exists []; by rewrite app_nil_r|].
    exists 0. split; [lia|]. split; [simpl; by rewrite app_nil_r|done].
Qed.

(** The steps of one record: the requests go to its link, three at most,
    and the report is as before or has the record put in. *)
Lemma process_record_frame E prof record st :
  (∃ n link, n ≤ 3
     ∧ requests (snd (process_record E prof record st))
       = requests st ++ replicate n link
     ∧ (¬ failed record → n = 0))
  ∧ (report_struct (snd (process_record E prof record st)) = report_struct st
     ∨ ∃ owner script a,
         ¬ holds_version (report_struct st) owner
         ∧ case a = test_case_id record ∧ profile a = prof
         ∧ report_struct (snd (process_record E prof record st))
           = nested_insert owner script (test_case_id record) a (report_struct st)).
Proof.
  destruct (process_record E prof record st) as [res st'] eqn:Hp.
  cbn [snd]. unfold process_record in Hp.
  assert (∀ link : string, requests st = requests st ++ replicate 0 link) as H0.
  { intros link. simpl. by rewrite app_nil_r. }
  destruct (decide (result_status record = "Failed")) as [Hf|Hf].
  2: { injection Hp as <- <-. split; [|by left]. exists 0, EmptyString.
       split; [lia|]. by split. }
  destruct (get_link_to_log_ok (comment_content record)) as [link Hl].
  unfold bind at 1, lift in Hp. rewrite Hl in Hp.
  unfold bind at 1 in Hp.
  destruct (get_automation_script (customFields_Custom record)) as [script|e].
  2: { injection Hp as <- <-. split; [|by left]. exists 0, EmptyString.
       split; [lia|]. by split. }
  unfold bind at 1 in Hp.
  destruct (get_owner E script (test_case_id record)) as [owner|e].
  2: { injection Hp as <- <-. split; [|by left]. exists 0, EmptyString.
       split; [lia|]. by split. }
  unfold bind at 1, new_IssuesFinder, new_list, ret in Hp.
  unfold bind at 1 in Hp.
  set (st1 := {| requests := requests st;
                 store := <[fresh_loc (store st) := []]> (store st);
                 report_struct := report_struct st |}) in Hp.
  set (finder := {| issues_found := fresh_loc (store st) |}) in Hp.
  set (ti := {| case := test_case_id record; logs := link; profile := prof;
                known_issues := None |}) in Hp.
  destruct (find_issues_frame E IssuesFinder_body finder ti st1)
    as (Hrep & _ & _ & n & Hn & Hreq & _).
  change (report_struct st1) with (report_struct st) in Hrep.
  change (requests st1) with (requests st) in Hreq.
  assert (∃ n link, n ≤ 3
            ∧ requests (snd (find_issues E IssuesFinder_body finder ti st1))
              = requests st ++ replicate n link
            ∧ (¬ failed record → n = 0)) as Hrequests.
  { exists n, (default EmptyString link). split; [done|]. split; [done|].
    intros Hnf. by destruct Hnf. }
  clear Hreq. unfold bind at 1 in Hp.
  destruct (find_issues E IssuesFinder_body finder ti st1) as [[issues|e] st2];
    simpl in Hrep, Hrequests.
  2: { injection Hp as <- <-. split; [done|by left]. }
  unfold bind at 1, read_list in Hp.
  set (a := match default [] (store st2 !! issues) with
            | [] => ti
            | _ :: _ => {| case := test_case_id record; logs := link;
                           profile := prof; known_issues := Some issues |}
            end) in Hp.
  unfold bind at 1, get_report in Hp. unfold bind at 1, lift in Hp.
  destruct (decide (holds_version (report_struct st2) owner)) as [Hv|Hv].
  - rewrite report_insert_version in Hp by done. injection Hp as <- <-.
    split; [done|by left].
  - rewrite report_insert_nested in Hp by done. injection Hp as <- <-.
    simpl. split; [done|]. right. exists owner, script, a.
    rewrite <- Hrep. split; [done|].
    split; [subst a ti; by destruct (default [] _)|].
    split; [subst a ti; by destruct (default [] _)|done].
Qed.

(** The requests of one record go to the link of its comment. *)
Lemma process_record_requests E prof record st :
  ∃ n url, n ≤ 3
    ∧ requests (snd (process_record E prof record st))
      = requests st ++ replicate n url
    ∧ (0 < n → failed record
               ∧ get_link_to_log (comment_content record) = Ok (Some url)).
Proof.
  destruct (process_record E prof record st) as [res st'] eqn:Hp.
  cbn [snd]. unfold process_record in Hp.
  assert (∃ n url, n ≤ 3 ∧ requests st = requests st ++ replicate n url
            ∧ (0 < n → failed record
                       ∧ get_link_to_log (comment_content record)
                         = Ok (Some url))) as Hnone.
  { exists 0, EmptyString. split; [lia|]. simpl. rewrite app_nil_r.
    split; [done|lia]. }
  destruct (decide (result_status record = "Failed")) as [Hf|Hf].
  2: { by injection Hp as <- <-. }
  destruct (get_link_to_log_ok (comment_content record)) as [link Hl].
  unfold bind at 1, lift in Hp. rewrite Hl in Hp.
  unfold bind at 1 in Hp.
  destruct (get_automation_script (customFields_Custom record)) as [script|e].
  2: { by injection Hp as <- <-. }
  unfold bind at 1 in Hp.
  destruct (get_owner E script (test_case_id record)) as [owner|e].
  2: { by injection Hp as <- <-. }
  unfold bind at 1, new_IssuesFinder, new_list, ret in Hp.
  unfold bind at 1 in Hp.
  set (st1 := {| requests := requests st;
                 store := <[fresh_loc (store st) := []]> (store st);
                 report_struct := report_struct st |}) in Hp.
  set (finder := {| issues_found := fresh_loc (store st) |}) in Hp.
  set (ti := {| case := test_case_id record; logs := link; profile := prof;
                known_issues := None |}) in Hp.
  destruct (find_issues_frame E IssuesFinder_body finder ti st1)
    as (_ & _ & _ & n & Hn & Hreq & Hzero).
  change (requests st1) with (requests st) in Hreq.
  assert (∃ n url, n ≤ 3
            ∧ requests (snd (find_issues E IssuesFinder_body finder ti st1))
              = requests st ++ replicate n url
            ∧ (0 < n → failed record
                       ∧ get_link_to_log (comment_content record)
                         = Ok (Some url))) as Hrequests.
  { exists n, (default EmptyString link). split; [done|]. split; [done|].
    intros Hpos. split; [done|]. cbn [logs ti] in Hzero.
    destruct link as [url|]; [done|]. specialize (Hzero eq_refl). lia. }
  clear Hreq Hzero Hnone. unfold bind at 1 in Hp.
  destruct (find_issues E IssuesFinder_body finder ti st1) as [[issues|e] st2];
    simpl in Hrequests.
  2: { by injection Hp as <- <-. }
  unfold bind at 1, read_list in Hp.
  unfold bind at 1, get_report in Hp. unfold bind at 1, lift in Hp.
  destruct (report_insert owner script (test_case_id record) _ (report_struct st2));
    by injection Hp as <- <-.
Qed.

(** ** What the loops of [main] keep *)

Section Invariant.

Context (E : env) (P : report → Prop).

Hypothesis P_insert :
  ∀ r owner script id a,
    P r → ¬ holds_version r owner → case a = id →
    P (nested_insert owner script id a r).

Lemma process_record_keeps prof record st :
  P (report_struct st) → P (report_struct (snd (process_record E prof record st))).
Proof.
  intros HP.
  destruct (process_record_frame E prof record st)
    as [_ [->|(owner & script & a & Hv & Hcase & _ & ->)]]; [done|].
  by apply P_insert.
Qed.

Lemma process_records_keeps prof records st :
  P (report_struct st) →
  P (report_struct (snd (process_records E prof records st))).
Proof.
  revert st. induction records as [|record rest IH]; intros st HP; [done|].
  cbn [process_records]. unfold bind.
  pose proof (process_record_keeps prof record st HP) as Hstep.
  destruct (process_record E prof record st) as [[[]|e] st']; [|done].
  by apply IH.
Qed.

Lemma process_run_keeps run st :
  P (report_struct st) → P (report_struct (snd (process_run E run st))).
Proof.
  intros HP. unfold process_run, bind, lift.
  destruct (get_testrun_json E run) as [output|e]; [|done].
  destruct (run_profile output) as [prof|e]; [|done].
  by apply process_records_keeps.
Qed.

Lemma process_runs_keeps runs st :
  P (report_struct st) → P (report_struct (snd (process_runs E runs st))).
Proof.
  revert st. induction runs as [|run rest IH]; intros st HP; [done|].
  cbn [process_runs]. unfold bind.
  pose proof (process_run_keeps run st HP) as Hstep.
  destruct (process_run E run st) as [[[]|e] st']; [|done].
  by apply IH.
Qed.

End Invariant.

Lemma main_eq E a st :
  main E a st
  = match runs a with
    | Some rs =>
        match process_runs E rs
                {| requests := requests st; store := store st;
                   report_struct := {[ "version" := Version (version a) ]} |} with
        | (Ok _, st') => (Ok (report_struct st', output a), st')
        | (Raise e, st') => (Raise e, st')
        end
    | None =>
        (Raise (ExternalError "TypeError"),
         {| requests := requests st; store := store st;
            report_struct := {[ "version" := Version (version a) ]} |})
    end.
Proof.
  unfold main, bind, set_report, get_report, ret, raise.
  destruct (runs a) as [rs|]; [|done].
  by destruct (process_runs E rs _) as [[[]|e] st'].
Qed.

Lemma well_formed_nested owner script id a r :
  well_formed r → well_formed (nested_insert owner script id a r).
Proof.
  intros Hwf k v Hk. unfold nested_insert in Hk.
  destruct (decide (k = owner)) as [->|Hne].
  - by rewrite lookup_insert_eq in Hk.
  - rewrite lookup_insert_ne in Hk by done. by apply (Hwf k v).
Qed.

Lemma report_lookup_nested_ne owner script id a r o s i :
  (o, s, i) ≠ (owner, script, id) →
  report_lookup (nested_insert owner script id a r) o s i = report_lookup r o s i.
Proof.
  intros Hne. unfold report_lookup.
  destruct (decide (o = owner)) as [->|Ho].
  - fold (scripts_of (nested_insert owner script id a r) owner).
    assert (∀ r', match r' !! owner with
                  | Some (Scripts by_script) => by_script !! s ≫= (.!! i)
                  | _ => None
                  end = scripts_of r' owner !! s ≫= (.!! i)) as Hs.
    { intros r'. unfold scripts_of. by destruct (r' !! owner) as [[|]|]. }
    rewrite !Hs, scripts_of_nested.
    destruct (decide (s = script)) as [->|Hsne].
    + rewrite lookup_insert_eq. simpl. rewrite lookup_insert_ne by congruence.
      unfold cases_of. by destruct (scripts_of r owner !! script).
    + by rewrite lookup_insert_ne.
  - unfold nested_insert. by rewrite lookup_insert_ne.
Qed.

Lemma filed_by_case_nested owner script id a r :
  filed_by_case r → case a = id →
  filed_by_case (nested_insert owner script id a r).
Proof.
  intros Hr Ha o s i a' Hl.
  destruct (decide ((o, s, i) = (owner, script, id))) as [[= -> -> ->]|Hne].
  - rewrite report_lookup_nested in Hl. by injection Hl as <-.
  - rewrite report_lookup_nested_ne in Hl by done. by apply (Hr o s i).
Qed.

(** ** Every match found is a match *)

Lemma match_here_accepts r s pos cs cs' :
  Re.match_here r s pos cs = Some cs' → accepts r s pos cs cs'.
Proof.
  revert s pos cs. induction r as [|n r IH]; intros s pos cs.
  - simpl. by intros [= ->].
  - destruct n as [a|a|g|g|].
    + destruct s as [|c s]; cbn [Re.match_here accepts]; [done|].
      destruct (Re.atom_matches a c) eqn:Hc; [|done].
      intros Hm. exists c, s. eauto.
    + revert pos. induction s as [|c s IHs]; intros pos.
      * rewrite match_here_star_nil. intros Hm%IH.
        exists [], []. simpl. rewrite Nat.add_0_r. by repeat split.
      * rewrite match_here_star_cons.
        assert (Re.match_here r (c :: s) pos cs = Some cs' →
                accepts (Re.Star a :: r) (c :: s) pos cs cs') as Hskip.
        { intros Hm%IH. exists [], (c :: s). simpl. rewrite Nat.add_0_r.
          by repeat split. }
        destruct (Re.atom_matches a c) eqn:Hc; [|done].
        destruct (Re.match_here (Re.Star a :: r) s (S pos) cs) as [m|] eqn:Hlong;
          [|done].
        intros [= ->]. destruct (IHs (S pos) Hlong) as (w & s' & -> & Hw & Hacc).
        exists (c :: w), s'. split; [done|]. split; [by constructor|].
        simpl. by replace (pos + S (length w)) with (S pos + length w) by lia.
    + cbn [Re.match_here accepts]. apply IH.
    + cbn [Re.match_here accepts]. apply IH.
    + cbn [Re.match_here accepts]. destruct (Re.at_eos s); [|done].
      intros Hm%IH. done.
Qed.

Lemma search_from_found r s pos m :
  Re.search_from r s pos = Some m →
  ∃ k, k ≤ length s
       ∧ Re.match_here r (drop k s) (pos + k) Re.no_caps = Some m.
Proof.
  revert pos. induction s as [|c s IH]; intros pos; rewrite search_from_eq.
  - destruct (Re.match_here r [] pos Re.no_caps) eqn:Hm; [|done].
    intros [= <-]. exists 0. simpl. by rewrite Nat.add_0_r.
  - destruct (Re.match_here r (c :: s) pos Re.no_caps) eqn:Hm.
    + intros [= <-]. exists 0. simpl. rewrite Nat.add_0_r. split; [lia|done].
    + intros (k & Hk & Hfound)%IH. exists (S k). simpl.
      split; [lia|]. by replace (pos + S k) with (S pos + k) by lia.
Qed.

Lemma lit_matches c c' : Re.atom_matches (Re.Lit c) c' = true → c' = c.
Proof. simpl. by intros ->%Ascii.eqb_eq. Qed.

Lemma dot_matches_inv c : Re.atom_matches Re.Dot c = true → c ≠ Str.LF.
Proof. simpl. by intros ?%negb_true_iff%Ascii.eqb_neq. Qed.

Lemma slice_middle (pre mid post : list ascii) b e :
  b = length pre → e = length pre + length mid →
  Str.slice b e (pre ++ mid ++ post) = mid.
Proof.
  intros -> ->. unfold Str.slice. rewrite drop_app_length.
  replace (length pre + length mid - length pre) with (length mid) by lia.
  by rewrite take_app_length.
Qed.

(** ** The link to the log *)

Lemma line_prefix_split s :
  ∃ post, (s = line_prefix s ++ post) ∧ (Str.LF ∉ line_prefix s)
          ∧ (post = [] ∨ ∃ post', post = Str.LF :: post').
Proof.
  induction s as [|c s (post & Hs & Hlf & Hpost)]; simpl.
  - exists []. split; [done|]. split; [apply not_elem_of_nil|by left].
  - destruct (Ascii.eqb_spec c Str.LF) as [->|Hc].
    + exists (Str.LF :: s). split; [done|]. split; [apply not_elem_of_nil|].
      right. by exists s.
    + exists post. split; [simpl; by rewrite <- Hs|].
      split; [|done]. apply not_elem_of_cons. split; [congruence|done].
Qed.

Lemma star_dot_line g s pos cs :
  Re.match_here [Re.Star Re.Dot; Re.Close g] s pos cs
  = Some (Re.mkCaps (Re.starts cs)
            (<[g := pos + length (line_prefix s)]> (Re.ends cs))).
Proof.
  revert pos. induction s as [|c s IH]; intros pos.
  - simpl. by rewrite Nat.add_0_r.
  - rewrite match_here_star_cons. cbn [line_prefix Re.atom_matches].
    destruct (Ascii.eqb c Str.LF); cbn [negb].
    + simpl. by rewrite Nat.add_0_r.
    + rewrite IH. do 3 f_equal. simpl. lia.
Qed.

Lemma http_prefix_cases s :
  (∃ s2, s = http ++ s2) ∨ ¬ (http `prefix_of` s).
Proof.
  destruct (decide (http `prefix_of` s)) as [[s2 ->]|]; [left; by exists s2|by right].
Qed.

Lemma link_regex_here s pos cs :
  Re.match_here link_regex s pos cs
  = if decide (http `prefix_of` s)
    then Some (Re.mkCaps (<[1 := pos]> (Re.starts cs))
                 (<[1 := pos + length (line_prefix s)]> (Re.ends cs)))
    else None.
Proof.
  destruct (http_prefix_cases s) as [[s2 ->]|Hno].
  - rewrite decide_True by (by exists s2).
    change (Re.match_here link_regex (http ++ s2) pos cs)
      with (Re.match_here [Re.Star Re.Dot; Re.Close 1] s2 (S (S (S (S pos))))
              (Re.mkCaps (<[1 := pos]> (Re.starts cs)) (Re.ends cs))).
    rewrite star_dot_line. cbn [Re.starts Re.ends].
    change (line_prefix (http ++ s2))
      with ("h" :: "t" :: "t" :: "p" :: line_prefix s2)%char.
    do 3 f_equal. simpl. lia.
  - rewrite decide_False by done. unfold link_regex.
    destruct s as [|c1 [|c2 [|c3 [|c4 s2]]]];
      cbn [Re.match_here Re.atom_matches]; try done.
    + by destruct (Ascii.eqb "h" c1).
    + destruct (Ascii.eqb "h" c1); [|done]. by destruct (Ascii.eqb "t" c2).
    + destruct (Ascii.eqb "h" c1); [|done].
      destruct (Ascii.eqb "t" c2); [|done]. by destruct (Ascii.eqb "t" c3).
    + destruct (Ascii.eqb_spec "h" c1) as [<-|]; [|done].
      destruct (Ascii.eqb_spec "t" c2) as [<-|]; [|done].
      destruct (Ascii.eqb_spec "t" c3) as [<-|]; [|done].
      destruct (Ascii.eqb_spec "p" c4) as [<-|]; [|done].
      destruct Hno. by exists s2.
Qed.

Lemma take_line_prefix s : take (length (line_prefix s)) s = line_prefix s.
Proof.
  destruct (line_prefix_split s) as (post & Hs & _).
  rewrite Hs at 2. by rewrite take_app_length.
Qed.

Lemma search_link pre s :
  Re.groups_of link_regex (pre ++ s)
  <$> Re.search_from link_regex s (length pre)
  = (λ l, [Str.of_list l]) <$> first_link s.
Proof.
  revert pre. induction s as [|c s IH]; intros pre.
  - rewrite search_from_eq, link_regex_here.
    rewrite decide_False; [done|]. by intros [k Hk].
  - rewrite search_from_eq, link_regex_here. cbn [first_link].
    change (Str.to_list "http") with http.
    destruct (decide (http `prefix_of` c :: s)) as [Hp|Hp].
    + cbn [fmap option_fmap option_map Re.groups_of Re.count_groups link_regex
           seq list_fmap Re.starts Re.ends Re.no_caps].
      rewrite !lookup_insert_eq. do 3 f_equal. unfold Str.slice.
      rewrite drop_app_length.
      replace (length pre + length (line_prefix (c :: s)) - length pre)
        with (length (line_prefix (c :: s))) by lia.
      apply take_line_prefix.
    + specialize (IH (pre ++ [c])). rewrite <- app_assoc in IH.
      rewrite length_app in IH. simpl in IH.
      by replace (length pre + 1) with (S (length pre)) in IH by lia.
Qed.

Lemma get_link_to_log_first_link content :
  get_link_to_log content
  = Ok (Str.of_list <$> first_link (Str.to_list content)).
Proof.
  unfold get_link_to_log, Re.re_search, Re.search_regex.
  change (Re.re_compile "(http.*)") with (Some link_regex). cbv iota.
  pose proof (search_link [] (Str.to_list content)) as Hs. simpl in Hs.
  destruct (Re.search_from link_regex (Str.to_list content) 0) as [m|];
    destruct (first_link (Str.to_list content)) as [l|]; simpl in Hs |- *;
    try done.
  injection Hs as ->. done.
Qed.

Lemma first_link_None s : first_link s = None ↔ ¬ occurs http s.
Proof.
  induction s as [|c s IH]; cbn [first_link].
  - split; [|done]. intros _ (a & b & Hab). symmetry in Hab.
    apply app_eq_nil in Hab as [_ Hab]. by apply app_eq_nil in Hab as [? _].
  - change (Str.to_list "http") with http.
    destruct (decide (http `prefix_of` c :: s)) as [[k Hk]|Hnp].
    + split; [done|]. intros Hno. destruct Hno. exists [], k. by rewrite Hk.
    + rewrite IH. split.
      * intros Hno (a & b & Hab). destruct a as [|c' a].
        -- apply Hnp. exists b. by rewrite Hab.
        -- simpl in Hab. injection Hab as -> Hs. apply Hno. by exists a, b.
      * intros Hno Hocc. by apply Hno, occurs_cons.
Qed.

Lemma first_link_Some s l :
  first_link s = Some l →
  ∃ pre post,
    s = pre ++ l ++ post ∧ (http `prefix_of` l) ∧ (Str.LF ∉ l)
    ∧ (post = [] ∨ ∃ post', post = Str.LF :: post')
    ∧ ∀ pre' rest, s = pre' ++ http ++ rest → length pre ≤ length pre'.
Proof.
  induction s as [|c s IH]; cbn [first_link]; [done|].
  change (Str.to_list "http") with http.
  destruct (decide (http `prefix_of` c :: s)) as [[k Hk]|Hnp].
  - rewrite Hk. intros [= <-].
    destruct (line_prefix_split (http ++ k)) as (post & Hs & Hlf & Hpost).
    exists [], post. split; [exact Hs|]. split.
    + change (line_prefix (http ++ k)) with (http ++ line_prefix k).
      by exists (line_prefix k).
    + split; [done|]. split; [done|]. intros; simpl; lia.
  - intros (pre & post & -> & Hp & Hlf & Hpost & Hfirst)%IH.
    exists (c :: pre), post. split; [done|]. split; [done|].
    split; [done|]. split; [done|].
    intros pre' rest Hs. destruct pre' as [|c' pre'].
    + destruct Hnp. exists rest. by rewrite Hs.
    + simpl in Hs. injection Hs as _ Hs. apply Hfirst in Hs. simpl. lia.
Qed.

(** ** The shape of what the patterns capture *)

Ltac accept_literal H :=
  let c := fresh "c" in
  let s := fresh "s" in
  let Hc := fresh "Hc" in
  destruct H as (c & s & -> & Hc & H); apply lit_matches in Hc; subst c.

Ltac accept_star H w Hw :=
  let s := fresh "s" in
  destruct H as (w & s & -> & Hw & H).

Lemma search_regex_found r text gs :
  Re.search_regex r text = Some gs →
  ∃ k m, k ≤ length (Str.to_list text)
         ∧ accepts r (drop k (Str.to_list text)) k Re.no_caps m
         ∧ gs = Re.groups_of r (Str.to_list text) m.
Proof.
  unfold Re.search_regex.
  destruct (Re.search_from r (Str.to_list text) 0) as [m|] eqn:Hs; [|done].
  intros [= <-]. apply search_from_found in Hs as (k & Hk & Hm).
  exists k, m. split; [done|]. split; [|done].
  by apply match_here_accepts in Hm.
Qed.

Lemma Forall_dot_no_line_feed w :
  Forall (λ c, Re.atom_matches Re.Dot c = true) w → Str.LF ∉ w.
Proof.
  induction 1 as [|c w Hc _ IH]; [apply not_elem_of_nil|].
  apply not_elem_of_cons. split; [|done].
  apply dot_matches_inv in Hc. congruence.
Qed.

(** A match of the pattern of [get_automation_script]: the group is a path
    from [features] to [feature] on one line, after [file: ] and before a
    line feed. *)
Lemma script_pattern_shape content gs :
  Re.re_search "file: (features.*feature)\n" content = Ok (Some gs) →
  ∃ pre w post,
    Str.to_list content
    = pre ++ Str.to_list "file: "
      ++ Str.to_list "features" ++ w ++ Str.to_list "feature" ++ Str.LF :: post
    ∧ (Str.LF ∉ w)
    ∧ gs = [Str.of_list (Str.to_list "features" ++ w ++ Str.to_list "feature")].
Proof.
  destruct script_pattern_compiled as [_ Hc].
  rewrite (re_search_compiled _ _ _ Hc). intros [= Hs].
  apply search_regex_found in Hs as (k & m & Hk & Hacc & ->).
  remember (Str.to_list content) as text eqn:Ht. clear Ht Hc content.
  pose proof (take_drop k text) as Htext.
  assert (length (take k text) = k) as Hlen by (rewrite length_take; lia).
  remember (take k text) as pre eqn:Hpre. clear Hpre.
  remember (drop k text) as tail eqn:Htail. clear Htail.
  subst text k.
  unfold script_path_regex in Hacc. cbn [app accepts] in Hacc.
  do 6 accept_literal Hacc. cbn [Re.starts Re.ends Re.no_caps] in Hacc.
  do 8 accept_literal Hacc.
  accept_star Hacc w Hw.
  do 7 accept_literal Hacc. cbn [Re.starts Re.ends] in Hacc.
  accept_literal Hacc. subst m.
  exists pre, w, s. split; [reflexivity|].
  split; [by apply Forall_dot_no_line_feed|].
  cbn [Re.groups_of Re.count_groups app seq list_fmap fmap Re.starts Re.ends].
  rewrite !lookup_insert_eq. do 2 f_equal.
  etrans; [|apply (slice_middle (pre ++ Str.to_list "file: ")
                     (Str.to_list "features" ++ w ++ Str.to_list "feature")
                     (Str.LF :: s) _ _ eq_refl eq_refl)].
  f_equal; [solve_length..|by rewrite <- !app_assoc].
Qed.

Lemma owner_pattern_compiled :
  Re.re_compile "author\s*(.*)@redhat.com" = Some owner_regex.
Proof. reflexivity. Qed.

(** A match of the pattern of [get_owner]: the group stands on one line
    between [author], any white space, and [@redhat], one more character
    and [com]. *)
Lemma owner_pattern_shape text gs :
  Re.re_search "author\s*(.*)@redhat.com" text = Ok (Some gs) →
  ∃ pre ws name c post,
    Str.to_list text
    = pre ++ Str.to_list "author" ++ ws ++ name ++ Str.to_list "@redhat"
      ++ c :: Str.to_list "com" ++ post
    ∧ Forall (λ c, Str.is_space c = true) ws
    ∧ (Str.LF ∉ name) ∧ c ≠ Str.LF
    ∧ gs = [Str.of_list name].
Proof.
  rewrite (re_search_compiled _ _ _ owner_pattern_compiled). intros [= Hs].
  apply search_regex_found in Hs as (k & m & Hk & Hacc & ->).
  remember (Str.to_list text) as chars eqn:Ht. clear Ht text.
  pose proof (take_drop k chars) as Htext.
  assert (length (take k chars) = k) as Hlen by (rewrite length_take; lia).
  remember (take k chars) as pre eqn:Hpre. clear Hpre.
  remember (drop k chars) as tail eqn:Htail. clear Htail.
  subst chars k.
  unfold owner_regex in Hacc. cbn [app accepts] in Hacc.
  do 6 accept_literal Hacc.
  accept_star Hacc ws Hws. cbn [Re.starts Re.ends Re.no_caps] in Hacc.
  accept_star Hacc name Hname. cbn [Re.starts Re.ends] in Hacc.
  do 7 accept_literal Hacc.
  destruct Hacc as (c & s' & -> & Hc & Hacc).
  do 3 accept_literal Hacc. subst m.
  exists pre, ws, name, c, s. split; [reflexivity|].
  split; [done|]. split; [by apply Forall_dot_no_line_feed|].
  split; [by apply dot_matches_inv|].
  unfold owner_regex.
  cbn [Re.groups_of Re.count_groups app seq list_fmap fmap Re.starts Re.ends].
  rewrite !lookup_insert_eq. do 2 f_equal.
  etrans; [|apply (slice_middle (pre ++ Str.to_list "author" ++ ws) name
                     (Str.to_list "@redhat" ++ c :: Str.to_list "com" ++ s)
                     _ _ eq_refl eq_refl)].
  f_equal; [solve_length..|by rewrite <- !app_assoc].
Qed.

Lemma get_automation_script_inv cfields script :
  get_automation_script cfields = Ok script →
  ∃ before cf after gs,
    cfields = before ++ cf :: after
    ∧ (∀ c, c ∈ before → key c ≠ "automation_script")
    ∧ key cf = "automation_script"
    ∧ Re.re_search "file: (features.*feature)\n" (value_content cf)
      = Ok (Some (script :: gs)).
Proof.
  induction cfields as [|cf rest IH]; cbn [get_automation_script]; [done|].
  destruct (decide (key cf = "automation_script")) as [Hk|Hk].
  - destruct (Re.re_search "file: (features.*feature)\n" (value_content cf))
      as [[[|g gs]|]|e] eqn:Hs; try done.
    intros [= ->]. exists [], cf, rest, gs. split; [done|].
    split; [|done]. intros c Hc. by apply elem_of_nil in Hc.
  - intros (before & cf' & after & gs & -> & Hno & Hk' & Hs)%IH.
    exists (cf :: before), cf', after, gs. split; [done|].
    split; [|done]. intros c [->|Hc]%elem_of_cons; auto.
Qed.

(** ** Patterns without stars and groups *)

Lemma match_here_atoms atoms s pos cs :
  Re.match_here (Re.One <$> atoms) s pos cs
  = if atoms_match atoms s then Some cs else None.
Proof.
  revert s pos. induction atoms as [|a atoms IH]; intros s pos.
  - by destruct s.
  - destruct s as [|c s]; [done|].
    cbn [fmap list_fmap Re.match_here atoms_match].
    destruct (Re.atom_matches a c); [apply IH|done].
Qed.

Lemma search_from_atoms atoms s pos :
  is_Some (Re.search_from (Re.One <$> atoms) s pos)
  ↔ ∃ pre post, s = pre ++ post ∧ atoms_match atoms post = true.
Proof.
  revert pos. induction s as [|c s IH]; intros pos;
    rewrite search_from_eq, match_here_atoms.
  - destruct (atoms_match atoms []) eqn:Hm.
    + split; [|by eauto]. intros _. by exists [], [].
    + split; [by intros [? ?]|]. intros (pre & post & Hs & Hp).
      symmetry in Hs. apply app_eq_nil in Hs as [-> ->]. congruence.
  - destruct (atoms_match atoms (c :: s)) eqn:Hm.
    + split; [|by eauto]. intros _. by exists [], (c :: s).
    + rewrite IH. split.
      * intros (pre & post & -> & Hp). by exists (c :: pre), post.
      * intros (pre & post & Hs & Hp). destruct pre as [|c' pre].
        -- simpl in Hs. subst post. congruence.
        -- injection Hs as -> ->. by exists pre, post.
Qed.

Lemma atoms_match_literal chars s :
  atoms_match (Re.Lit <$> chars) s = true ↔ chars `prefix_of` s.
Proof.
  revert s. induction chars as [|c chars IH]; intros s.
  - simpl. split; [intros _; by exists s|done].
  - destruct s as [|c' s]; cbn [fmap list_fmap atoms_match Re.atom_matches].
    + split; [done|]. by intros [k Hk].
    + rewrite andb_true_iff, IH, Ascii.eqb_eq. split.
      * intros [-> [k ->]]. by exists k.
      * intros [k Hk]. injection Hk as -> ->. split; [done|by exists k].
Qed.

Lemma parse_plain_step c p acc next opened :
  plain c = true →
  Re.parse (c :: p) acc next opened
  = Re.parse p (Re.One (Re.Lit c) :: acc) next opened.
Proof.
  destruct c as [[] [] [] [] [] [] [] []]; intros Hc;
    first [discriminate Hc | reflexivity].
Qed.

Lemma parse_plain p acc next :
  forallb plain p = true →
  Re.parse p acc next [] = Some (rev acc ++ (Re.One <$> (Re.Lit <$> p))).
Proof.
  revert acc. induction p as [|c p IH]; intros acc Hp.
  - simpl. by rewrite app_nil_r.
  - simpl in Hp. apply andb_true_iff in Hp as [Hc Hp].
    rewrite parse_plain_step, IH by done. simpl. by rewrite <- app_assoc.
Qed.

(** A pattern of plain characters is looked for as it is written. *)
Lemma line_matches_plain target line :
  forallb plain (Str.to_list target) = true →
  line_matches target line ↔ contains target line.
Proof.
  intros Hp. unfold line_matches, Re.re_search, Re.re_compile.
  rewrite parse_plain by done. cbn [rev app]. unfold Re.search_regex.
  unfold contains. split.
  - intros (gs & [= Hgs]).
    destruct (Re.search_from _ (Str.to_list line) 0) as [m|] eqn:Hs; [|done].
    assert (is_Some (Re.search_from (Re.One <$> (Re.Lit <$> Str.to_list target))
                       (Str.to_list line) 0)) as Hsome by eauto.
    apply search_from_atoms in Hsome as (pre & post & Hline & Hm).
    apply atoms_match_literal in Hm as [k ->].
    exists (Str.of_list pre), (Str.of_list k).
    rewrite <- (String.string_of_list_ascii_of_string line), Hline.
    by rewrite !of_list_app, String.string_of_list_ascii_of_string.
  - intros (a & b & ->).
    destruct (proj2 (search_from_atoms (Re.Lit <$> Str.to_list target)
                       (Str.to_list (a +:+ target +:+ b)) 0)) as [m Hm].
    { exists (Str.to_list a), (Str.to_list target ++ Str.to_list b).
      split; [by rewrite !to_list_app|].
      apply atoms_match_literal. by exists (Str.to_list b). }
    rewrite Hm. simpl. eauto.
Qed.

Lemma atoms_match_cons a atoms s :
  atoms_match (a :: atoms) s = true →
  ∃ c s', s = c :: s' ∧ Re.atom_matches a c = true ∧ atoms_match atoms s' = true.
Proof.
  destruct s as [|c s]; [done|]. cbn [atoms_match].
  intros [Hc Hs]%andb_true_iff. by exists c, s.
Qed.

Ltac match_literal H :=
  let c := fresh "c" in
  let s := fresh "s" in
  let Hc := fresh "Hc" in
  apply atoms_match_cons in H as (c & s & -> & Hc & H);
  apply lit_matches in Hc; subst c.

Ltac match_dot H c Hc :=
  let s := fresh "s" in
  apply atoms_match_cons in H as (c & s & -> & Hc & H);
  apply dot_matches_inv in Hc.

Lemma atoms_match_server_inv s :
  atoms_match server_atoms s = true →
  ∃ c1 c2 c3 post,
    s = server_chars c1 c2 c3 ++ post
    ∧ c1 ≠ Str.LF ∧ c2 ≠ Str.LF ∧ c3 ≠ Str.LF.
Proof.
  intros H. unfold server_atoms in H.
  do 66 match_literal H. match_dot H c1 H1.
  do 7 match_literal H. match_dot H c2 H2.
  do 9 match_literal H. match_dot H c3 H3.
  do 3 match_literal H.
  by exists c1, c2, c3, s.
Qed.

Lemma atoms_match_server c1 c2 c3 post :
  c1 ≠ Str.LF → c2 ≠ Str.LF → c3 ≠ Str.LF →
  atoms_match server_atoms (server_chars c1 c2 c3 ++ post) = true.
Proof.
  intros H1%dot_matches H2%dot_matches H3%dot_matches.
  unfold server_atoms, server_chars.
  cbn [Str.to_list String.list_ascii_of_string app atoms_match].
  rewrite H1, H2, H3. reflexivity.
Qed.

Lemma line_matches_atoms target atoms line :
  Re.re_compile target = Some (Re.One <$> atoms) →
  line_matches target line
  ↔ ∃ pre post, Str.to_list line = pre ++ post ∧ atoms_match atoms post = true.
Proof.
  intros Hc. unfold line_matches.
  rewrite (re_search_compiled _ _ _ Hc). unfold Re.search_regex.
  rewrite <- search_from_atoms with (pos := 0). split.
  - intros (gs & [= Hgs]).
    by destruct (Re.search_from _ (Str.to_list line) 0) as [m|].
  - intros [m ->]. simpl. eauto.
Qed.

Lemma server_pattern_compiled :
  Re.re_compile
    "the server is currently unable to handle the request \(get projects.project.openshift.io\)"
  = Some (Re.One <$> server_atoms).
Proof. reflexivity. Qed.

Lemma contains_to_list sub s :
  contains sub s ↔ ∃ pre post, Str.to_list s = pre ++ Str.to_list sub ++ post.
Proof.
  unfold contains. split.
  - intros (a & b & ->). exists (Str.to_list a), (Str.to_list b).
    by rewrite !to_list_app.
  - intros (pre & post & Hs). exists (Str.of_list pre), (Str.of_list post).
    rewrite <- (String.string_of_list_ascii_of_string s), Hs.
    by rewrite !of_list_app, String.string_of_list_ascii_of_string.
Qed.

Lemma line_matches_server line :
  line_matches
    "the server is currently unable to handle the request \(get projects.project.openshift.io\)"
    line
  ↔ ∃ c1 c2 c3, c1 ≠ Str.LF ∧ c2 ≠ Str.LF ∧ c3 ≠ Str.LF
                ∧ contains (server_text c1 c2 c3) line.
Proof.
  rewrite (line_matches_atoms _ _ _ server_pattern_compiled). split.
  - intros (pre & post & Hline & Hm).
    apply atoms_match_server_inv in Hm as (c1 & c2 & c3 & post' & -> & H1 & H2 & H3).
    exists c1, c2, c3. split; [done|]. split; [done|]. split; [done|].
    apply contains_to_list. exists pre, post'. unfold server_text.
    by rewrite String.list_ascii_of_string_of_list_ascii.
  - intros (c1 & c2 & c3 & H1 & H2 & H3 & Hc).
    apply contains_to_list in Hc as (pre & post & Hline).
    unfold server_text in Hline.
    rewrite String.list_ascii_of_string_of_list_ascii in Hline.
    exists pre, (server_chars c1 c2 c3 ++ post). split; [done|].
    by apply atoms_match_server.
Qed.

Lemma after_scenario_plain :
  forallb plain (Str.to_list "=== After Scenario:") = true.
Proof. reflexivity. Qed.

Lemma runtime_error_plain :
  forallb plain (Str.to_list "RuntimeError: error getting projects by user") = true.
Proof. reflexivity. Qed.

Lemma server_chars_dots c1 c2 c3 :
  c1 ∈ server_chars c1 c2 c3 ∧ c2 ∈ server_chars c1 c2 c3
  ∧ c3 ∈ server_chars c1 c2 c3.
Proof.
  unfold server_chars. split; [|split].
  - apply elem_of_app. right. by left.
  - apply elem_of_app. right. right. apply elem_of_app. right. by left.
  - apply elem_of_app. right. right. apply elem_of_app. right. right.
    apply elem_of_app. right. by left.
Qed.

(** ** The lines of a text *)

Lemma Forall_rev_no_break cur :
  Forall (λ c, Str.is_linebreak c = false) cur →
  Forall (λ c, Str.is_linebreak c = false) (rev cur).
Proof.
  intros Hcur. apply Forall_forall. intros x Hx.
  apply list_elem_of_In, in_rev, list_elem_of_In in Hx.
  by eapply Forall_forall in Hcur.
Qed.

Lemma splitlines_go_no_break n s cur :
  length s ≤ n →
  Forall (λ c, Str.is_linebreak c = false) cur →
  Forall (Forall (λ c, Str.is_linebreak c = false)) (Str.splitlines_go cur s).
Proof.
  revert s cur. induction n as [|n IH]; intros s cur Hn Hcur.
  - destruct s; [|simpl in Hn; lia]. simpl.
    destruct cur; [constructor|].
    constructor; [by apply Forall_rev_no_break|constructor].
  - destruct s as [|c s].
    + simpl. destruct cur; [constructor|].
      constructor; [by apply Forall_rev_no_break|constructor].
    + cbn [Str.splitlines_go]. simpl in Hn.
      destruct (Str.is_linebreak c) eqn:Hc.
      * constructor; [by apply Forall_rev_no_break|].
        destruct (Ascii.eqb c Str.CR); [|apply IH; [lia|constructor]].
        destruct s as [|c' s']; [apply IH; [simpl; lia|constructor]|].
        simpl in Hn.
        destruct (Ascii.eqb c' Str.LF); apply IH; simpl; try lia; constructor.
      * apply IH; [lia|]. by constructor.
Qed.

Lemma splitlines_no_break log line c :
  line ∈ Str.splitlines log → c ∈ Str.to_list line → Str.is_linebreak c = false.
Proof.
  unfold Str.splitlines. intros (chars & -> & Hin)%list_elem_of_fmap Hc.
  rewrite String.list_ascii_of_string_of_list_ascii in Hc.
  pose proof (splitlines_go_no_break _ (Str.to_list log) [] (le_n _)
                (List.Forall_nil _)) as Hall.
  eapply Forall_forall in Hall; [|done]. by eapply Forall_forall in Hall.
Qed.

(** ** The loops over any [re.search] *)

Section AnySearchProofs.

Context (search : string → string → result (option (list string))).

Lemma find_target_with_spec target lines :
  Forall (λ line, returns (search target line)) lines →
  ∃ found, find_target_with search target lines = Ok found
           ∧ (found = true ↔ Exists (line_matches_with search target) lines).
Proof.
  induction 1 as [|line rest Hline _ IH]; simpl.
  - exists false. split; [done|]. split; [done|]. by intros ?%Exists_nil.
  - destruct (search target line) as [[gs|]|e] eqn:Hs; [| |done].
    + exists true. split; [done|]. split; [|done]. intros _.
      apply Exists_cons_hd. by exists gs.
    + destruct IH as (found & -> & Hfound). exists found. split; [done|].
      rewrite Hfound. split; [by apply Exists_cons_tl|].
      intros [[gs Hgs]|?]%Exists_cons; [|done].
      rewrite Hs in Hgs. discriminate.
Qed.

Lemma targets_loop_with_spec lines targets found_all :
  Forall (λ t, Forall (λ line, returns (search t line)) lines) targets →
  ∃ flags, targets_loop_with search lines targets found_all = Ok flags
           ∧ (false ∈ flags ↔
              false ∈ found_all
              ∨ Exists (λ t, ¬ Exists (line_matches_with search t) lines) targets).
Proof.
  intros Hall. revert found_all.
  induction Hall as [|t rest Ht _ IH]; intros found_all; simpl.
  - exists found_all. split; [done|]. rewrite Exists_nil. tauto.
  - destruct (find_target_with_spec t lines Ht) as (found & -> & Hfound).
    destruct (IH ({[found]} ∪ found_all)) as (flags & -> & Hflags).
    exists flags. split; [done|]. rewrite Hflags, Exists_cons.
    rewrite elem_of_union, elem_of_singleton.
    destruct found.
    + assert (Exists (line_matches_with search t) lines) by by apply Hfound.
      split; [intros [[?|?]|?]|intros [?|[?|?]]]; try done; auto.
    + assert (¬ Exists (line_matches_with search t) lines).
      { intros ?%Hfound. discriminate. }
      split; [intros [[?|?]|?]|intros [?|[?|?]]]; auto.
Qed.

Lemma match_ordered_strings_with_spec log targets :
  Forall (λ t, Forall (λ line, returns (search t line)) (Str.splitlines log))
    targets →
  ∃ b, match_ordered_strings_with search log targets = Ok b
       ∧ (b = true ↔ Forall (λ t, found_with search t log) targets).
Proof.
  intros Hall. unfold match_ordered_strings_with.
  destruct (targets_loop_with_spec (Str.splitlines log) targets ∅ Hall)
    as (flags & -> & Hflags).
  eexists. split; [done|]. unfold all. rewrite bool_decide_eq_true, Hflags.
  rewrite elem_of_empty. unfold found_with. split.
  - intros Hno. apply Forall_forall. intros t Ht.
    destruct (decide (Exists (line_matches_with search t) (Str.splitlines log)))
      as [|Hn]; [done|].
    exfalso. apply Hno. right. apply Exists_exists. eauto.
  - intros Hyes [[]|(t & Ht & Hn)%Exists_exists].
    rewrite Forall_forall in Hyes. auto.
Qed.

Lemma match_ordered_strings_with_lines log log' targets :
  Forall (λ t, Forall (λ line, returns (search t line)) (Str.splitlines log))
    targets →
  Str.splitlines log' ≡ₚ Str.splitlines log →
  match_ordered_strings_with search log' targets
  = match_ordered_strings_with search log targets.
Proof.
  intros Hr Hperm.
  assert (Forall (λ t, Forall (λ line, returns (search t line))
                         (Str.splitlines log')) targets) as Hr'.
  { eapply Forall_impl; [exact Hr|]. intros t Ht. simpl in *.
    rewrite Forall_forall in Ht |- *. intros line Hline. apply Ht.
    by rewrite <- Hperm. }
  destruct (match_ordered_strings_with_spec log targets Hr) as (b & -> & Hb).
  destruct (match_ordered_strings_with_spec log' targets Hr') as (b' & -> & Hb').
  f_equal. apply eq_true_iff_eq. rewrite Hb, Hb'.
  apply Forall_iff. intros t. unfold found_with. rewrite !Exists_exists.
  by setoid_rewrite Hperm.
Qed.

End AnySearchProofs.

(** At the [re.search] of the fragment the loops are those of the
    embedding. *)
Lemma match_ordered_strings_with_re log targets :
  match_ordered_strings log targets
  = match_ordered_strings_with Re.re_search log targets.
Proof. reflexivity. Qed.

(** ** Titles of more than one line *)

(** A [.*] that has to reach the end of the text does not get past a line
    feed with text after it. *)
Lemma star_dot_line_feed g u v pos cs :
  v ≠ [] →
  Re.match_here [Re.Star Re.Dot; Re.Close g; Re.Eos] (u ++ Str.LF :: v) pos cs
  = None.
Proof.
  intros Hv. revert pos. induction u as [|c u IH]; intros pos.
  - change ([] ++ Str.LF :: v) with (Str.LF :: v).
    rewrite match_here_star_cons.
    change (Re.atom_matches Re.Dot Str.LF) with false. cbv iota.
    cbn [Re.match_here]. by destruct v.
  - change ((c :: u) ++ Str.LF :: v) with (c :: (u ++ Str.LF :: v)).
    rewrite match_here_star_cons, IH.
    assert (Re.match_here [Re.Close g; Re.Eos] (c :: u ++ Str.LF :: v) pos cs
            = None) as ->.
    { cbn [Re.match_here]. by destruct u. }
    by destruct (Re.atom_matches Re.Dot c).
Qed.

Lemma separator_line_feed u v pos cs :
  v ≠ [] →
  Re.match_here (tail profile_regex) (u ++ Str.LF :: v) pos cs = None.
Proof.
  intros Hv.
  destruct (decide (separator `prefix_of` u ++ Str.LF :: v)) as [[b Hb]|Hno].
  - rewrite Hb, separator_here.
    destruct u as [|c1 [|c2 [|c3 u]]]; try discriminate Hb.
    injection Hb as _ _ _ <-. by apply star_dot_line_feed.
  - apply separator_not_here. intros b Hb. apply Hno. by exists b.
Qed.

(** The pattern of the profile does not match from before a line feed
    that has text after it. *)
Lemma profile_regex_line_feed u v pos cs :
  v ≠ [] →
  Re.match_here profile_regex (u ++ Str.LF :: v) pos cs = None.
Proof.
  intros Hv. revert pos. induction u as [|c u IH]; intros pos.
  - change ([] ++ Str.LF :: v) with (Str.LF :: v).
    rewrite profile_regex_cons.
    change (Re.atom_matches Re.Dot Str.LF) with false. cbv iota.
    by apply (separator_line_feed []).
  - change ((c :: u) ++ Str.LF :: v) with (c :: (u ++ Str.LF :: v)).
    rewrite profile_regex_cons, IH.
    pose proof (separator_line_feed (c :: u) v pos cs Hv) as Htail.
    change ((c :: u) ++ Str.LF :: v) with (c :: (u ++ Str.LF :: v)) in Htail.
    rewrite Htail. by destruct (Re.atom_matches Re.Dot c).
Qed.

(** The search goes on after the line feed. *)
Lemma search_from_line_feed u v pos :
  v ≠ [] →
  Re.search_from profile_regex (u ++ Str.LF :: v) pos
  = Re.search_from profile_regex v (pos + S (length u)).
Proof.
  intros Hv. revert pos. induction u as [|c u IH]; intros pos.
  - rewrite (search_from_eq profile_regex ([] ++ Str.LF :: v) pos).
    rewrite profile_regex_line_feed by done.
    simpl. f_equal. lia.
  - rewrite (search_from_eq profile_regex ((c :: u) ++ Str.LF :: v) pos).
    rewrite profile_regex_line_feed by done.
    change ((c :: u) ++ Str.LF :: v) with (c :: (u ++ Str.LF :: v)).
    cbv iota. rewrite IH. f_equal. simpl. lia.
Qed.

Lemma separator_no_line_feed : Str.LF ∉ separator.
Proof. apply (bool_decide_unpack _). by vm_compute. Qed.

(** The search finds the last separator when no line feed follows it, and
    the group is the text after it. *)
Lemma search_from_last_separator pre suf :
  Str.LF ∉ suf →
  ¬ occurs separator (tail (separator ++ suf)) →
  ∃ m, Re.search_from profile_regex (pre ++ separator ++ suf) 0 = Some m
       ∧ Re.starts m !! 1 = Some (length pre + length separator)
       ∧ Re.ends m !! 1 = Some (length (pre ++ separator ++ suf)).
Proof.
  intros Hsuf Hlast.
  assert (∀ line pos,
            Str.LF ∉ line →
            ∃ m, Re.search_from profile_regex (line ++ separator ++ suf) pos
                 = Some m
                 ∧ Re.starts m !! 1 = Some (pos + length line + length separator)
                 ∧ Re.ends m !! 1
                   = Some (pos + length (line ++ separator ++ suf)))
    as Hline.
  { intros line pos Hl.
    rewrite (search_from_eq profile_regex (line ++ separator ++ suf) pos).
    rewrite profile_regex_last_separator; [| |done].
    2: { rewrite !not_elem_of_app. auto using separator_no_line_feed. }
    eexists. split; [done|]. cbn [Re.starts Re.ends].
    rewrite !lookup_insert_eq. split; [|done].
    f_equal; simpl; lia. }
  destruct (decide (Str.LF ∈ pre)) as [Hin|Hnot].
  - apply list_elem_of_split_r in Hin as (h & line & -> & Hl).
    rewrite <- app_assoc.
    change ((Str.LF :: line) ++ separator ++ suf)
      with (Str.LF :: (line ++ separator ++ suf)).
    rewrite search_from_line_feed by (by destruct line).
    destruct (Hline line (0 + S (length h)) Hl) as (m & -> & Hs & He).
    exists m. split; [done|]. rewrite Hs, He.
    split; f_equal; solve_length.
  - destruct (Hline pre 0 Hnot) as (m & -> & Hs & He).
    exists m. split; [done|]. by rewrite Hs, He.
Qed.

(** The profile of a title with no line feed after its last separator. *)
Lemma run_profile_after_last t rs post :
  text_after_last separator (Str.to_list t) = Some post →
  Str.LF ∉ post →
  run_profile {| title := t; records_TestRecord := rs |} = Ok (Str.of_list post).
Proof.
  intros Ht Hlf.
  apply text_after_last_Some in Ht as (pre & Hpre & Hlast); [|done].
  unfold run_profile. cbn [title].
  rewrite (re_search_compiled _ _ _ profile_regex_compiled).
  unfold Re.search_regex. rewrite Hpre.
  destruct (search_from_last_separator pre post Hlf Hlast) as (m & -> & Hs & He).
  cbn [fmap option_fmap option_map first_group Re.groups_of Re.count_groups
       profile_regex seq list_fmap].
  by rewrite Hs, He, slice_suffix.
Qed.

(** A title without the separator has no profile, whatever its lines. *)
Lemma run_profile_no_last t rs :
  text_after_last separator (Str.to_list t) = None →
  run_profile {| title := t; records_TestRecord := rs |}
  = Raise (AttributeError "'NoneType' object has no attribute 'groups'").
Proof.
  intros Ht. apply text_after_last_None in Ht; [|done].
  apply run_profile_no_separator. intros a b ->. apply Ht.
  rewrite !to_list_app. by exists (Str.to_list a), (Str.to_list b).
Qed.

(** ** An author line without the domain *)

Lemma get_owner_unmatched E ascript testid out :
  check_output E (owner_command E ascript testid) = Ok out →
  Re.re_search "author\s*(.*)@redhat.com" (Str.rstrip out) = Ok None →
  get_owner E ascript testid
  = Raise (AttributeError "'NoneType' object has no attribute 'groups'").
Proof.
  intros Hout Hnone. unfold get_owner. unfold owner_command in Hout.
  cbv zeta. by rewrite Hout, Hnone.
Qed.

Lemma process_record_no_owner E profile record st script e :
  result_status record = "Failed" →
  get_automation_script (customFields_Custom record) = Ok script →
  get_owner E script (test_case_id record) = Raise e →
  process_record E profile record st = (Raise e, st).
Proof.
  intros Hr Hs Ho. unfold process_record. rewrite decide_True by done.
  destruct (get_link_to_log_ok (comment_content record)) as [link Hl].
  unfold bind, lift. by rewrite Hl, Hs, Ho.
Qed.

(** * The properties of the specification, one by one *)

Ltac by_evaluation :=
  match goal with
  | |- ?P => apply (bool_decide_unpack P); vm_compute; exact I
  end.

(** ** The matching of a rule *)

(** C1.  A rule matches exactly when each of its patterns is found on some
    line of the log, the patterns being looked for one by one and the order
    of the lines playing no part.  This holds of the loops of
    [match_ordered_strings] for every [re.search] whose calls return, the
    one of the embedding being one of them.  For the registered rule: a
    finder with nothing found yet returns the one description "After
    scenario RuntimeError raised while getting project during cleanup."
    when each of "=== After Scenario:", "the server is currently unable
    to handle the request \(get projects.project.openshift.io\)" and
    "RuntimeError: error getting projects by user" is found on some line,
    and the empty list when one of them is not. *)
Theorem rule_matches_iff_each_pattern_on_some_line
    (search : string → string → result (option (list string)))
    (E : env) (log : string) (targets : list string) (self : IssuesFinder)
    (test_info : attrs) (url : string) (st st1 : state) :
  Forall (λ t, Forall (λ line, returns (search t line)) (Str.splitlines log))
    targets →
  logs test_info = Some url →
  get_file_from_url E url st = (Ok log, st1) →
  contents st (issues_found self) = [] →
  (∃ b, match_ordered_strings_with search log targets = Ok b
        ∧ (b = true ↔ Forall (λ t, found_with search t log) targets))
  ∧ (∀ log', Str.splitlines log' ≡ₚ Str.splitlines log →
       match_ordered_strings_with search log' targets
       = match_ordered_strings_with search log targets)
  ∧ (∀ log targets,
       match_ordered_strings log targets
       = match_ordered_strings_with Re.re_search log targets)
  ∧ ∃ st2,
      find_issues E IssuesFinder_body self test_info st
      = (Ok (issues_found self), st2)
      ∧ contents st2 (issues_found self)
        = if decide
               (Forall (λ t, found_in t log)
                  [ "=== After Scenario:";
                    "the server is currently unable to handle the request \(get projects.project.openshift.io\)";
                    "RuntimeError: error getting projects by user" ])
          then ["After scenario RuntimeError raised while getting project during cleanup."]
          else [].
Proof.
  intros Hreturns Hlogs Hfetch Hempty. split; [|split; [|split]].
  - by apply match_ordered_strings_with_spec.
  - intros log' Hperm. by apply match_ordered_strings_with_lines.
  - intros log0 targets0. apply match_ordered_strings_with_re.
  - destruct (find_issues_spec E IssuesFinder_body self test_info url log st st1
                _ Hlogs Hfetch (registered_results log))
      as (st2 & Hfi & Hcontents & _).
    exists st2. split; [done|]. rewrite Hcontents, Hempty.
    change (Forall (λ t, found_in t log)
              [ "=== After Scenario:";
                "the server is currently unable to handle the request \(get projects.project.openshift.io\)";
                "RuntimeError: error getting projects by user" ])
      with (Forall (λ t, found_in t log) re_strings).
    by destruct (decide _).
Qed.

(** The lines of [log_hit] are in the reverse of the order of the
    patterns: the description is found.  [log_miss] lacks the line of the
    first pattern: nothing is found. *)
Lemma rule_matches_witness :
  (∃ st2,
     find_issues E_hit IssuesFinder_body {| issues_found := 0 |} sample_attrs st0
     = (Ok 0, st2)
     ∧ contents st2 0
       = ["After scenario RuntimeError raised while getting project during cleanup."])
  ∧ (∃ st2,
       find_issues E_version IssuesFinder_body {| issues_found := 0 |}
         sample_attrs st0
       = (Ok 0, st2)
       ∧ contents st2 0 = [])
  ∧ match_ordered_strings log_hit re_strings = Ok true
  ∧ match_ordered_strings log_miss re_strings = Ok false.
Proof.
  destruct (rule_matches_iff_each_pattern_on_some_line Re.re_search
              E_hit log_hit re_strings {| issues_found := 0 |} sample_attrs
              "http://logs.example/T1" st0 (sent 1 "http://logs.example/T1" st0))
    as ((b & Hb & Hhit) & _ & Hre & st2 & Hfi & Hcontents).
  { by_evaluation. }
  { reflexivity. }
  { reflexivity. }
  { reflexivity. }
  destruct (rule_matches_iff_each_pattern_on_some_line Re.re_search
              E_version log_miss re_strings {| issues_found := 0 |} sample_attrs
              "http://logs.example/T1" st0 (sent 1 "http://logs.example/T1" st0))
    as ((b' & Hb' & Hmiss) & _ & _ & st2' & Hfi' & Hcontents').
  { by_evaluation. }
  { reflexivity. }
  { reflexivity. }
  { reflexivity. }
  cbn [issues_found] in Hfi, Hcontents, Hfi', Hcontents'.
  split; [|split; [|split]].
  - exists st2. split; [exact Hfi|]. rewrite Hcontents.
    rewrite decide_True; [reflexivity|]. by_evaluation.
  - exists st2'. split; [exact Hfi'|]. rewrite Hcontents'.
    rewrite decide_False; [reflexivity|]. by_evaluation.
  - rewrite Hre, Hb. f_equal. apply Hhit. by_evaluation.
  - rewrite Hre, Hb'. f_equal. destruct b'; [|reflexivity].
    exfalso. assert (¬ Forall (λ t, found_with Re.re_search t log_miss) re_strings)
      as Hno by by_evaluation.
    apply Hno, Hmiss. reflexivity.
Defined.

(** C10.  With no target at all, [match_ordered_strings] answers [True]
    for every log, the empty one included. *)
Theorem match_ordered_strings_no_targets (log : string) :
  match_ordered_strings log [] = Ok true.
Proof. reflexivity. Qed.

(** ** The log fetcher *)

(** C2.  [get_file_from_url] sends between one and three requests, each
    for the same URL and each a request of its own; when every transfer
    is cut short it sends three, never a fourth; the first attempt that
    returns a text is the last one, and that text is the result. *)
Theorem get_file_from_url_at_most_three_attempts
    (E : env) (url : string) (st : state) :
  ∃ n, n ≤ 3
       ∧ snd (get_file_from_url E url st) = sent n url st
       ∧ ((∀ hist, urlopen_read E hist url = Raise IncompleteRead) → n = 3)
       ∧ (∀ k text,
            k < 3 →
            (∀ j, j < k → attempt E url st j = Raise IncompleteRead) →
            attempt E url st k = Ok text →
            n = S k ∧ fst (get_file_from_url E url st) = Ok text).
Proof.
  destruct (get_file_from_url_sent E url st) as (n & Hn & Hsent).
  exists n. split; [done|]. split; [done|]. split.
  - intros Halways.
    rewrite get_file_from_url_truncated in Hsent by (intros; apply Halways).
    by apply sent_inj in Hsent.
  - intros k text Hk Hbefore Hok.
    rewrite (get_file_from_url_settled E url st k (Ok text)) in Hsent |- * by done.
    by apply sent_inj in Hsent.
Qed.

(** Three requests when every transfer is cut short, one when the first
    succeeds. *)
Lemma get_file_from_url_attempts_witness :
  requests (snd (get_file_from_url E_truncated "http://logs.example/T1" st0))
  = ["http://logs.example/T1"; "http://logs.example/T1"; "http://logs.example/T1"]
  ∧ requests (snd (get_file_from_url E_hit "http://logs.example/T1" st0))
    = ["http://logs.example/T1"].
Proof.
  split.
  - destruct (get_file_from_url_at_most_three_attempts
                E_truncated "http://logs.example/T1" st0)
      as (n & _ & -> & Hall & _).
    rewrite (Hall (λ _, eq_refl)). reflexivity.
  - destruct (get_file_from_url_at_most_three_attempts
                E_hit "http://logs.example/T1" st0)
      as (n & _ & -> & _ & Hfirst).
    destruct (Hfirst 0 log_hit) as [-> _]; [lia|intros; lia|reflexivity|].
    reflexivity.
Defined.

(** C3.  When every transfer is cut short, the third attempt is followed
    by [return content] with [content] never bound: the call raises
    [UnboundLocalError] where the spec has it return. *)
Theorem get_file_from_url_raises_when_all_truncated
    (E : env) (url : string) (st : state) :
  (∀ hist, urlopen_read E hist url = Raise IncompleteRead) →
  get_file_from_url E url st
  = (Raise (UnboundLocalError "content"), sent 3 url st).
Proof. intros Halways. apply get_file_from_url_truncated. intros; apply Halways. Qed.

(** In the world where every transfer is cut short, the call raises. *)
Lemma get_file_from_url_raises_witness :
  fst (get_file_from_url E_truncated "http://logs.example/T1" st0)
  = Raise (UnboundLocalError "content").
Proof.
  rewrite (get_file_from_url_raises_when_all_truncated
             E_truncated "http://logs.example/T1" st0 (λ _, eq_refl)).
  reflexivity.
Defined.

(** ** The aggregation *)

(** C4.  An owner called [version] meets the version string of the report:
    with a version given, the insert raises [AttributeError] and so does
    [main]; the record is not aggregated. *)
Theorem report_insert_owner_version :
  report_insert "version" "features/cli/a.feature" "T1" sample_attrs
    {[ "version" := Version "4.14" ]}
  = Raise (AttributeError "'str' object has no attribute 'get'")
  ∧ get_owner E_version "features/cli/a.feature" "T1" = Ok "version"
  ∧ fst (main E_version sample_args st0)
    = Raise (AttributeError "'str' object has no attribute 'get'").
Proof. split; [|split]; by vm_compute. Qed.

(** ** The classifier *)

(** C5, as the spec states it, fails: [dir] sorts the names, so two rules
    written as [issue_b] then [issue_a] are evaluated as [issue_a] then
    [issue_b]. *)
Lemma registration_order_counterexample :
  matched_in_definition_order two_rules log_hit = ["B"; "A"]
  ∧ fst (classify E_hit two_rules sample_attrs st0) = Ok ["A"; "B"]
  ∧ fst (classify E_hit two_rules sample_attrs st0)
    ≠ Ok (matched_in_definition_order two_rules log_hit).
Proof. split; [|split]; by vm_compute. Qed.

(** C5, amended.  The rules are the names of the object that start with
    [issue_], each once, in ascending order of the names; the classifier
    returns the descriptions of those that match, in that order, whatever
    the log. *)
Theorem find_issues_in_name_order
    (E : env) (body : class_body) (test_info : attrs) (url log : string)
    (results : list (option string)) (st : state) :
  logs test_info = Some url →
  fst (get_file_from_url E url st) = Ok log →
  (λ name, call (getattr body name) log) <$> issue_names body = Ok <$> results →
  StronglySorted String.le (issue_names body)
  ∧ NoDup (issue_names body)
  ∧ (∀ name, name ∈ issue_names body
             ↔ Str.startswith "issue_" name = true ∧ name ∈ body.*1)
  ∧ ∃ st', classify E body test_info st = (Ok (matched results), st').
Proof.
  intros Hlogs Hfetch Hres.
  split; [apply issue_names_sorted|].
  split; [apply issue_names_NoDup|].
  split; [apply elem_of_issue_names|].
  destruct (classify_spec E body test_info log results st) as [st' Hst'].
  - intros url' Hurl'. rewrite Hlogs in Hurl'. by injection Hurl' as <-.
  - unfold get_issue_methods. by rewrite <- list_fmap_compose.
  - exists st'. by rewrite Hlogs in Hst'.
Qed.

(** The two rules of [two_rules] are evaluated by name. *)
Lemma find_issues_in_name_order_witness :
  issue_names two_rules = ["issue_a"; "issue_b"]
  ∧ ∃ st', classify E_hit two_rules sample_attrs st0 = (Ok ["A"; "B"], st').
Proof.
  split; [reflexivity|].
  destruct (find_issues_in_name_order E_hit two_rules sample_attrs
              "http://logs.example/T1" log_hit [Some "A"; Some "B"] st0)
    as (_ & _ & _ & st' & Hst').
  - reflexivity.
  - reflexivity.
  - reflexivity.
  - exists st'. exact Hst'.
Defined.

(** C6, as the spec states it, fails on one finder: the second call
    returns the description twice, and the list returned first has become
    that list too. *)
Lemma find_issues_twice_counterexample :
  fst (find_issues_twice E_hit IssuesFinder_body sample_attrs st0)
  = Ok ([cleanup_description],
        [cleanup_description; cleanup_description],
        [cleanup_description; cleanup_description])
  ∧ [cleanup_description] ≠ [cleanup_description; cleanup_description].
Proof. split; by vm_compute. Qed.

(** C6, amended.  With a finder of its own for each classification, as
    [main] makes one for each record, classifying twice a log that is
    fetched with the same text gives the same descriptions in the same
    order. *)
Theorem classify_twice_same
    (E : env) (body : class_body) (test_info : attrs) (log : string)
    (results : list (option string)) (st : state) :
  (∀ url, logs test_info = Some url →
          ∀ st', fst (get_file_from_url E url st') = Ok log) →
  (λ m, call m log) <$> get_issue_methods body = Ok <$> results →
  let issues := match logs test_info with
                | Some _ => matched results
                | None => []
                end in
  ∃ st', classify_twice E body test_info st = (Ok (issues, issues), st').
Proof.
  intros Hfetch Hres issues. unfold classify_twice.
  destruct (classify_spec E body test_info log results st) as [st1 H1];
    [by intros; apply Hfetch|done|].
  destruct (classify_spec E body test_info log results st1) as [st2 H2];
    [by intros; apply Hfetch|done|].
  exists st2. unfold bind at 1. rewrite H1.
  unfold bind at 1. by rewrite H2.
Qed.

(** The two classifications of the sample record both give the one
    description. *)
Lemma classify_twice_witness :
  ∃ st',
    classify_twice E_hit IssuesFinder_body sample_attrs st0
    = (Ok ([cleanup_description], [cleanup_description]), st').
Proof.
  apply (classify_twice_same E_hit IssuesFinder_body sample_attrs log_hit
           [Some cleanup_description] st0).
  - intros url _ st'. reflexivity.
  - rewrite registered_results. rewrite decide_True; [reflexivity|].
    by_evaluation.
Defined.

(** ** The owner of a failed test *)

(** When the command of the lookup exits with an error, [get_owner]
    returns "Not found" and the record goes on: once its log is fetched it
    is in the report under the owner "Not found". *)
Theorem get_owner_not_found_sentinel
    (E : env) (ascript testid : string) (prof : string) (record : test_record)
    (link : option string) (script : string) (st : state) :
  check_output E (owner_command E ascript testid) = Raise CalledProcessError →
  result_status record = "Failed" →
  get_link_to_log (comment_content record) = Ok link →
  get_automation_script (customFields_Custom record) = Ok script →
  check_output E (owner_command E script (test_case_id record))
  = Raise CalledProcessError →
  (∀ url, link = Some url → ∃ log, fst (get_file_from_url E url st) = Ok log) →
  well_formed (report_struct st) →
  get_owner E ascript testid = Ok "Not found"
  ∧ ∃ st' a,
      process_record E prof record st = (Ok tt, st')
      ∧ report_lookup (report_struct st') "Not found" script (test_case_id record)
        = Some a
      ∧ case a = test_case_id record ∧ logs a = link ∧ profile a = prof.
Proof.
  intros Hfail Hr Hl Hs Hfail' Hfetch Hwf.
  split; [by apply get_owner_not_found|].
  destruct (process_record_aggregates E prof record st link script "Not found")
    as (st' & a & Hrun & Hat & Hcase & Hlogs & Hprof & _); try done.
  - by apply get_owner_not_found.
  - intros v Hv. by apply Hwf in Hv.
  - by exists st', a.
Qed.

(** The sample record, in a world where no owner is found. *)
Lemma get_owner_not_found_witness :
  get_owner E_hit "features/cli/a.feature" "T1" = Ok "Not found"
  ∧ ∃ st' a,
      process_record E_hit "aws-ipi" sample_record st0 = (Ok tt, st')
      ∧ report_lookup (report_struct st') "Not found" "features/cli/a.feature" "T1"
        = Some a
      ∧ case a = "T1" ∧ logs a = Some "http://logs.example/T1"
      ∧ profile a = "aws-ipi".
Proof.
  apply (get_owner_not_found_sentinel E_hit "features/cli/a.feature" "T1"
           "aws-ipi" sample_record (Some "http://logs.example/T1")
           "features/cli/a.feature" st0).
  - reflexivity.
  - reflexivity.
  - reflexivity.
  - reflexivity.
  - reflexivity.
  - intros url _. exists log_hit. reflexivity.
  - intros k v Hk. unfold st0 in Hk. cbn [report_struct] in Hk.
    rewrite lookup_empty in Hk. discriminate Hk.
Defined.

(** C7.  A lookup whose command succeeds and finds an author line that
    has no name before [@redhat.com] in it fails too, and this failure is
    not turned into "Not found": [re.search] returns [None], [get_owner]
    raises [AttributeError], and the exception ends the record and the
    records after it, the report staying as it was before the record. *)
Theorem get_owner_author_without_domain_raises
    (E : env) (prof : string) (record : test_record) (script out : string)
    (st : state) :
  result_status record = "Failed" →
  get_automation_script (customFields_Custom record) = Ok script →
  check_output E (owner_command E script (test_case_id record)) = Ok out →
  Re.re_search "author\s*(.*)@redhat.com" (Str.rstrip out) = Ok None →
  let e := AttributeError "'NoneType' object has no attribute 'groups'" in
  get_owner E script (test_case_id record) = Raise e
  ∧ get_owner E script (test_case_id record) ≠ Ok "Not found"
  ∧ process_record E prof record st = (Raise e, st)
  ∧ ∀ before after st0,
      process_records E prof before st0 = (Ok tt, st) →
      process_records E prof (before ++ record :: after) st0 = (Raise e, st).
Proof.
  intros Hr Hs Hout Hnone e.
  assert (get_owner E script (test_case_id record) = Raise e) as Ho
    by by apply (get_owner_unmatched E script (test_case_id record) out).
  assert (process_record E prof record st = (Raise e, st)) as Hrec
    by by apply (process_record_no_owner E prof record st script).
  split; [done|]. split; [by rewrite Ho|]. split; [done|].
  intros before after st0 Hbefore.
  rewrite (process_records_app prof E before _ st0 st Hbefore).
  by apply process_records_raise.
Qed.

(** The sample record in a world where the author line of every script
    reads [alice@example.com]: the record is not aggregated and [main]
    ends with the exception. *)
Lemma get_owner_author_without_domain_witness :
  get_owner E_other_domain "features/cli/a.feature" "T1"
  = Raise (AttributeError "'NoneType' object has no attribute 'groups'")
  ∧ process_record E_other_domain "aws-ipi" sample_record st0
    = (Raise (AttributeError "'NoneType' object has no attribute 'groups'"), st0)
  ∧ fst (main E_other_domain sample_args st0)
    = Raise (AttributeError "'NoneType' object has no attribute 'groups'").
Proof.
  destruct (get_owner_author_without_domain_raises E_other_domain "aws-ipi"
              sample_record "features/cli/a.feature"
              ("  # @author alice@example.com" +:+ nl) st0)
    as (Ho & _ & Hrec & _).
  - reflexivity.
  - reflexivity.
  - reflexivity.
  - reflexivity.
  - split; [exact Ho|]. split; [exact Hrec|]. reflexivity.
Defined.

(** ** The profile of a run *)

(** C8, as the spec states it, fails on a title with a line feed.  When
    the title ends with one, the profile stops before it and the text
    after the last separator does not; when text follows the line feed,
    the title has the separator and yet no profile. *)
Lemma run_profile_line_feed_counterexample :
  run_profile {| title := "Nightly 4.14 - aws-ipi" +:+ nl; records_TestRecord := [] |}
  = Ok "aws-ipi"
  ∧ text_after_last separator (Str.to_list ("Nightly 4.14 - aws-ipi" +:+ nl))
    = Some (Str.to_list ("aws-ipi" +:+ nl))
  ∧ "aws-ipi" ≠ "aws-ipi" +:+ nl
  ∧ run_profile {| title := "Nightly 4.14 - aws-ipi" +:+ nl +:+ "rerun";
                   records_TestRecord := [] |}
    = Raise (AttributeError "'NoneType' object has no attribute 'groups'").
Proof. repeat split; by vm_compute. Qed.

(** C8, amended.  For a title with no line feed after its last " - ",
    the profile is the text after that last " - ", wherever line feeds
    stand before it; a title without " - " has no profile; and a title the
    pattern does not match raises [AttributeError], which ends the run and
    the runs after it with the state as it was. *)
Theorem run_profile_after_last_separator
    (E : env) (run : string) (output : testrun) (rest : list string) (st : state) :
  get_testrun_json E run = Ok output →
  (∀ post,
     text_after_last separator (Str.to_list (title output)) = Some post →
     Str.LF ∉ post →
     run_profile output = Ok (Str.of_list post))
  ∧ (text_after_last separator (Str.to_list (title output)) = None →
     run_profile output
     = Raise (AttributeError "'NoneType' object has no attribute 'groups'"))
  ∧ (Re.re_search ".* - (.*)$" (title output) = Ok None →
     run_profile output
     = Raise (AttributeError "'NoneType' object has no attribute 'groups'")
     ∧ process_runs E (run :: rest) st
       = (Raise (AttributeError "'NoneType' object has no attribute 'groups'"), st)).
Proof.
  intros Hrun. split; [|split].
  - intros post Hpost Hlf. destruct output as [t rs].
    by apply run_profile_after_last.
  - intros Hnone. destruct output as [t rs]. by apply run_profile_no_last.
  - intros Hnone. split; [by apply run_profile_unmatched|].
    cbn [process_runs]. apply bind_raise.
    apply (process_run_no_profile E run output); [done|].
    by apply run_profile_unmatched.
Qed.

(** Scenario C of the spec, and a title of two lines with the separator
    on the second. *)
Lemma run_profile_after_last_separator_witness :
  run_profile sample_run = Ok "aws-ipi"
  ∧ run_profile two_line_run = Ok "aws-ipi".
Proof.
  split.
  - destruct (run_profile_after_last_separator E_hit "20210909-0851" sample_run
                [] st0) as (Hprofile & _ & _).
    + reflexivity.
    + apply (Hprofile (Str.to_list "aws-ipi")); [reflexivity|]. by_evaluation.
  - destruct (run_profile_after_last_separator
                {| urlopen_read := urlopen_read E_hit;
                   check_output := check_output E_hit;
                   BUSHSLICER_HOME := BUSHSLICER_HOME E_hit;
                   get_testrun_json := λ _, Ok two_line_run |}
                "20210909-0851" two_line_run [] st0) as (Hprofile & _ & _).
    + reflexivity.
    + apply (Hprofile (Str.to_list "aws-ipi")); [reflexivity|]. by_evaluation.
Defined.

(** ** The script of a failed test *)

(** C9.  A failed record without a field [automation_script], or whose
    first such field has no path [file: features...feature] in it, makes
    [get_automation_script] raise; the exception ends the record and the
    records after it, and the state, the report in it, stays as it was
    before the record. *)
Theorem get_automation_script_hard_error
    (E : env) (prof : string) (record : test_record) (st : state) :
  result_status record = "Failed" →
  ((∀ cf, cf ∈ customFields_Custom record → key cf ≠ "automation_script")
   ∨ ∃ before cf after,
       customFields_Custom record = before ++ cf :: after
       ∧ (∀ c, c ∈ before → key c ≠ "automation_script")
       ∧ key cf = "automation_script"
       ∧ (Re.re_search "file: (features.*feature)" (value_content cf) = Ok None
          ∨ Re.re_search "file: (features.*feature)\n" (value_content cf) = Ok None)) →
  ∃ e,
    get_automation_script (customFields_Custom record) = Raise e
    ∧ process_record E prof record st = (Raise e, st)
    ∧ ∀ before after st0,
        process_records E prof before st0 = (Ok tt, st) →
        process_records E prof (before ++ record :: after) st0 = (Raise e, st).
Proof.
  intros Hr Hbad.
  assert (∃ e, get_automation_script (customFields_Custom record) = Raise e)
    as [e He].
  { destruct Hbad as [Hno|(before & cf & after & -> & Hno & Hk & Hcontent)].
    - eexists. by apply get_automation_script_no_field.
    - eexists. rewrite get_automation_script_first by done.
      assert (Re.re_search "file: (features.*feature)\n" (value_content cf)
              = Ok None) as ->; [|done].
      destruct Hcontent as [Hshort|Hfull]; [|done].
      by apply script_pattern_needs_path. }
  exists e. split; [done|].
  assert (process_record E prof record st = (Raise e, st)) as Hrec
    by by apply process_record_no_script.
  split; [done|].
  intros before after st0 Hbefore.
  rewrite (process_records_app prof E before _ st0 st Hbefore).
  by apply process_records_raise.
Qed.

(** A record without the field. *)
Lemma get_automation_script_hard_error_witness :
  ∃ e,
    get_automation_script (customFields_Custom record_without_script) = Raise e
    ∧ process_record E_hit "aws-ipi" record_without_script st0 = (Raise e, st0)
    ∧ ∀ before after st,
        process_records E_hit "aws-ipi" before st = (Ok tt, st0) →
        process_records E_hit "aws-ipi" (before ++ record_without_script :: after) st
        = (Raise e, st0).
Proof.
  apply (get_automation_script_hard_error E_hit "aws-ipi" record_without_script st0).
  - reflexivity.
  - left. intros cf Hcf. apply list_elem_of_singleton in Hcf. subst cf.
    discriminate.
Defined.

(** * Further properties of the code *)

(** ** The log fetcher *)

(** X1.  An exception other than [IncompleteRead] is not retried: the
    attempt that raises it is the last one and the caller gets that
    exception. *)
Theorem get_file_from_url_other_error_not_retried
    (E : env) (url : string) (st : state) (k : nat) (e : exn) :
  k < 3 →
  (∀ j, j < k → attempt E url st j = Raise IncompleteRead) →
  attempt E url st k = Raise e →
  e ≠ IncompleteRead →
  get_file_from_url E url st = (Raise e, sent (S k) url st).
Proof.
  intros Hk Hbefore He Hne.
  apply (get_file_from_url_settled E url st k (Raise e)); try done.
  congruence.
Qed.

(** One transfer cut short, then a refusal: two requests, and the refusal
    reaches the caller. *)
Lemma get_file_from_url_other_error_witness :
  get_file_from_url E_refused "http://logs.example/T1" st0
  = (Raise (ExternalError "HTTPError"), sent 2 "http://logs.example/T1" st0).
Proof.
  apply (get_file_from_url_other_error_not_retried
           E_refused "http://logs.example/T1" st0 1 (ExternalError "HTTPError")).
  - lia.
  - intros j Hj. assert (j = 0) as -> by lia. reflexivity.
  - reflexivity.
  - discriminate.
Defined.

(** X2.  A text that [get_file_from_url] returns is the text of one of its
    three attempts, the first that was not cut short; the call changes
    nothing but the requests sent. *)
Theorem get_file_from_url_returns_first_text
    (E : env) (url text : string) (st st' : state) :
  get_file_from_url E url st = (Ok text, st') →
  ∃ k, k < 3
       ∧ (∀ j, j < k → attempt E url st j = Raise IncompleteRead)
       ∧ attempt E url st k = Ok text
       ∧ st' = sent (S k) url st.
Proof.
  intros Hget.
  assert (∀ k r, k < 3 →
            (∀ j, j < k → attempt E url st j = Raise IncompleteRead) →
            attempt E url st k = r → r ≠ Raise IncompleteRead →
            ∃ k, k < 3
                 ∧ (∀ j, j < k → attempt E url st j = Raise IncompleteRead)
                 ∧ attempt E url st k = Ok text
                 ∧ st' = sent (S k) url st) as Hsettled.
  { intros k r Hk Hbefore Hr Hne.
    rewrite (get_file_from_url_settled E url st k r Hk Hbefore Hr Hne) in Hget.
    injection Hget as -> <-. by exists k. }
  assert (∀ k, k ≤ 3 →
            (∀ j, j < k → attempt E url st j = Raise IncompleteRead) →
            ∃ k, k < 3
                 ∧ (∀ j, j < k → attempt E url st j = Raise IncompleteRead)
                 ∧ attempt E url st k = Ok text
                 ∧ st' = sent (S k) url st) as Hfrom.
  { intros k Hk. remember (3 - k) as d eqn:Hd. revert k Hk Hd.
    induction d as [|d IH]; intros k Hk Hd Hbefore.
    - assert (k = 3) as -> by lia.
      rewrite get_file_from_url_truncated in Hget by done. discriminate.
    - assert (attempt E url st k = Raise IncompleteRead
              ∨ attempt E url st k ≠ Raise IncompleteRead) as [Ht|Ht].
      { destruct (attempt E url st k) as [t|e]; [by right|].
        destruct e; first [by left | by right]. }
      + apply (IH (S k)); [lia|lia|].
        intros j Hj. destruct (decide (j = k)) as [->|]; [done|].
        apply Hbefore. lia.
      + apply (Hsettled k (attempt E url st k)); [lia|done|done|done]. }
  apply (Hfrom 0); [lia|]. intros j Hj. lia.
Qed.

(** In the world of [E_hit] the first attempt gives the text. *)
Lemma get_file_from_url_returns_first_text_witness :
  ∃ k, k < 3
       ∧ (∀ j, j < k →
            attempt E_hit "http://logs.example/T1" st0 j = Raise IncompleteRead)
       ∧ attempt E_hit "http://logs.example/T1" st0 k = Ok log_hit
       ∧ sent 1 "http://logs.example/T1" st0
         = sent (S k) "http://logs.example/T1" st0.
Proof.
  apply (get_file_from_url_returns_first_text E_hit "http://logs.example/T1"
           log_hit st0 (sent 1 "http://logs.example/T1" st0)).
  reflexivity.
Defined.

(** ** The classifier *)

(** X3.  [find_issues] appends to the list of its finder and returns that
    list: on one finder a second call on the same log returns the
    descriptions twice, and the list returned by the first call has become
    that list. *)
Theorem find_issues_twice_accumulates
    (E : env) (body : class_body) (test_info : attrs) (url log : string)
    (results : list (option string)) (st : state) :
  logs test_info = Some url →
  (∀ st', fst (get_file_from_url E url st') = Ok log) →
  (λ m, call m log) <$> get_issue_methods body = Ok <$> results →
  ∃ st',
    find_issues_twice E body test_info st
    = (Ok (matched results,
           matched results ++ matched results,
           matched results ++ matched results), st').
Proof.
  intros Hlogs Hfetch Hres. unfold find_issues_twice.
  unfold bind at 1, new_IssuesFinder, new_list, ret. unfold bind at 1.
  set (st1 := {| requests := requests st;
                 store := <[fresh_loc (store st) := []]> (store st);
                 report_struct := report_struct st |}).
  set (finder := {| issues_found := fresh_loc (store st) |}).
  assert (contents st1 (issues_found finder) = []) as Hempty.
  { unfold contents. simpl. by rewrite lookup_insert_eq. }
  assert (∀ s, ∃ s1, get_file_from_url E url s = (Ok log, s1)) as Hget.
  { intros s. specialize (Hfetch s).
    destruct (get_file_from_url E url s) as [r s1]. simpl in Hfetch. subst r.
    by exists s1. }
  destruct (Hget st1) as [st1' Hf1].
  destruct (find_issues_spec E body finder test_info url log st1 st1' results
              Hlogs Hf1 Hres) as (st2 & Hfi1 & Hc1 & _).
  destruct (Hget st2) as [st2' Hf2].
  destruct (find_issues_spec E body finder test_info url log st2 st2' results
              Hlogs Hf2 Hres) as (st3 & Hfi2 & Hc2 & _).
  rewrite Hempty, app_nil_l in Hc1. rewrite Hc1 in Hc2.
  exists st3. unfold bind at 1. rewrite Hfi1.
  unfold bind at 1, read_list. unfold bind at 1. rewrite Hfi2.
  unfold bind at 1. unfold bind at 1. unfold ret.
  fold (contents st2 (issues_found finder)).
  fold (contents st3 (issues_found finder)).
  by rewrite Hc1, Hc2.
Qed.

(** The registered rule, twice on one finder. *)
Lemma find_issues_twice_accumulates_witness :
  ∃ st',
    find_issues_twice E_hit IssuesFinder_body sample_attrs st0
    = (Ok ([cleanup_description],
           [cleanup_description; cleanup_description],
           [cleanup_description; cleanup_description]), st').
Proof.
  apply (find_issues_twice_accumulates E_hit IssuesFinder_body sample_attrs
           "http://logs.example/T1" log_hit [Some cleanup_description] st0).
  - reflexivity.
  - intros st'. reflexivity.
  - rewrite registered_results. rewrite decide_True; [reflexivity|].
    by_evaluation.
Defined.

(** X4.  A rule that raises ends [find_issues] with its exception: the
    rules after it, by name, are not evaluated, and the descriptions of
    the rules before it stay in the list of the finder. *)
Theorem find_issues_stops_at_raising_rule
    (E : env) (body : class_body) (self : IssuesFinder) (test_info : attrs)
    (url log : string) (before after : list attribute) (m : attribute)
    (results : list (option string)) (e : exn) (st st1 : state) :
  logs test_info = Some url →
  get_file_from_url E url st = (Ok log, st1) →
  get_issue_methods body = before ++ m :: after →
  (λ m, call m log) <$> before = Ok <$> results →
  call m log = Raise e →
  ∃ st',
    find_issues E body self test_info st = (Raise e, st')
    ∧ contents st' (issues_found self)
      = contents st (issues_found self) ++ matched results.
Proof.
  intros Hlogs Hfetch Hmethods Hres Hm.
  rewrite find_issues_eq, Hlogs, Hfetch, Hmethods.
  destruct (run_issue_methods_spec self log before results st1 Hres)
    as (st2 & Hrun & Hc & _).
  rewrite (run_issue_methods_app self log before (m :: after) st1 st2 Hrun).
  rewrite run_issue_methods_cons, Hm. exists st2. split; [done|].
  rewrite Hc.
  destruct (get_file_from_url_sent E url st) as (n & _ & Hsent).
  rewrite Hfetch in Hsent. simpl in Hsent. by subst st1.
Qed.

(** Of three rules the second raises: the first description is kept, the
    third rule is not reached. *)
Lemma find_issues_stops_at_raising_rule_witness :
  ∃ st',
    find_issues E_hit three_rules {| issues_found := 0 |} sample_attrs st0
    = (Raise (ExternalError "ValueError"), st')
    ∧ contents st' 0 = ["A"].
Proof.
  apply (find_issues_stops_at_raising_rule E_hit three_rules
           {| issues_found := 0 |} sample_attrs "http://logs.example/T1" log_hit
           [Rule (λ _, Ok (Some "A"))]
           [Rule (λ _, Ok (Some "C"))]
           (Rule (λ _, Raise (ExternalError "ValueError")))
           [Some "A"] (ExternalError "ValueError") st0
           (sent 1 "http://logs.example/T1" st0)).
  - reflexivity.
  - reflexivity.
  - reflexivity.
  - reflexivity.
  - reflexivity.
Defined.

(** X5.  On a log without lines [re.search] is never called: the answer is
    [True] when there is no target and [False] otherwise, whatever the
    targets are, well-formed patterns or not. *)
Theorem match_ordered_strings_no_lines (log : string) (targets : list string) :
  Str.splitlines log = [] →
  match_ordered_strings log targets = Ok (bool_decide (targets = [])).
Proof.
  intros Hlines. unfold match_ordered_strings. rewrite Hlines.
  assert (∀ found_all,
            targets_loop [] targets found_all
            = Ok (match targets with
                  | [] => found_all
                  | _ => {[false]} ∪ found_all
                  end)) as ->.
  { induction targets as [|t rest IH]; intros found_all; [done|].
    cbn [targets_loop find_target]. rewrite IH. f_equal.
    destruct rest; [done|].
    by rewrite (assoc_L (∪)), (idemp_L (∪)). }
  by destruct targets.
Qed.

(** The empty log, with a target that is no pattern at all. *)
Lemma match_ordered_strings_no_lines_witness :
  match_ordered_strings EmptyString ["a(b"] = Ok false.
Proof.
  apply (match_ordered_strings_no_lines EmptyString ["a(b"]). reflexivity.
Defined.

(** X6.  More lines and fewer targets never lose a match: when the targets
    are found in a log, every part of them is found in every log that has
    at least the same lines. *)
Theorem match_ordered_strings_monotone
    (log log' : string) (targets targets' : list string) :
  Forall (λ t, is_Some (Re.re_compile t)) targets →
  Str.splitlines log ⊆ Str.splitlines log' →
  targets' ⊆ targets →
  match_ordered_strings log targets = Ok true →
  match_ordered_strings log' targets' = Ok true.
Proof.
  intros Hc Hlines Htargets Hmatch.
  assert (Forall (λ t, is_Some (Re.re_compile t)) targets') as Hc'.
  { apply Forall_forall. intros t Ht. eapply Forall_forall in Hc; [done|].
    by apply Htargets. }
  destruct (match_ordered_strings_spec log targets Hc) as (b & Hb & Hiff).
  rewrite Hmatch in Hb. injection Hb as <-.
  destruct (match_ordered_strings_spec log' targets' Hc') as (b' & -> & Hiff').
  f_equal. apply Hiff'. apply Forall_forall. intros t Ht.
  assert (found_in t log) as Hfound.
  { assert (Forall (λ t, found_in t log) targets) as Hall by by apply Hiff.
    eapply Forall_forall in Hall; [done|]. by apply Htargets. }
  unfold found_in in *. apply Exists_exists in Hfound as (line & Hline & Hm).
  apply Exists_exists. exists line. split; [by apply Hlines|done].
Qed.

(** [log_hit] has the lines of [log_miss] and one more. *)
Lemma match_ordered_strings_monotone_witness :
  match_ordered_strings log_hit ["RuntimeError: error getting projects by user"]
  = Ok true.
Proof.
  apply (match_ordered_strings_monotone log_miss log_hit
           ["RuntimeError: error getting projects by user";
            "the server is currently unable to handle the request \(get projects.project.openshift.io\)"]
           ["RuntimeError: error getting projects by user"]).
  - by_evaluation.
  - by_evaluation.
  - by_evaluation.
  - reflexivity.
Defined.

(** X7.  Targets written with plain characters only are looked for as they
    are written: the answer is [True] exactly when each target is part of
    some line of the log. *)
Theorem match_ordered_strings_plain_targets
    (log : string) (targets : list string) :
  Forall (λ t, forallb plain (Str.to_list t) = true) targets →
  ∃ b, match_ordered_strings log targets = Ok b
       ∧ (b = true
          ↔ ∀ t, t ∈ targets →
                 ∃ line, line ∈ Str.splitlines log ∧ contains t line).
Proof.
  intros Hplain.
  assert (Forall (λ t, is_Some (Re.re_compile t)) targets) as Hc.
  { eapply Forall_impl; [exact Hplain|]. intros t Ht. simpl.
    unfold Re.re_compile. rewrite parse_plain by done. eauto. }
  destruct (match_ordered_strings_spec log targets Hc) as (b & -> & Hiff).
  exists b. split; [done|]. rewrite Hiff, Forall_forall.
  split; intros Hall t Ht; specialize (Hall t Ht).
  - apply Exists_exists in Hall as (line & Hline & Hm). exists line.
    split; [done|]. apply line_matches_plain; [|done].
    by eapply Forall_forall in Hplain.
  - destruct Hall as (line & Hline & Hm). apply Exists_exists. exists line.
    split; [done|]. apply line_matches_plain; [|done].
    by eapply Forall_forall in Hplain.
Qed.

(** Two plain targets, both in [log_hit]. *)
Lemma match_ordered_strings_plain_targets_witness :
  ∃ b, match_ordered_strings log_hit ["=== After Scenario:"; "by user"] = Ok b
       ∧ (b = true
          ↔ ∀ t, t ∈ ["=== After Scenario:"; "by user"] →
                 ∃ line, line ∈ Str.splitlines log_hit ∧ contains t line).
Proof.
  apply (match_ordered_strings_plain_targets log_hit
           ["=== After Scenario:"; "by user"]).
  by_evaluation.
Defined.

(** X8.  The registered rule in plain words.  It gives its description
    when some line has the text "=== After Scenario:", some line has
    "the server is currently unable to handle the request (get
    projects.project.openshift.io)" with any character in the place of each
    of the three dots, and some line has "RuntimeError: error getting
    projects by user"; it gives [None] otherwise, and never raises. *)
Theorem cleanup_rule_in_plain_words (log : string) :
  let found :=
    (∃ line, line ∈ Str.splitlines log ∧ contains "=== After Scenario:" line)
    ∧ (∃ line c1 c2 c3,
         line ∈ Str.splitlines log ∧ contains (server_text c1 c2 c3) line)
    ∧ (∃ line, line ∈ Str.splitlines log
               ∧ contains "RuntimeError: error getting projects by user" line) in
  (found ↔ issue_fail_to_get_project_during_cleanup log
           = Ok (Some cleanup_description))
  ∧ (¬ found ↔ issue_fail_to_get_project_during_cleanup log = Ok None).
Proof.
  intros found. rewrite issue_fail_spec.
  assert (Forall (λ t, found_in t log) re_strings ↔ found) as Hiff.
  { unfold re_strings, found, found_in.
    rewrite !Forall_cons, Forall_nil, !Exists_exists.
    split.
    - intros ((l1 & Hl1 & Hm1) & (l2 & Hl2 & Hm2) & (l3 & Hl3 & Hm3) & _).
      split; [|split].
      + exists l1. split; [done|].
        by apply (line_matches_plain _ _ after_scenario_plain) in Hm1.
      + apply line_matches_server in Hm2 as (c1 & c2 & c3 & _ & _ & _ & Hc).
        by exists l2, c1, c2, c3.
      + exists l3. split; [done|].
        by apply (line_matches_plain _ _ runtime_error_plain) in Hm3.
    - intros ((l1 & Hl1 & Hm1) & (l2 & c1 & c2 & c3 & Hl2 & Hm2)
              & (l3 & Hl3 & Hm3)).
      split; [|split; [|split; [|done]]].
      + exists l1. split; [done|].
        by apply (line_matches_plain _ _ after_scenario_plain).
      + exists l2. split; [done|]. apply line_matches_server.
        exists c1, c2, c3.
        assert (∀ c, c ∈ server_chars c1 c2 c3 → c ≠ Str.LF) as Hlf.
        { intros c Hc ->. apply contains_to_list in Hm2 as (pre & post & Hl).
          assert (Str.is_linebreak Str.LF = false) as Hbreak; [|done].
          apply (splitlines_no_break log l2); [done|].
          rewrite Hl. apply elem_of_app. right. apply elem_of_app. left.
          unfold server_text.
          by rewrite String.list_ascii_of_string_of_list_ascii. }
        destruct (server_chars_dots c1 c2 c3) as (H1 & H2 & H3).
        split; [by apply Hlf|]. split; [by apply Hlf|].
        split; [by apply Hlf|done].
      + exists l3. split; [done|].
        by apply (line_matches_plain _ _ runtime_error_plain). }
  destruct (decide (Forall (λ t, found_in t log) re_strings)) as [Hy|Hn].
  - assert found as Hf by by apply Hiff.
    split; [split; [done|by intros _]|].
    split; [intros Hnf; by destruct Hnf|discriminate].
  - assert (¬ found) as Hnf by (intros Hf; by apply Hn, Hiff).
    split; [split; [intros Hf; by destruct Hnf|discriminate]|].
    split; [done|by intros _].
Qed.

(** ** The functions of the module *)

(** X9.  [get_link_to_log] never raises.  It returns [None] exactly when
    the comment has no [http] in it; otherwise the link starts at the
    first [http] of the comment and runs to the end of that line, whatever
    stands there after the address. *)
Theorem get_link_to_log_first_http (content : string) :
  get_link_to_log content = Ok (Str.of_list <$> first_link (Str.to_list content))
  ∧ (get_link_to_log content = Ok None ↔ ¬ contains "http" content)
  ∧ ∀ link,
      get_link_to_log content = Ok (Some link) →
      ∃ pre post,
        content = pre +:+ link +:+ post
        ∧ (∃ rest, link = "http" +:+ rest)
        ∧ (Str.LF ∉ Str.to_list link)
        ∧ (post = EmptyString ∨ ∃ post', post = String Str.LF post')
        ∧ ∀ pre' rest, content = pre' +:+ "http" +:+ rest →
                       String.length pre ≤ String.length pre'.
Proof.
  rewrite get_link_to_log_first_link. split; [done|]. split.
  - destruct (first_link (Str.to_list content)) as [l|] eqn:Hl.
    + split; [done|]. intros Hno.
      assert (first_link (Str.to_list content) = None) as Hnone; [|congruence].
      apply first_link_None. intros Hocc. apply Hno.
      by apply (occurs_string "http") in Hocc.
    + split; [|done]. intros _ Hc. apply first_link_None in Hl. apply Hl.
      by apply (occurs_string "http").
  - intros link Hlink.
    destruct (first_link (Str.to_list content)) as [l|] eqn:Hl; [|done].
    injection Hlink as <-.
    apply first_link_Some in Hl as (pre & post & Hs & [rest ->] & Hlf & Hpost & Hfirst).
    exists (Str.of_list pre), (Str.of_list post).
    split; [|split; [|split; [|split]]].
    + rewrite <- (String.string_of_list_ascii_of_string content), Hs.
      by rewrite !of_list_app.
    + exists (Str.of_list rest). by rewrite of_list_app.
    + by rewrite String.list_ascii_of_string_of_list_ascii.
    + destruct Hpost as [->|[post' ->]]; [by left|right].
      by exists (Str.of_list post').
    + intros pre' rest' Hc. rewrite <- !length_to_list.
      rewrite String.list_ascii_of_string_of_list_ascii. apply (Hfirst _ (Str.to_list rest')).
      by rewrite Hc, !to_list_app.
Qed.

(** The comment of the sample record: its link is the rest of the line
    from [http] on, and no [http] stands before it. *)
Lemma get_link_to_log_first_http_witness :
  get_link_to_log (comment_content sample_record)
  = Ok (Some "http://logs.example/T1")
  ∧ ∃ pre post,
      comment_content sample_record = pre +:+ "http://logs.example/T1" +:+ post
      ∧ String.length pre ≤ String.length "console log: ".
Proof.
  split; [reflexivity|].
  destruct (get_link_to_log_first_http (comment_content sample_record))
    as (_ & _ & Hlink).
  destruct (Hlink "http://logs.example/T1" eq_refl)
    as (pre & post & Hcontent & _ & _ & _ & Hfirst).
  exists pre, post. split; [exact Hcontent|].
  apply (Hfirst "console log: " "://logs.example/T1"). reflexivity.
Defined.

(** ** The script and the owner *)

(** X10.  A script that [get_automation_script] returns comes from the
    first field whose key is [automation_script]: it starts with
    [features], ends with [feature], has no line feed in it, and stands in
    the content of that field after [file: ] and before a line feed. *)
Theorem get_automation_script_path_shape
    (cfields : list custom_field) (script : string) :
  get_automation_script cfields = Ok script →
  ∃ before cf after w,
    cfields = before ++ cf :: after
    ∧ (∀ c, c ∈ before → key c ≠ "automation_script")
    ∧ key cf = "automation_script"
    ∧ script = "features" +:+ w +:+ "feature"
    ∧ (Str.LF ∉ Str.to_list w)
    ∧ contains ("file: " +:+ script +:+ nl) (value_content cf).
Proof.
  intros (before & cf & after & gs & -> & Hno & Hk & Hs)%get_automation_script_inv.
  apply script_pattern_shape in Hs as (pre & w & post & Hcontent & Hlf & Hgs).
  assert (script
          = Str.of_list (Str.to_list "features" ++ w ++ Str.to_list "feature"))
    as -> by congruence.
  clear Hgs. exists before, cf, after, (Str.of_list w).
  split; [done|]. split; [done|]. split; [done|].
  split; [by rewrite !of_list_app|].
  split; [by rewrite String.list_ascii_of_string_of_list_ascii|].
  apply contains_to_list. exists pre, post.
  rewrite Hcontent, !to_list_app, String.list_ascii_of_string_of_list_ascii.
  by rewrite <- !app_assoc.
Qed.

(** The script of the sample record. *)
Lemma get_automation_script_path_shape_witness :
  ∃ before cf after w,
    customFields_Custom sample_record = before ++ cf :: after
    ∧ (∀ c, c ∈ before → key c ≠ "automation_script")
    ∧ key cf = "automation_script"
    ∧ "features/cli/a.feature" = "features" +:+ w +:+ "feature"
    ∧ (Str.LF ∉ Str.to_list w)
    ∧ contains ("file: " +:+ "features/cli/a.feature" +:+ nl) (value_content cf).
Proof.
  apply (get_automation_script_path_shape (customFields_Custom sample_record)
           "features/cli/a.feature").
  reflexivity.
Defined.

(** X11.  A name that [get_owner] takes from the output of the command
    stands on one line of the output, its end stripped of white space,
    between [author] with any white space after it and [@redhat], one
    character and [com]. *)
Theorem get_owner_name_shape
    (E : env) (ascript testid out owner : string) :
  check_output E (owner_command E ascript testid) = Ok out →
  get_owner E ascript testid = Ok owner →
  ∃ pre ws c post,
    Str.to_list (Str.rstrip out)
    = pre ++ Str.to_list "author" ++ ws ++ Str.to_list owner
      ++ Str.to_list "@redhat" ++ c :: Str.to_list "com" ++ post
    ∧ Forall (λ c, Str.is_space c = true) ws
    ∧ (Str.LF ∉ Str.to_list owner) ∧ c ≠ Str.LF.
Proof.
  intros Hout. unfold get_owner. unfold owner_command in Hout. rewrite Hout.
  destruct (Re.re_search "author\s*(.*)@redhat.com" (Str.rstrip out))
    as [[gs|]|e] eqn:Hs; [|done..].
  apply owner_pattern_shape in Hs
    as (pre & ws & name & c & post & Htext & Hws & Hlf & Hc & ->).
  intros [= <-]. exists pre, ws, c, post.
  by rewrite String.list_ascii_of_string_of_list_ascii.
Qed.

(** The author line of [E_version]. *)
Lemma get_owner_name_shape_witness :
  ∃ pre ws c post,
    Str.to_list (Str.rstrip ("  # @author version@redhat.com" +:+ nl))
    = pre ++ Str.to_list "author" ++ ws ++ Str.to_list "version"
      ++ Str.to_list "@redhat" ++ c :: Str.to_list "com" ++ post
    ∧ Forall (λ c, Str.is_space c = true) ws
    ∧ (Str.LF ∉ Str.to_list "version") ∧ c ≠ Str.LF.
Proof.
  apply (get_owner_name_shape E_version "features/cli/a.feature" "T1"
           ("  # @author version@redhat.com" +:+ nl) "version").
  - reflexivity.
  - reflexivity.
Defined.

(** ** The aggregation *)

(** X12.  The cascade of tests of [main] is the insert of a record at its
    path, the levels that are missing being made on the way; it fails in
    one case only, when the owner is a key that holds a version string
    that is not empty. *)
Theorem report_insert_is_nested_insert
    (owner script id : string) (a : attrs) (r : report) :
  (¬ holds_version r owner →
   report_insert owner script id a r = Ok (nested_insert owner script id a r))
  ∧ (holds_version r owner →
     report_insert owner script id a r
     = Raise (AttributeError "'str' object has no attribute 'get'")).
Proof.
  split; [apply report_insert_nested|apply report_insert_version].
Qed.

(** A first record in the report that [main] starts with. *)
Lemma report_insert_is_nested_insert_witness :
  report_insert "alice" "s.feature" "T1" sample_attrs
    {[ "version" := Version "4.14" ]}
  = Ok (nested_insert "alice" "s.feature" "T1" sample_attrs
          {[ "version" := Version "4.14" ]}).
Proof.
  apply (report_insert_is_nested_insert "alice" "s.feature" "T1" sample_attrs
           {[ "version" := Version "4.14" ]}).
  intros (v & Hv & _). discriminate Hv.
Defined.

(** X13.  A second insert at a path leaves no trace of the first: the
    report is the one the second insert alone gives, with the second
    record at the path and every other path as it was. *)
Theorem report_insert_overwrites
    (owner script id : string) (a1 a2 : attrs) (r : report) :
  ¬ holds_version r owner →
  ∃ r1 r2,
    report_insert owner script id a1 r = Ok r1
    ∧ report_insert owner script id a2 r1 = Ok r2
    ∧ report_insert owner script id a2 r = Ok r2
    ∧ report_lookup r2 owner script id = Some a2
    ∧ ∀ o s i, (o, s, i) ≠ (owner, script, id) →
               report_lookup r2 o s i = report_lookup r o s i.
Proof.
  intros Hv.
  exists (nested_insert owner script id a1 r), (nested_insert owner script id a2 r).
  split; [by apply report_insert_nested|]. split.
  - rewrite report_insert_nested, nested_insert_twice; [done|].
    rewrite holds_version_nested. by intros [? _].
  - split; [by apply report_insert_nested|].
    split; [apply report_lookup_nested|]. intros o s i Hne.
    by apply report_lookup_nested_ne.
Qed.

(** Scenario P3 of the spec: two payloads for alice, s.feature, T1. *)
Lemma report_insert_overwrites_witness :
  ∃ r1 r2,
    report_insert "alice" "s.feature" "T1" sample_attrs
      {[ "version" := Version "4.14" ]} = Ok r1
    ∧ report_insert "alice" "s.feature" "T1" other_attrs r1 = Ok r2
    ∧ report_insert "alice" "s.feature" "T1" other_attrs
        {[ "version" := Version "4.14" ]} = Ok r2
    ∧ report_lookup r2 "alice" "s.feature" "T1" = Some other_attrs
    ∧ ∀ o s i, (o, s, i) ≠ ("alice", "s.feature", "T1") →
               report_lookup r2 o s i
               = report_lookup {[ "version" := Version "4.14" ]} o s i.
Proof.
  apply (report_insert_overwrites "alice" "s.feature" "T1" sample_attrs
           other_attrs {[ "version" := Version "4.14" ]}).
  intros (v & Hv & _). discriminate Hv.
Defined.

(** X14.  Inserts at two different paths give the same report in either
    order. *)
Theorem report_insert_commutes
    (o1 s1 i1 o2 s2 i2 : string) (a1 a2 : attrs) (r : report) :
  (o1, s1, i1) ≠ (o2, s2, i2) →
  ¬ holds_version r o1 →
  ¬ holds_version r o2 →
  ∃ r1 r2 r12,
    report_insert o1 s1 i1 a1 r = Ok r1
    ∧ report_insert o2 s2 i2 a2 r1 = Ok r12
    ∧ report_insert o2 s2 i2 a2 r = Ok r2
    ∧ report_insert o1 s1 i1 a1 r2 = Ok r12.
Proof.
  intros Hne Hv1 Hv2.
  exists (nested_insert o1 s1 i1 a1 r), (nested_insert o2 s2 i2 a2 r),
         (nested_insert o2 s2 i2 a2 (nested_insert o1 s1 i1 a1 r)).
  split; [by apply report_insert_nested|]. split.
  - apply report_insert_nested. rewrite holds_version_nested. by intros [_ ?].
  - split; [by apply report_insert_nested|].
    rewrite report_insert_nested.
    + f_equal. by apply nested_insert_commute.
    + rewrite holds_version_nested. by intros [_ ?].
Qed.

(** Two cases of one script of one owner. *)
Lemma report_insert_commutes_witness :
  ∃ r1 r2 r12,
    report_insert "alice" "s.feature" "T1" sample_attrs ∅ = Ok r1
    ∧ report_insert "alice" "s.feature" "T2" other_attrs r1 = Ok r12
    ∧ report_insert "alice" "s.feature" "T2" other_attrs ∅ = Ok r2
    ∧ report_insert "alice" "s.feature" "T1" sample_attrs r2 = Ok r12.
Proof.
  apply (report_insert_commutes "alice" "s.feature" "T1"
           "alice" "s.feature" "T2" sample_attrs other_attrs ∅).
  - discriminate.
  - intros (v & Hv & _). discriminate Hv.
  - intros (v & Hv & _). discriminate Hv.
Defined.

(** ** The loops of [main] *)

(** X15.  Records that did not fail play no part: the records of a run
    give the state that its failed records alone give. *)
Theorem process_records_skips_passed
    (E : env) (prof : string) (records : list test_record) (st : state) :
  process_records E prof records st
  = process_records E prof (filter failed records) st.
Proof.
  revert st. induction records as [|record rest IH]; intros st; [done|].
  rewrite filter_cons. destruct (decide (failed record)) as [Hf|Hf].
  - cbn [process_records]. unfold bind.
    destruct (process_record E prof record st) as [[[]|e] st']; [|done].
    apply IH.
  - cbn [process_records]. unfold bind.
    rewrite process_record_passed by done. apply IH.
Qed.

(** X16.  The records of a run cost three requests each at most, and none
    when they did not fail; the requests are added to those sent before,
    and each goes to the link in the comment of a failed record. *)
Theorem process_records_requests_bound
    (E : env) (prof : string) (records : list test_record) (st : state) :
  ∃ extra,
    requests (snd (process_records E prof records st)) = requests st ++ extra
    ∧ length extra ≤ 3 * length (filter failed records)
    ∧ ∀ url, url ∈ extra →
        ∃ record, record ∈ records ∧ failed record
                  ∧ get_link_to_log (comment_content record) = Ok (Some url).
Proof.
  revert st. induction records as [|record rest IH]; intros st.
  - exists []. simpl. rewrite app_nil_r. split; [done|]. split; [done|].
    intros url Hurl. by apply elem_of_nil in Hurl.
  - cbn [process_records]. unfold bind.
    destruct (process_record_requests E prof record st)
      as (n & url & Hn & Hreq & Hlink).
    assert (n ≤ 3 * length (filter failed [record])) as Hcount.
    { rewrite filter_cons, filter_nil.
      destruct (decide (failed record)) as [|Hnf]; simpl; [lia|].
      destruct n; [lia|]. destruct Hlink as [Hf _]; [lia|done]. }
    assert (∀ u, u ∈ replicate n url →
              ∃ r, r ∈ record :: rest ∧ failed r
                   ∧ get_link_to_log (comment_content r) = Ok (Some u))
      as Hfirst.
    { intros u [-> Hpos]%elem_of_replicate. exists record.
      split; [by left|]. apply Hlink. lia. }
    change (record :: rest) with ([record] ++ rest) at 1.
    rewrite filter_app, length_app.
    destruct (process_record E prof record st) as [[[]|e] st']; simpl in Hreq.
    + destruct (IH st') as (extra & Hextra & Hlen & Hurls).
      exists (replicate n url ++ extra).
      rewrite Hextra, Hreq, length_app, length_replicate, <- app_assoc.
      split; [done|]. split; [lia|].
      intros u [Hu|Hu]%elem_of_app; [by apply Hfirst|].
      destruct (Hurls u Hu) as (r & Hr & Hf & Hl). exists r.
      split; [by right|done].
    + exists (replicate n url). simpl. rewrite length_replicate.
      split; [done|]. split; [lia|done].
Qed.

(** X17.  A failed record whose script and owner are found and whose log
    is fetched is put in the report at owner, script and case, with its
    case, its profile and its link.  It has the key [known_issues], with
    the one description, exactly when the registered rule matches its log;
    without a link nothing is fetched and the key is not there. *)
Theorem process_record_aggregates_known_issues
    (E : env) (prof : string) (record : test_record) (script owner log : string)
    (st : state) :
  failed record →
  get_automation_script (customFields_Custom record) = Ok script →
  get_owner E script (test_case_id record) = Ok owner →
  ¬ holds_version (report_struct st) owner →
  (∀ url, get_link_to_log (comment_content record) = Ok (Some url) →
          fst (get_file_from_url E url st) = Ok log) →
  ∃ st' a,
    process_record E prof record st = (Ok tt, st')
    ∧ report_struct st'
      = nested_insert owner script (test_case_id record) a (report_struct st)
    ∧ case a = test_case_id record ∧ profile a = prof
    ∧ get_link_to_log (comment_content record) = Ok (logs a)
    ∧ match logs a with
      | Some _ =>
          if decide (Forall (λ t, found_in t log) re_strings)
          then ∃ l, known_issues a = Some l
                    ∧ contents st' l = [cleanup_description]
          else known_issues a = None
      | None => known_issues a = None ∧ requests st' = requests st
      end.
Proof.
  intros Hr Hs Ho Hv Hfetch.
  unfold process_record. rewrite decide_True by done.
  destruct (get_link_to_log_ok (comment_content record)) as [link Hl].
  unfold bind at 1, lift. rewrite Hl.
  unfold bind at 1. rewrite Hs.
  unfold bind at 1. rewrite Ho.
  unfold bind at 1, new_IssuesFinder, new_list, ret. unfold bind at 1.
  set (st1 := {| requests := requests st;
                 store := <[fresh_loc (store st) := []]> (store st);
                 report_struct := report_struct st |}).
  set (finder := {| issues_found := fresh_loc (store st) |}).
  set (ti := {| case := test_case_id record; logs := link; profile := prof;
                known_issues := None |}).
  assert (contents st1 (issues_found finder) = []) as Hempty.
  { unfold contents. simpl. by rewrite lookup_insert_eq. }
  set (results := [if decide (Forall (λ t, found_in t log) re_strings)
                   then Some cleanup_description else None]).
  assert (∃ st2,
            find_issues E IssuesFinder_body finder ti st1
            = (Ok (issues_found finder), st2)
            ∧ report_struct st2 = report_struct st
            ∧ contents st2 (issues_found finder)
              = match link with Some _ => matched results | None => [] end
            ∧ (link = None → requests st2 = requests st))
    as (st2 & Hfi & Hrep & Hc & Hreq).
  { destruct link as [url|] eqn:Hlink.
    - specialize (Hfetch url Hl).
      rewrite <- (get_file_from_url_requests E url st1 st) in Hfetch by done.
      destruct (get_file_from_url E url st1) as [res st1'] eqn:Hf.
      simpl in Hfetch. subst res.
      destruct (find_issues_spec E IssuesFinder_body finder ti url log st1 st1'
                  results eq_refl Hf (registered_results log))
        as (st2 & Hfi & Hc & _ & _ & Hrep).
      exists st2. split; [done|]. split; [done|].
      split; [by rewrite Hc, Hempty|done].
    - exists st1. rewrite find_issues_no_logs by done. by repeat split. }
  unfold bind at 1. rewrite Hfi.
  unfold bind at 1, read_list.
  remember (default [] (store st2 !! issues_found finder)) as found eqn:Hd.
  assert (found = match link with Some _ => matched results | None => [] end)
    as -> by (rewrite Hd; exact Hc).
  unfold bind at 1, get_report. unfold bind at 1, lift.
  rewrite Hrep, report_insert_nested by done.
  eexists _, _. split; [reflexivity|]. cbn [report_struct snd set_report].
  split; [reflexivity|].
  destruct link as [url|]; subst results; unfold matched; simpl.
  - destruct (decide (Forall (λ t, found_in t log) re_strings)); simpl.
    + repeat split. exists (issues_found finder). split; [done|].
      symmetry. exact Hd.
    + by repeat split.
  - repeat split. by apply Hreq.
Qed.

(** The sample record in the world of [E_hit]. *)
Lemma process_record_aggregates_known_issues_witness :
  ∃ st' a,
    process_record E_hit "aws-ipi" sample_record st0 = (Ok tt, st')
    ∧ report_struct st'
      = nested_insert "Not found" "features/cli/a.feature" "T1" a ∅
    ∧ case a = "T1" ∧ profile a = "aws-ipi"
    ∧ get_link_to_log (comment_content sample_record) = Ok (logs a)
    ∧ match logs a with
      | Some _ =>
          if decide (Forall (λ t, found_in t log_hit) re_strings)
          then ∃ l, known_issues a = Some l
                    ∧ contents st' l = [cleanup_description]
          else known_issues a = None
      | None => known_issues a = None ∧ requests st' = requests st0
      end.
Proof.
  apply (process_record_aggregates_known_issues E_hit "aws-ipi" sample_record
           "features/cli/a.feature" "Not found" log_hit st0).
  - reflexivity.
  - reflexivity.
  - reflexivity.
  - intros (v & Hv & _). discriminate Hv.
  - intros url _. reflexivity.
Defined.

(** X18.  The report that [main] hands to [write_output] goes to the path
    asked for; only the key [version] holds a string in it, the version
    asked for when that is not empty; and every record in it is filed
    under its own case. *)
Theorem main_report_invariants
    (E : env) (a : args) (st st' : state) (r : report) (path : string) :
  main E a st = (Ok (r, path), st') →
  path = output a
  ∧ r = report_struct st'
  ∧ well_formed r
  ∧ filed_by_case r
  ∧ (version a ≠ EmptyString → r !! "version" = Some (Version (version a))).
Proof.
  rewrite main_eq. destruct (runs a) as [rs|]; [|done].
  set (P := λ r : report,
         well_formed r ∧ filed_by_case r
         ∧ (version a ≠ EmptyString →
            r !! "version" = Some (Version (version a)))).
  set (st1 := {| requests := requests st; store := store st;
                 report_struct := {[ "version" := Version (version a) ]} |}).
  assert (P (report_struct (snd (process_runs E rs st1)))) as HP.
  { apply process_runs_keeps.
    - intros r0 owner script id a0 (Hwf & Hfiled & Hver) Hv Hcase.
      split; [by apply well_formed_nested|].
      split; [by apply filed_by_case_nested|].
      intros Hne. unfold nested_insert. rewrite lookup_insert_ne; [by apply Hver|].
      intros ->. apply Hv. exists (version a). split; [by apply Hver|done].
    - split; [apply well_formed_initial|]. split.
      + intros o s i a0 Hl. unfold report_lookup in Hl. simpl in Hl.
        destruct (decide (o = "version")) as [->|Hne].
        * by rewrite lookup_singleton_eq in Hl.
        * by rewrite lookup_singleton_ne in Hl.
      + intros _. simpl. by rewrite lookup_singleton_eq. }
  destruct (process_runs E rs st1) as [[[]|e] st2]; [|done].
  intros [= <- <- <-]. destruct HP as (Hwf & Hfiled & Hver). done.
Qed.

(** The run of the sample world. *)
Lemma main_report_invariants_witness :
  ∃ r, fst (main E_hit sample_args st0) = Ok (r, "./20210909.json")
       ∧ well_formed r ∧ filed_by_case r
       ∧ r !! "version" = Some (Version "4.14").
Proof.
  destruct (main E_hit sample_args st0) as [[[r path]|e] st'] eqn:Hmain.
  - destruct (main_report_invariants E_hit sample_args st0 st' r path Hmain)
      as (-> & _ & Hwf & Hfiled & Hver).
    exists r. split; [reflexivity|]. split; [exact Hwf|].
    split; [exact Hfiled|]. apply Hver. discriminate.
  - exfalso. apply (f_equal fst) in Hmain. vm_compute in Hmain. discriminate Hmain.
Defined.
